(** * The self-sorting keyboard: layout engine of [autosort.js] and of its
    four-row sibling

    The repository holds two variants of one [Keyboard] class.  Both keep a
    list of rows ([keyRows]), each row an array of [Key] objects mirrored by
    the children of a DOM element ([rowEl]).  Pressing a key calls
    [sortKeys], which moves the key to the top-left slot and then reflows:

    - [autosort.js] (three rows) shifts one key down from every row above
      the pressed key's old row (module [Autosort]);
    - the four-row file with the space bar sheds keys from every row that is
      wider than its [defaultRowWidth] (module [Budget]).

    The embedding is shallow: JavaScript arrays are lists, [this] is an
    explicit machine state, exceptions are abrupt completions, and the
    [while] loop runs on fuel.  The text box and the touch handlers of the
    preview bubble are modelled beside the layout; the geometry of the
    animation and of the bubble is left out. *)

From stdpp Require Import base numbers list strings.

Local Open Scope Z_scope.

(** ** JavaScript values and array primitives *)

(** [arr[i]] for an integer [i]: [undefined] ([None]) outside the array. *)
Definition lookupZ {A} (l : list A) (i : Z) : option A :=
  if bool_decide (i < 0) then None else l !! Z.to_nat i.

(** [arr.splice(start, deleteCount, ...items)], returning the array after the
    edit.  A negative [start] counts from the end, a [start] past the end is
    clamped to the length. *)
Definition splice {A} (start : Z) (deleteCount : nat) (items l : list A) : list A :=
  let len := Z.of_nat (length l) in
  let actualStart :=
    Z.to_nat (if bool_decide (start < 0) then Z.max (len + start) 0
              else Z.min start len) in
  take actualStart l ++ items ++ drop (actualStart + deleteCount)%nat l.

(** [arr.findIndex(k => k === x)]; [None] stands for [-1]. *)
Definition findIndex {A} `{EqDecision A} (x : A) (l : list A) : option nat :=
  fst <$> list_find (λ k, k = x) l.

(** [str.split("")] on a string of one-byte characters. *)
Fixpoint split_chars (s : string) : list string :=
  match s with
  | EmptyString => []
  | String c s' => String c EmptyString :: split_chars s'
  end.

(** ** Keys, rows and the DOM mirror *)

(** A DOM element is known by its handle; the [n]-th key element created by
    the constructor has handle [n]. *)
Definition Element := nat.

(** A [Key] object.  Every [Key] owns the element it created ([keyEl]), so two
    distinct objects differ in that field and [===] on keys is equality of
    records. *)
Record Key := mkKey {
  displayStr : string;
  width : Z;
  keyEl : Element
}.

Global Instance Key_eq_dec : EqDecision Key.
Proof. solve_decision. Defined.

(** A [KeyboardRow]: the children of its [rowEl], its [keys] array and, in
    the four-row file only, its [defaultRowWidth].  The type [B] of the last
    field is [unit] for [autosort.js], whose rows have no such property. *)
Record KeyboardRow (B : Type) := mkRow {
  rowEl : list Element;
  keys : list Key;
  defaultRowWidth : B
}.
Arguments mkRow {B} _ _ _.
Arguments rowEl {B} _.
Arguments keys {B} _.
Arguments defaultRowWidth {B} _.

(** What a run leaves behind besides the layout: every call of [moveKey] with
    its arguments, and what was printed on the console. *)
Inductive Event :=
  | MoveKeyCall (key : option Key) (fromRow fromCol toRow toCol : Z)
  | ConsoleAssert (found : option Element) (expected : Element)
  | ConsoleError (key : Key).

Record Machine (B : Type) := mkMachine {
  keyRows : list (KeyboardRow B);
  trace : list Event
}.
Arguments mkMachine {B} _ _.
Arguments keyRows {B} _.
Arguments trace {B} _.

Inductive Error := TypeError | NotFoundError.

(** How a call ends: normally with a value, by a thrown exception, or (in the
    model only) by running out of fuel. *)
Inductive Completion (A : Type) :=
  | Normal (a : A)
  | Throw (e : Error)
  | OutOfFuel.
Arguments Normal {A} _.
Arguments Throw {A} _.
Arguments OutOfFuel {A}.

(** The value [getKey] hands back. *)
Inductive JsRef := JNull | JUndefined | JKey (k : Key).

(** ** DOM primitives on the children of a row element *)

(** [el.children.item(i)]; [None] is [null]. *)
Definition children_item (children : list Element) (i : Z) : option Element :=
  lookupZ children i.

(** [el.removeChild(node)]: [None] when [node] is not a child (the DOM throws
    [NotFoundError]). *)
Definition removeChild (node : Element) (children : list Element)
  : option (list Element) :=
  match list_find (λ e, e = node) children with
  | Some (i, _) => Some (delete i children)
  | None => None
  end.

(** [el.insertBefore(node, ref)] for a detached [node]: appended when [ref] is
    [null], else placed just before the child [ref]. *)
Definition insertBefore (node : Element) (ref : option Element)
    (children : list Element) : option (list Element) :=
  match ref with
  | None => Some (children ++ [node])
  | Some r =>
      match list_find (λ e, e = r) children with
      | Some (i, _) => Some (take i children ++ node :: drop i children)
      | None => None
      end
  end.

(** ** The monad of engine operations: state and abrupt completion *)

Definition M (B A : Type) : Type := Machine B → Completion A * Machine B.

Definition ret {B A} (a : A) : M B A := λ m, (Normal a, m).

Definition bind {B A C} (c : M B A) (k : A → M B C) : M B C :=
  λ m, match c m with
       | (Normal a, m') => k a m'
       | (Throw e, m') => (Throw e, m')
       | (OutOfFuel, m') => (OutOfFuel, m')
       end.

Definition throw {B A} (e : Error) : M B A := λ m, (Throw e, m).

Definition outOfFuel {B A} : M B A := λ m, (OutOfFuel, m).

Definition emit {B} (ev : Event) : M B unit :=
  λ m, (Normal tt, mkMachine (keyRows m) (trace m ++ [ev])).

Notation "'let*' x ':=' c 'in' k" := (bind c (λ x, k))
  (at level 10, x name, c at level 100, k at level 200, only parsing).
Notation "c '>>' k" := (bind c (λ _, k))
  (at level 100, k at level 200, right associativity, only parsing).

(** ** The engine shared by both files *)

Section Engine.
Context {B : Type}.

(** [this.keyRows[i]] followed by a property access, which throws a
    [TypeError] on [undefined]. *)
Definition getRow (i : Z) : M B (KeyboardRow B) :=
  λ m, match lookupZ (keyRows m) i with
       | Some r => (Normal r, m)
       | None => (Throw TypeError, m)
       end.

(** Mutation of the row object [this.keyRows[i]]; the code only mutates a
    row it has just read, so [i] is a valid index. *)
Definition setRow (i : Z) (r : KeyboardRow B) : M B unit :=
  λ m, (Normal tt, mkMachine (<[Z.to_nat i := r]> (keyRows m)) (trace m)).

(** [key.keyEl]: a [TypeError] when [key] is [undefined]. *)
Definition deref (key : option Key) : M B Key :=
  match key with
  | Some k => ret k
  | None => throw TypeError
  end.

(** The property [length] of a [KeyboardRow]: the class declares none, so
    reading it gives [undefined] ([None]). *)
Definition KeyboardRow_length (r : KeyboardRow B) : option Z := None.

(** [a >= b] where [b] may be [undefined]: [undefined] converts to [NaN]
    and every comparison with [NaN] is false. *)
Definition js_ge (a : Z) (b : option Z) : bool :=
  match b with
  | Some b => bool_decide (b ≤ a)
  | None => false
  end.

(** [getKey(row, col)].  The four tests are evaluated left to right; once
    the first two have failed, [this.keyRows[row]] is a row. *)
Definition getKey (rows : list (KeyboardRow B)) (row col : Z) : JsRef :=
  if bool_decide (row < 0) || bool_decide (Z.of_nat (length rows) ≤ row)
  then JNull
  else match lookupZ rows row with
       | None => JNull (* not reached: [row] is a valid index here *)
       | Some keyRow =>
           if bool_decide (col < 0) || js_ge col (KeyboardRow_length keyRow)
           then JNull
           else match lookupZ (keys keyRow) col with
                | Some k => JKey k
                | None => JUndefined
                end
       end.

(** The scan of [getKeyPos], started at row number [row]. *)
Fixpoint scanRows (row : nat) (rows : list (KeyboardRow B)) (key : Key)
  : option (nat * nat) :=
  match rows with
  | [] => None
  | r :: rest =>
      match findIndex key (keys r) with
      | Some foundKeyIndex => Some (row, foundKeyIndex)
      | None => scanRows (S row) rest key
      end
  end.

(** [getKeyPos(key)]: the position, or [undefined] ([None]) after an error
    on the console. *)
Definition getKeyPos (key : Key) : M B (option (nat * nat)) :=
  λ m, match scanRows 0 (keyRows m) key with
       | Some pos => ret (Some pos) m
       | None => (emit (ConsoleError key) >> ret None) m
       end.

(** [moveKey(key, fromRow, fromCol, toRow, toCol)], statement by
    statement. *)
Definition moveKey (key : option Key) (fromRow fromCol toRow toCol : Z)
  : M B unit :=
  emit (MoveKeyCall key fromRow fromCol toRow toCol) >>
  (* console.assert(rowEl.children.item(fromCol) === key.keyEl, ...) *)
  let* fr := getRow fromRow in
  let* k := deref key in
  (if decide (children_item (rowEl fr) fromCol = Some (keyEl k))
   then ret tt
   else emit (ConsoleAssert (children_item (rowEl fr) fromCol) (keyEl k))) >>
  (* this.keyRows[fromRow].rowEl.removeChild(key.keyEl) *)
  let* fr := getRow fromRow in
  match removeChild (keyEl k) (rowEl fr) with
  | Some ch => setRow fromRow (mkRow ch (keys fr) (defaultRowWidth fr))
  | None => throw NotFoundError
  end >>
  (* this.keyRows[fromRow].keys.splice(fromCol, 1) *)
  let* fr := getRow fromRow in
  setRow fromRow
    (mkRow (rowEl fr) (splice fromCol 1 [] (keys fr)) (defaultRowWidth fr)) >>
  (* newRowEl.insertBefore(key.keyEl, newRowEl.children.item(toCol)) *)
  let* newRow := getRow toRow in
  match insertBefore (keyEl k) (children_item (rowEl newRow) toCol)
          (rowEl newRow) with
  | Some ch => setRow toRow (mkRow ch (keys newRow) (defaultRowWidth newRow))
  | None => throw NotFoundError
  end >>
  (* this.keyRows[toRow].keys.splice(toCol, 0, key) *)
  let* tr := getRow toRow in
  setRow toRow
    (mkRow (rowEl tr) (splice toCol 0 [k] (keys tr)) (defaultRowWidth tr)).

(** [getFlexItemsInfo()]: the key elements under [keyboardEl] in document
    order.  The rectangles are layout geometry and are left out. *)
Definition getFlexItemsInfo : M B (list Element) :=
  λ m, (Normal (concat (rowEl <$> keyRows m)), m).

(** [animateFlexItems(old, new)]: reading [oldFlexItemInfo.x] throws when
    [find] came back [undefined]. The animation itself is cosmetic. *)
Fixpoint animateFlexItems (oldFlexItemsInfo newFlexItemsInfo : list Element)
  : M B unit :=
  match newFlexItemsInfo with
  | [] => ret tt
  | newFlexItemInfo :: rest =>
      match list_find (λ e, e = newFlexItemInfo) oldFlexItemsInfo with
      | Some _ => animateFlexItems oldFlexItemsInfo rest
      | None => throw TypeError
      end
  end.

(** [for (let i = start; i < start + n; i++) body(i)].  Both loops of
    [sortKeys] have a bound that their bodies cannot change: [oldRow] is a
    constant and [moveKey] never adds or removes a row. *)
Fixpoint forLoop (n : nat) (i : Z) (body : Z → M B unit) : M B unit :=
  match n with
  | O => ret tt
  | S n' => body i >> forLoop n' (i + 1) body
  end.

(** The body shared by both reflow loops: move the last key of row [i] to
    the front of row [i + 1]. *)
Definition shedLast (i : Z) : M B unit :=
  let* keyRow := getRow i in
  let keysArr := keys keyRow in
  let last := Z.of_nat (length keysArr) - 1 in
  moveKey (lookupZ keysArr last) i last (i + 1) 0.

(** All keys of the layout, row by row. *)
Definition allKeys (rows : list (KeyboardRow B)) : list Key :=
  concat (keys <$> rows).

End Engine.

(** ** [autosort.js]: three rows, reflow by row count *)

Module Autosort.

Definition DEFAULT_LAYOUT : list string := ["qwertyuiop"; "asdfghjkl"; "zxcvbnm"].
Definition KEY_WIDTH : Z := 50.
Definition BACKSPACE_WIDTH : Z := 80.
Definition ENTER_WIDTH : Z := 60.

(** [new Key({displayStr, width, ...})] whose fresh element is [el];
    [width || KEY_WIDTH] falls back on a missing or zero width. *)
Definition Key_new (displayStr : string) (width : option Z) (el : Element)
  : Key :=
  mkKey displayStr
    (match width with
     | Some w => if bool_decide (w = 0) then KEY_WIDTH else w
     | None => KEY_WIDTH
     end) el.

(** [rowStr.split("").map(char => new Key(...))]: the keys of one row, their
    elements numbered from [next]. *)
Fixpoint makeKeys (chars : list string) (next : Element) : list Key :=
  match chars with
  | [] => []
  | char :: rest => Key_new char None next :: makeKeys rest (S next)
  end.

(** [DEFAULT_LAYOUT.map(rowStr => ... new KeyboardRow(rowEl, keys))]; each
    [Key] constructor appended its element to [rowEl]. *)
Fixpoint makeRows (layout : list string) (next : Element)
  : list (KeyboardRow unit) * Element :=
  match layout with
  | [] => ([], next)
  | rowStr :: rest =>
      let keys := makeKeys (split_chars rowStr) next in
      let '(rows, next') := makeRows rest (next + length keys)%nat in
      (mkRow (keyEl <$> keys) keys tt :: rows, next')
  end.

(** [this.keyRows[i].keys.push(new Key({parentEl: this.keyRows[i].rowEl,
    ...}))]. *)
Definition pushKey (i : nat) (key : Key) (rows : list (KeyboardRow unit))
  : list (KeyboardRow unit) :=
  alter (λ r, mkRow (rowEl r ++ [keyEl key]) (keys r ++ [key]) tt) i rows.

(** [new Keyboard(keyboardEl)]. *)
Definition Keyboard_new : Machine unit :=
  let '(rows, next) := makeRows DEFAULT_LAYOUT 0%nat in
  let rows := pushKey 0 (Key_new "←" (Some BACKSPACE_WIDTH) next) rows in
  let rows := pushKey 1 (Key_new "↵" (Some ENTER_WIDTH) (S next)) rows in
  mkMachine rows [].

(** [sortKeys(pressedKey)].  Destructuring the [undefined] that [getKeyPos]
    returns for an absent key throws a [TypeError].  The code never reads a
    row's budget, so it runs on rows of either file. *)
Definition sortKeys {B} (pressedKey : Key) : M B unit :=
  let* pos := getKeyPos pressedKey in
  match pos with
  | None => throw TypeError
  | Some (oldRow, oldCol) =>
      let* oldFlexItemsInfo := getFlexItemsInfo in
      moveKey (Some pressedKey) (Z.of_nat oldRow) (Z.of_nat oldCol) 0 0 >>
      forLoop oldRow 0 shedLast >>
      let* newFlexItemsInfo := getFlexItemsInfo in
      animateFlexItems oldFlexItemsInfo newFlexItemsInfo
  end.

(** The layouts a user can reach: the fresh keyboard, and whatever a press
    of one of its keys leaves, however the handler ends. *)
Inductive reachable : Machine unit → Prop :=
  | reach_new : reachable Keyboard_new
  | reach_press m key c m' :
      reachable m →
      key ∈ allKeys (keyRows m) →
      sortKeys key m = (c, m') →
      reachable m'.

End Autosort.

(** ** The four-row file: space bar, reflow by width budget *)

Module Budget.

Definition DEFAULT_LAYOUT : list string :=
  ["qwertyuiop"; "asdfghjkl"; "zxcvbnm"; ""].
Definition KEY_WIDTH : Z := 50.
Definition BACKSPACE_WIDTH : Z := 100.
Definition ENTER_WIDTH : Z := 100.
Definition SPACEBAR_WIDTH : Z := 200.

Definition Key_new (displayStr : string) (width : option Z) (el : Element)
  : Key :=
  mkKey displayStr
    (match width with
     | Some w => if bool_decide (w = 0) then KEY_WIDTH else w
     | None => KEY_WIDTH
     end) el.

(** [keys.reduce((prev, cur) => prev + cur.width, 0)]. *)
Definition keysWidth (keys : list Key) : Z :=
  foldl (λ prev cur, prev + width cur) 0 keys.

(** [KeyboardRow.rowWidth()]. *)
Definition rowWidth {B} (r : KeyboardRow B) : Z := keysWidth (keys r).

(** [new KeyboardRow(rowEl, keys)]. *)
Definition KeyboardRow_new (rowEl : list Element) (keys : list Key)
  : KeyboardRow Z :=
  mkRow rowEl keys (keysWidth keys).

(** [row.addDefaultKey(new Key({parentEl: row.rowEl, ...}))]. *)
Definition addDefaultKey (key : Key) (r : KeyboardRow Z) : KeyboardRow Z :=
  let keys' := keys r ++ [key] in
  mkRow (rowEl r ++ [keyEl key]) keys' (keysWidth keys').

Fixpoint makeKeys (chars : list string) (next : Element) : list Key :=
  match chars with
  | [] => []
  | char :: rest => Key_new char None next :: makeKeys rest (S next)
  end.

Fixpoint makeRows (layout : list string) (next : Element)
  : list (KeyboardRow Z) * Element :=
  match layout with
  | [] => ([], next)
  | rowStr :: rest =>
      let keys := makeKeys (split_chars rowStr) next in
      let '(rows, next') := makeRows rest (next + length keys)%nat in
      (KeyboardRow_new (keyEl <$> keys) keys :: rows, next')
  end.

(** [new Keyboard(keyboardEl)]. *)
Definition Keyboard_new : Machine Z :=
  let '(rows, next) := makeRows DEFAULT_LAYOUT 0%nat in
  let rows :=
    alter (addDefaultKey (Key_new "←" (Some BACKSPACE_WIDTH) next)) 0%nat rows in
  let rows :=
    alter (addDefaultKey (Key_new "↵" (Some ENTER_WIDTH) (S next))) 1%nat rows in
  let rows :=
    alter (addDefaultKey (Key_new "―" (Some SPACEBAR_WIDTH) (S (S next)))) 3%nat
      rows in
  mkMachine rows [].

(** [while (keyRow.rowWidth() > keyRow.defaultRowWidth) { ... }] on the row
    object [this.keyRows[i]], with [fuel] tests of the condition allowed. *)
Fixpoint whileTooWide (fuel : nat) (i : Z) : M Z unit :=
  match fuel with
  | O => outOfFuel
  | S fuel' =>
      let* keyRow := getRow i in
      if bool_decide (rowWidth keyRow > defaultRowWidth keyRow)
      then shedLast i >> whileTooWide fuel' i
      else ret tt
  end.

(** The body of the [for] loop over the rows.  Every turn of the [while]
    loop takes a key from the row, so one test more than the row holds keys
    on entry is all the loop can use ([whileTooWide_terminates]). *)
Definition reflowRow (i : Z) : M Z unit :=
  let* keyRow := getRow i in
  whileTooWide (S (length (keys keyRow))) i.

(** [sortKeys(pressedKey)]; the [for] loop runs over all rows but the
    last. *)
Definition sortKeys (pressedKey : Key) : M Z unit :=
  let* pos := getKeyPos pressedKey in
  match pos with
  | None => throw TypeError
  | Some (oldRow, oldCol) =>
      let* oldFlexItemsInfo := getFlexItemsInfo in
      moveKey (Some pressedKey) (Z.of_nat oldRow) (Z.of_nat oldCol) 0 0 >>
      (λ m, forLoop (length (keyRows m) - 1)%nat 0 reflowRow m) >>
      let* newFlexItemsInfo := getFlexItemsInfo in
      animateFlexItems oldFlexItemsInfo newFlexItemsInfo
  end.

Inductive reachable : Machine Z → Prop :=
  | reach_new : reachable Keyboard_new
  | reach_press m key c m' :
      reachable m →
      key ∈ allKeys (keyRows m) →
      sortKeys key m = (c, m') →
      reachable m'.

End Budget.

(** ** Layout predicates *)

(** The DOM mirrors the model: the children of every row element are the
    elements of that row's keys, in order. *)
Definition mirrored {B} (rows : list (KeyboardRow B)) : Prop :=
  Forall (λ r, rowEl r = keyEl <$> keys r) rows.

(** No element, hence no key, occurs twice in the layout. *)
Definition distinct {B} (rows : list (KeyboardRow B)) : Prop :=
  NoDup (keyEl <$> allKeys rows).

Definition wellFormed {B} (rows : list (KeyboardRow B)) : Prop :=
  mirrored rows ∧ distinct rows.

(** The labels of a layout, row by row. *)
Definition labels {B} (rows : list (KeyboardRow B)) : list (list string) :=
  (λ r, displayStr <$> keys r) <$> rows.

(** Every key sits in one slot only, and the keys are those of [rows0]. *)
Definition partitioned {B} (rows0 rows : list (KeyboardRow B)) : Prop :=
  allKeys rows ≡ₚ allKeys rows0
  ∧ NoDup (allKeys rows)
  ∧ ∀ k r c r' c',
      getKey rows r c = JKey k → getKey rows r' c' = JKey k → r = r' ∧ c = c'.

(** A computation that never runs out of fuel, whatever the state. *)
Definition terminates {B A} (c : M B A) : Prop :=
  ∀ m, fst (c m) ≠ OutOfFuel.

(** Every key has a positive width. *)
Definition positiveWidths {B} (rows : list (KeyboardRow B)) : Prop :=
  Forall (λ k, 0 < width k) (allKeys rows).

(** All keys share the width [w]. *)
Definition uniformWidth {B} (w : Z) (rows : list (KeyboardRow B)) : Prop :=
  Forall (λ k, width k = w) (allKeys rows).

(** Every row is exactly as wide as its budget, as right after
    construction. *)
Definition atBudget (rows : list (KeyboardRow Z)) : Prop :=
  Forall (λ R, Budget.rowWidth R = defaultRowWidth R) rows.

(** How far row [j] is from its budget while a press on a key of row
    [oldRow] is being reflowed and rows above [i] are done: row [i] holds one
    key too many, row [oldRow] one too few. *)
Definition offset (w : Z) (oldRow i j : nat) : Z :=
  (if decide (i < oldRow ∧ j = i)%nat then w else 0)
  - (if decide (i < oldRow ∧ j = oldRow)%nat then w else 0).

(** ** Layouts used as examples *)

(** Keys of the fresh [autosort.js] keyboard. *)
Definition key_m : Key := Autosort.Key_new "m" None 25%nat.
Definition key_p : Key := Autosort.Key_new "p" None 9%nat.
Definition key_backspace : Key :=
  Autosort.Key_new "←" (Some Autosort.BACKSPACE_WIDTH) 26%nat.
Definition key_enter : Key :=
  Autosort.Key_new "↵" (Some Autosort.ENTER_WIDTH) 27%nat.

(** A three-row keyboard of letter keys only, built by the four-row file's
    classes: all keys are 50 wide and every budget is the width of its row. *)
Definition lettersOnly : Machine Z :=
  mkMachine (fst (Budget.makeRows ["qwe"; "as"; "z"] 0%nat)) [].

(** A key object that was never added to a keyboard. *)
Definition key_stray : Key := Budget.Key_new "?" None 99%nat.

(** The space bar of the fresh four-row keyboard. *)
Definition key_space : Key :=
  Budget.Key_new "―" (Some Budget.SPACEBAR_WIDTH) 28%nat.

(** A two-row keyboard built by the four-row file's classes from the layout
    ["a"; ""], with a space bar added to the bottom row: the top row's budget
    (50) is narrower than the space bar (200). *)
Definition narrowTop : Machine Z :=
  let '(rows, next) := Budget.makeRows ["a"; ""] 0%nat in
  mkMachine
    (alter (Budget.addDefaultKey
              (Budget.Key_new "―" (Some Budget.SPACEBAR_WIDTH) next)) 1%nat rows)
    [].

(** The space bar of [narrowTop]. *)
Definition wideKey : Key :=
  Budget.Key_new "―" (Some Budget.SPACEBAR_WIDTH) 1%nat.

(** The top row holds a key. *)
Definition topRowNonempty {B} (rows : list (KeyboardRow B)) : Prop :=
  ∃ R0, rows !! 0%nat = Some R0 ∧ keys R0 ≠ [].

(** Every row but the last is no wider than its budget. *)
Definition withinBudget (rows : list (KeyboardRow Z)) : Prop :=
  ∀ j R, (S j < length rows)%nat → rows !! j = Some R →
         Budget.rowWidth R ≤ defaultRowWidth R.

(** No budget is negative. *)
Definition budgetsNonneg (rows : list (KeyboardRow Z)) : Prop :=
  Forall (λ b, 0 ≤ b) (defaultRowWidth <$> rows).


(** ** The effect of one move, as a function on layouts *)

(** The row left behind when the key at column [c] goes away. *)
Definition without {B} (c : nat) (R : KeyboardRow B) : KeyboardRow B :=
  mkRow (delete c (rowEl R)) (delete c (keys R)) (defaultRowWidth R).

(** The row with [k] put in front. *)
Definition withFront {B} (k : Key) (R : KeyboardRow B) : KeyboardRow B :=
  mkRow (keyEl k :: rowEl R) (k :: keys R) (defaultRowWidth R).

(** The layout after the key [k] at [(fr, fc)] went to the front of row
    [tr]. *)
Definition moved {B} (k : Key) (fr fc tr : nat) (rows : list (KeyboardRow B))
  : list (KeyboardRow B) :=
  alter (withFront k) tr (alter (without fc) fr rows).

(** What [shedLast i] does to a layout whose row [i] is not empty, and the
    call of [moveKey] it makes. *)
Definition shedPure {B} (i : nat) (rows : list (KeyboardRow B))
  : list (KeyboardRow B) :=
  match rows !! i with
  | Some R =>
      match last (keys R) with
      | Some x => moved x i (length (keys R) - 1) (S i) rows
      | None => rows
      end
  | None => rows
  end.

Definition shedCall {B} (i : nat) (rows : list (KeyboardRow B)) : list Event :=
  match rows !! i with
  | Some R =>
      [MoveKeyCall (last (keys R)) (Z.of_nat i)
         (Z.of_nat (length (keys R)) - 1) (Z.of_nat i + 1) 0]
  | None => []
  end.

(** [n] sheds in a row, from row [i] downwards. *)
Fixpoint shiftDown {B} (n i : nat) (rows : list (KeyboardRow B))
  : list (KeyboardRow B) :=
  match n with
  | O => rows
  | S n' => shiftDown n' (S i) (shedPure i rows)
  end.

Fixpoint shiftCalls {B} (n i : nat) (rows : list (KeyboardRow B)) : list Event :=
  match n with
  | O => []
  | S n' => shedCall i rows ++ shiftCalls n' (S i) (shedPure i rows)
  end.

(** ** Further predicates on runs and layouts *)

(** The events that are calls of [moveKey]; the others are console output. *)
Definition isCall (ev : Event) : Prop :=
  match ev with
  | MoveKeyCall _ _ _ _ _ => True
  | _ => False
  end.

(** A Hoare triple for engine code: from a state in [P] the computation ends
    normally in [Q], or abruptly in [E]. *)
Definition triple {B A} (P : Machine B → Prop) (c : M B A)
    (Q : A → Machine B → Prop) (E : Machine B → Prop) : Prop :=
  ∀ m r m', P m → c m = (r, m') →
            match r with
            | Normal a => Q a m'
            | _ => E m'
            end.

(** The budgets of the rows, top to bottom. *)
Definition budgetsOf {B} (m : Machine B) : list B :=
  defaultRowWidth <$> keyRows m.

(** The state has the budgets [bs]. *)
Definition hasBudgets {B} (bs : list B) (m : Machine B) : Prop :=
  budgetsOf m = bs.

(** How many keys each row holds. *)
Definition rowLengths {B} (rows : list (KeyboardRow B)) : list nat :=
  (λ R, length (keys R)) <$> rows.

(** ** The text box and the press handler *)

(** [str.slice(start, end)] on a string of one-byte characters: a negative
    bound counts from the end, both bounds are clamped to the string. *)
Definition js_slice (str : string) (start stop : Z) : string :=
  let len := Z.of_nat (String.length str) in
  let from :=
    if bool_decide (start < 0) then Z.max (len + start) 0 else Z.min start len in
  let to :=
    if bool_decide (stop < 0) then Z.max (len + stop) 0 else Z.min stop len in
  String.substring (Z.to_nat from) (Z.to_nat (to - from)) str.

(** The static handlers of [Keyboard], as functions of [textBoxEl.value];
    [spacebar] is in the four-row file only. *)
Definition Keyboard_backspace (value : string) : string := js_slice value 0 (-1).
Definition Keyboard_enter (value : string) : string :=
  value +:+ String (Ascii.ascii_of_nat 10) EmptyString.
Definition Keyboard_spacebar (value : string) : string := value +:+ " ".

(** The page: the value of the text box and the keyboard. *)
Record Page (B : Type) := mkPage {
  textBoxEl_value : string;
  keyboard : Machine B
}.
Arguments mkPage {B} _ _.
Arguments textBoxEl_value {B} _.
Arguments keyboard {B} _.

(** The closure [this.onPress] that the [Key] constructor registers for
    [pointerup]: [onPress] is the constructor's optional argument, [sortKeys]
    the method of the keyboard the key was made for.  The text is typed
    first; the sort runs after and may end abruptly. *)
Definition Key_onPress {B} (sortKeys : Key → M B unit)
    (onPress : option (string → string)) (this : Key) (page : Page B)
  : Completion unit * Page B :=
  let value :=
    match onPress with
    | Some f => f (textBoxEl_value page)
    | None => textBoxEl_value page +:+ displayStr this
    end in
  let '(c, m) := sortKeys this (keyboard page) in
  (c, mkPage value m).

(** ** The key press preview of the four-row file: touch handlers *)

(** What [document.elementFromPoint] finds under the first touch: an element
    of class [key], or some other element; [None] is [null]. *)
Inductive Node := KeyNode (el : Element) | OtherNode.

(** [_keyElFromTouchEvent(e)], given what is under [e.touches[0]]. *)
Definition _keyElFromTouchEvent (under : option Node) : option Element :=
  match under with
  | Some (KeyNode el) => Some el
  | _ => None
  end.

(** The state the touch handlers share: the elements whose [classList] has
    [pressed], the field [hoveredEl], and the key that the preview box shows
    ([None] when [hide] has emptied it and put it off the screen). *)
Record KeyPressPreview := mkPreview {
  pressedEls : list Element;
  hoveredEl : option Element;
  previewEl : option Element
}.

(** [el.classList.add("pressed")] and [el.classList.remove("pressed")]. *)
Definition classList_add (el : Element) (pressed : list Element) : list Element :=
  if decide (el ∈ pressed) then pressed else pressed ++ [el].

Definition classList_remove (el : Element) (pressed : list Element)
  : list Element :=
  filter (λ e, e ≠ el) pressed.

(** [show(keyEl)] and [hide()]; where the box is drawn is geometry and is
    left out. *)
Definition show (keyEl : Element) (p : KeyPressPreview) : KeyPressPreview :=
  mkPreview (pressedEls p) (hoveredEl p) (Some keyEl).

Definition hide (p : KeyPressPreview) : KeyPressPreview :=
  mkPreview (pressedEls p) (hoveredEl p) None.

(** The [touchstart] listener. *)
Definition touchstart (under : option Node) (p : KeyPressPreview)
  : KeyPressPreview :=
  match _keyElFromTouchEvent under with
  | None => p
  | Some el =>
      let p := mkPreview (classList_add el (pressedEls p)) (hoveredEl p)
                 (previewEl p) in
      let p := show el p in
      mkPreview (pressedEls p) (Some el) (previewEl p)
  end.

(** The [touchmove] listener. *)
Definition touchmove (under : option Node) (p : KeyPressPreview)
  : KeyPressPreview :=
  match _keyElFromTouchEvent under with
  | None => p
  | Some el =>
      if decide (hoveredEl p = Some el) then p
      else
        let pressed :=
          match hoveredEl p with
          | Some h => classList_remove h (pressedEls p)
          | None => pressedEls p
          end in
        let p := mkPreview (classList_add el pressed) (hoveredEl p)
                   (previewEl p) in
        let p := show el p in
        mkPreview (pressedEls p) (Some el) (previewEl p)
  end.

(** The [touchend] listener: [this.hoveredEl.classList] throws when
    [hoveredEl] is [null]. *)
Definition touchend (p : KeyPressPreview) : Completion unit * KeyPressPreview :=
  match hoveredEl p with
  | None => (Throw TypeError, p)
  | Some h =>
      let p := mkPreview (classList_remove h (pressedEls p)) (hoveredEl p)
                 (previewEl p) in
      let p := hide p in
      (Normal tt, mkPreview (pressedEls p) None (previewEl p))
  end.

(** [new KeyPressPreview()] before any touch. *)
Definition KeyPressPreview_new : KeyPressPreview := mkPreview [] None None.

(** The state while a finger is down: after [touchstart] and the
    [touchmove]s that followed. *)
Definition touching (start : option Node) (moves : list (option Node))
  : KeyPressPreview :=
  foldl (λ p under, touchmove under p) (touchstart start KeyPressPreview_new)
    moves.

(** ** The key press preview: pointer handlers of both files *)

(** [keyEl.onpointerdown] and [keyEl.onpointerover], one function in the
    source: with a button held ([e.buttons !== 0]) the key gets [pressed]
    and the preview shows it. *)
Definition onpointerdown (keyEl : Element) (buttons : Z) (p : KeyPressPreview)
  : KeyPressPreview :=
  if bool_decide (buttons ≠ 0) then
    show keyEl
      (mkPreview (classList_add keyEl (pressedEls p)) (hoveredEl p)
         (previewEl p))
  else p.

(** [keyEl.onpointerout] and [keyEl.onpointerup]: the key loses [pressed];
    the preview stays. *)
Definition onpointerout (keyEl : Element) (p : KeyPressPreview)
  : KeyPressPreview :=
  mkPreview (classList_remove keyEl (pressedEls p)) (hoveredEl p) (previewEl p).

(** The [pointerup] listener of [document], set up by the constructor of
    [KeyPressPreview]. *)
Definition document_pointerup (p : KeyPressPreview) : KeyPressPreview := hide p.

(** The pointer, a button held, goes from the key [cur] over the keys of
    [path] one after the other: it leaves a key ([pointerout]) and enters
    the next ([pointerover]).  The result is the state and the key the
    pointer is on. *)
Fixpoint drag (cur : Element) (path : list Element) (buttons : Z)
    (p : KeyPressPreview) : KeyPressPreview * Element :=
  match path with
  | [] => (p, cur)
  | next :: rest =>
      drag next rest buttons (onpointerdown next buttons (onpointerout cur p))
  end.

(** ** The helper outside the classes *)

(** [removeElement(arr, toRemove)]: the contents of [arr] after the call
    (the array is edited in place and handed back), for elements on which
    [===] is equality (objects, strings, numbers other than [NaN]).
    [findIndex] gives [-1] when nothing matches, and that goes to [splice]
    as it is. *)
Definition removeElement {A} `{EqDecision A} (arr : list A) (toRemove : A)
  : list A :=
  let indexToRemove :=
    match findIndex toRemove arr with
    | Some i => Z.of_nat i
    | None => -1
    end in
  splice indexToRemove 1 [] arr.

(** How many keys row [j] holds; none when there is no such row. *)
Definition keysInRow {B} (rows : list (KeyboardRow B)) (j : nat) : nat :=
  from_option (λ R, length (keys R)) 0%nat (rows !! j).

(** * Facts *)

(** ** Arrays and DOM children *)

Lemma lookupZ_of_nat {A} (l : list A) (i : nat) : lookupZ l (Z.of_nat i) = l !! i.
Proof.
  unfold lookupZ. rewrite bool_decide_eq_false_2 by lia. by rewrite Nat2Z.id.
Qed.

Lemma lookupZ_Some {A} (l : list A) (i : Z) x :
  lookupZ l i = Some x → 0 ≤ i ∧ l !! Z.to_nat i = Some x.
Proof. unfold lookupZ. case_bool_decide; [done|]. intros. split; [lia|done]. Qed.

Lemma splice_delete {A} (l : list A) (i : nat) :
  (i < length l)%nat → splice (Z.of_nat i) 1 [] l = delete i l.
Proof.
  intros Hi. unfold splice. rewrite bool_decide_eq_false_2 by lia.
  rewrite Z.min_l by lia. rewrite Nat2Z.id. simpl.
  rewrite delete_take_drop. by rewrite Nat.add_1_r.
Qed.

Lemma splice_push_front {A} (x : A) (l : list A) : splice 0 0 [x] l = x :: l.
Proof.
  unfold splice. rewrite bool_decide_eq_false_2 by lia.
  rewrite Z.min_l by lia. simpl. by rewrite drop_0.
Qed.

Lemma splice_insert_perm {A} (x : A) (l : list A) (i : Z) :
  splice i 0 [x] l ≡ₚ x :: l.
Proof.
  unfold splice. set (n := Z.to_nat _). rewrite Nat.add_0_r. simpl.
  rewrite <- Permutation_middle. by rewrite take_drop.
Qed.

Lemma splice_last {A} (l : list A) (x : A) :
  splice (Z.of_nat (length (l ++ [x])) - 1) 1 [] (l ++ [x]) = l.
Proof.
  replace (Z.of_nat (length (l ++ [x])) - 1) with (Z.of_nat (length l))
    by (rewrite length_app; simpl; lia).
  rewrite splice_delete by (rewrite length_app; simpl; lia).
  rewrite delete_take_drop, take_app_length.
  rewrite drop_ge by (rewrite length_app; simpl; lia). by rewrite app_nil_r.
Qed.

Lemma list_find_NoDup {A} `{EqDecision A} (l : list A) (i : nat) (x : A) :
  NoDup l → l !! i = Some x → list_find (λ e, e = x) l = Some (i, x).
Proof.
  intros Hnd Hi. apply list_find_Some. split_and!; [done..|].
  intros j y Hj Hlt ->. pose proof (NoDup_lookup _ _ _ _ Hnd Hi Hj). lia.
Qed.

Lemma removeChild_at (children : list Element) (i : nat) (node : Element) :
  NoDup children → children !! i = Some node →
  removeChild node children = Some (delete i children).
Proof.
  intros Hnd Hi. unfold removeChild. by rewrite (list_find_NoDup _ i).
Qed.

Lemma insertBefore_item (children : list Element) (node : Element) (i : Z) :
  ∃ ch, insertBefore node (children_item children i) children = Some ch
        ∧ (i = 0 → ch = node :: children).
Proof.
  unfold insertBefore. destruct (children_item children i) as [r|] eqn:Hr.
  - apply lookupZ_Some in Hr as [Hi Hr].
    destruct (list_find (λ e, e = r) children) as [[j y]|] eqn:Hf.
    + eexists. split; [done|]. intros ->. simpl in Hr.
      apply list_find_Some in Hf as (Hj & -> & Hmin).
      destruct j as [|j]; [by rewrite take_0, drop_0|].
      exfalso. apply (Hmin 0%nat r); [done | lia | done].
    + apply list_find_None in Hf. rewrite Forall_forall in Hf.
      exfalso. eapply Hf; [|done]. by eapply list_elem_of_lookup_2.
  - eexists. split; [done|]. intros ->.
    unfold children_item, lookupZ in Hr. simpl in Hr.
    destruct children; [done|discriminate].
Qed.

(** ** Running monadic code *)

Lemma bind_Normal {B A C} (c : M B A) (k : A → M B C) m a m' :
  c m = (Normal a, m') → bind c k m = k a m'.
Proof. unfold bind. by intros ->. Qed.

Lemma getRow_run {B} (rows : list (KeyboardRow B)) t (i : nat) R :
  rows !! i = Some R →
  getRow (Z.of_nat i) (mkMachine rows t) = (Normal R, mkMachine rows t).
Proof. intros H. unfold getRow. cbn. by rewrite lookupZ_of_nat, H. Qed.

Tactic Notation "mrun" tactic3(tac) :=
  lazymatch goal with
  | |- bind ?c ?k ?m = _ =>
      let H := fresh "Hrun" in
      eassert (c m = (Normal _, _)) as H by tac;
      rewrite (bind_Normal c k m _ _ H); clear H;
      cbn [keyRows trace rowEl keys defaultRowWidth]
  end.

(** ** [moveKey] on a mirrored row *)

Section EngineFacts.
Context {B : Type}.
Implicit Types (rows : list (KeyboardRow B)) (R T : KeyboardRow B).
Implicit Types (k x : Key) (t : list Event).

Lemma moveKey_spec rows t k (fr fc tr : nat) (tc : Z) R :
  rows !! fr = Some R →
  rowEl R = keyEl <$> keys R →
  NoDup (rowEl R) →
  keys R !! fc = Some k →
  (tr < length rows)%nat →
  ∃ T ch,
    <[fr := without fc R]> rows !! tr = Some T
    ∧ moveKey (Some k) (Z.of_nat fr) (Z.of_nat fc) (Z.of_nat tr) tc
        (mkMachine rows t)
      = (Normal tt,
         mkMachine
           (<[tr := mkRow ch (splice tc 0 [k] (keys T)) (defaultRowWidth T)]>
              (<[fr := without fc R]> rows))
           (t ++ [MoveKeyCall (Some k) (Z.of_nat fr) (Z.of_nat fc)
                    (Z.of_nat tr) tc]))
    ∧ (tc = 0 → ch = keyEl k :: rowEl T).
Proof.
  intros HR Hmir Hnd Hk Htr.
  assert (Hfr : (fr < length rows)%nat) by (by eapply lookup_lt_Some).
  assert (Hel : rowEl R !! fc = Some (keyEl k)).
  { rewrite Hmir, list_lookup_fmap, Hk. done. }
  destruct (lookup_lt_is_Some_2 (<[fr := without fc R]> rows) tr) as [T HT].
  { by rewrite length_insert. }
  destruct (insertBefore_item (rowEl T) (keyEl k) tc) as (ch & Hch & Hch0).
  exists T, ch. split_and!; [done| |done].
  unfold moveKey, children_item.
  mrun reflexivity.
  mrun (by apply getRow_run).
  mrun reflexivity.
  rewrite lookupZ_of_nat, Hel, decide_True by done.
  mrun reflexivity.
  mrun (by apply getRow_run).
  rewrite (removeChild_at _ fc) by done.
  mrun reflexivity. rewrite Nat2Z.id.
  mrun (apply getRow_run; by apply list_lookup_insert_eq).
  mrun reflexivity. rewrite Nat2Z.id, list_insert_insert_eq.
  rewrite splice_delete by (by eapply lookup_lt_Some). fold (without fc R).
  mrun (by apply getRow_run).
  unfold children_item in Hch. rewrite Hch.
  mrun reflexivity. rewrite Nat2Z.id.
  mrun (apply getRow_run; apply list_lookup_insert_eq;
        by rewrite length_insert).
  unfold setRow. cbn [keyRows trace rowEl keys defaultRowWidth].
  by rewrite Nat2Z.id, list_insert_insert_eq.
Qed.

Lemma insert_as_alter {A} (f : A → A) (l : list A) (i : nat) (x : A) :
  l !! i = Some x → <[i := f x]> l = alter f i l.
Proof.
  intros Hx. apply list_eq. intros j. rewrite list_lookup_alter.
  destruct (decide (i = j)) as [<-|].
  - rewrite list_lookup_insert_eq by (by eapply lookup_lt_Some). by rewrite Hx.
  - by rewrite list_lookup_insert_ne.
Qed.

(** *** The keys of a layout *)

Lemma allKeys_split rows i R :
  rows !! i = Some R →
  allKeys rows = allKeys (take i rows) ++ keys R ++ allKeys (drop (S i) rows).
Proof.
  intros HR. rewrite <- (take_drop_middle rows i R HR) at 1.
  unfold allKeys. by rewrite fmap_app, concat_app, fmap_cons.
Qed.

Lemma allKeys_insert rows i R' :
  (i < length rows)%nat →
  allKeys (<[i := R']> rows)
  = allKeys (take i rows) ++ keys R' ++ allKeys (drop (S i) rows).
Proof.
  intros Hi. rewrite insert_take_drop by done.
  unfold allKeys. by rewrite fmap_app, concat_app, fmap_cons.
Qed.

Lemma allKeys_insert_less rows i R R' k :
  rows !! i = Some R → keys R ≡ₚ k :: keys R' →
  allKeys rows ≡ₚ k :: allKeys (<[i := R']> rows).
Proof.
  intros HR Hp. rewrite (allKeys_split _ _ _ HR).
  rewrite allKeys_insert by (by eapply lookup_lt_Some).
  rewrite Hp, <- app_comm_cons. by rewrite <- Permutation_middle.
Qed.

Lemma allKeys_insert_more rows i T T' k :
  rows !! i = Some T → keys T' ≡ₚ k :: keys T →
  allKeys (<[i := T']> rows) ≡ₚ k :: allKeys rows.
Proof.
  intros HT Hp. assert (Hi : (i < length rows)%nat) by (by eapply lookup_lt_Some).
  rewrite (allKeys_insert_less (<[i := T']> rows) i T' T k);
    [|by apply list_lookup_insert_eq|done].
  by rewrite list_insert_insert_eq, list_insert_id.
Qed.

Lemma elem_of_allKeys rows k :
  k ∈ allKeys rows ↔ ∃ i R, rows !! i = Some R ∧ k ∈ keys R.
Proof.
  unfold allKeys. rewrite list_elem_of_In, in_concat. split.
  - intros (l & Hl & Hk). apply list_elem_of_In in Hl, Hk.
    apply list_elem_of_fmap in Hl as (R & -> & HR).
    apply list_elem_of_lookup in HR as [i Hi]. eauto.
  - intros (i & R & Hi & Hk). exists (keys R).
    rewrite <- !list_elem_of_In. split; [|done].
    apply list_elem_of_fmap. exists R. split; [done|].
    by eapply list_elem_of_lookup_2.
Qed.

Lemma mirrored_elements rows :
  mirrored rows → concat (rowEl <$> rows) = keyEl <$> allKeys rows.
Proof.
  unfold mirrored, allKeys. induction 1 as [|R rows HR _ IH]; [done|].
  rewrite !fmap_cons. simpl. by rewrite fmap_app, HR, IH.
Qed.

Lemma distinct_row rows i R :
  distinct rows → rows !! i = Some R → NoDup (keyEl <$> keys R).
Proof.
  unfold distinct. intros Hnd HR. rewrite (allKeys_split _ _ _ HR) in Hnd.
  rewrite !fmap_app in Hnd. apply NoDup_app in Hnd as (_ & _ & Hnd).
  by apply NoDup_app in Hnd as (Hnd & _).
Qed.

Lemma wellFormed_row rows i R :
  wellFormed rows → rows !! i = Some R →
  rowEl R = keyEl <$> keys R ∧ NoDup (rowEl R).
Proof.
  intros [Hm Hd] HR. unfold mirrored in Hm. rewrite Forall_lookup in Hm.
  pose proof (Hm _ _ HR) as Hmir. split; [done|].
  rewrite Hmir. by eapply distinct_row.
Qed.

(** *** [moveKey] under its precondition *)

(** Wherever the key is put back, the move keeps the keys of the layout. *)
Lemma moveKey_anywhere rows t k (fr fc tr : nat) (tc : Z) R :
  wellFormed rows →
  rows !! fr = Some R →
  keys R !! fc = Some k →
  (tr < length rows)%nat →
  ∃ rows',
    moveKey (Some k) (Z.of_nat fr) (Z.of_nat fc) (Z.of_nat tr) tc
      (mkMachine rows t)
    = (Normal tt,
       mkMachine rows'
         (t ++ [MoveKeyCall (Some k) (Z.of_nat fr) (Z.of_nat fc)
                  (Z.of_nat tr) tc]))
    ∧ allKeys rows' ≡ₚ allKeys rows
    ∧ length rows' = length rows.
Proof.
  intros Hwf HR Hk Htr.
  destruct (wellFormed_row _ _ _ Hwf HR) as [Hmir Hnd].
  destruct (moveKey_spec rows t k fr fc tr tc R HR Hmir Hnd Hk Htr)
    as (T & ch & HT & Hrun & _).
  eexists. split_and!; [exact Hrun| |by rewrite !length_insert].
  rewrite (allKeys_insert_more _ _ T _ k); [|done|apply splice_insert_perm].
  symmetry. apply (allKeys_insert_less _ _ R); [done|].
  simpl. by apply delete_Permutation.
Qed.

(** Put back at column 0, the key lands in front and the DOM follows. *)
Lemma moveKey_front rows t k (fr fc tr : nat) R :
  wellFormed rows →
  rows !! fr = Some R →
  keys R !! fc = Some k →
  (tr < length rows)%nat →
  moveKey (Some k) (Z.of_nat fr) (Z.of_nat fc) (Z.of_nat tr) 0
    (mkMachine rows t)
  = (Normal tt,
     mkMachine (moved k fr fc tr rows)
       (t ++ [MoveKeyCall (Some k) (Z.of_nat fr) (Z.of_nat fc)
                (Z.of_nat tr) 0])).
Proof.
  intros Hwf HR Hk Htr.
  destruct (wellFormed_row _ _ _ Hwf HR) as [Hmir Hnd].
  destruct (moveKey_spec rows t k fr fc tr 0 R HR Hmir Hnd Hk Htr)
    as (T & ch & HT & Hrun & Hch).
  rewrite Hrun, (Hch eq_refl), splice_push_front. do 2 f_equal.
  unfold moved. fold (withFront k T).
  rewrite (insert_as_alter (without fc) rows fr R HR) in HT |- *.
  by apply insert_as_alter.
Qed.

Lemma moved_length k fr fc tr rows :
  length (moved k fr fc tr rows) = length rows.
Proof. unfold moved. by rewrite !length_alter. Qed.

Lemma moved_budgets k fr fc tr rows :
  defaultRowWidth <$> moved k fr fc tr rows = defaultRowWidth <$> rows.
Proof.
  unfold moved.
  rewrite (list_fmap_alter _ _ id), list_alter_id by (done || by apply Forall_true).
  by rewrite (list_fmap_alter _ _ id), list_alter_id by (done || by apply Forall_true).
Qed.

Lemma moved_allKeys k fr fc tr rows R :
  rows !! fr = Some R → keys R !! fc = Some k → (tr < length rows)%nat →
  allKeys (moved k fr fc tr rows) ≡ₚ allKeys rows.
Proof.
  intros HR Hk Htr. unfold moved.
  destruct (lookup_lt_is_Some_2 (alter (without fc) fr rows) tr) as [T HT].
  { by rewrite length_alter. }
  rewrite <- (insert_as_alter (withFront k) _ _ _ HT).
  rewrite (allKeys_insert_more _ _ T _ k); [|done|done].
  rewrite <- (insert_as_alter (without fc) _ _ _ HR).
  symmetry. apply (allKeys_insert_less _ _ R); [done|].
  simpl. by apply delete_Permutation.
Qed.

Lemma moved_wellFormed k fr fc tr rows R :
  wellFormed rows →
  rows !! fr = Some R → keys R !! fc = Some k → (tr < length rows)%nat →
  wellFormed (moved k fr fc tr rows).
Proof.
  intros [Hm Hd] HR Hk Htr. split.
  - unfold mirrored, moved in *. apply Forall_alter.
    + apply Forall_alter; [done|]. intros x _ Hx. simpl.
      by rewrite Hx, list_fmap_delete.
    + intros x _ Hx. simpl. by rewrite Hx.
  - unfold distinct in *. by rewrite (moved_allKeys k fr fc tr rows R).
Qed.

Lemma moved_lookup_other k fr fc tr rows j :
  j ≠ fr → j ≠ tr → moved k fr fc tr rows !! j = rows !! j.
Proof. intros. unfold moved. by rewrite !list_lookup_alter_ne. Qed.

Lemma moved_lookup_from k fr fc tr rows :
  fr ≠ tr → moved k fr fc tr rows !! fr = without fc <$> rows !! fr.
Proof.
  intros. unfold moved. by rewrite list_lookup_alter_ne, list_lookup_alter_eq.
Qed.

Lemma moved_lookup_to k fr fc tr rows :
  fr ≠ tr → moved k fr fc tr rows !! tr = withFront k <$> rows !! tr.
Proof.
  intros. unfold moved. by rewrite list_lookup_alter_eq, list_lookup_alter_ne.
Qed.

Lemma moved_lookup_same k r fc rows :
  moved k r fc r rows !! r = withFront k <$> (without fc <$> rows !! r).
Proof. unfold moved. by rewrite !list_lookup_alter_eq. Qed.

(** *** [getKeyPos] *)

Lemma findIndex_Some k (l : list Key) c :
  findIndex k l = Some c → l !! c = Some k.
Proof.
  unfold findIndex. destruct (list_find _ l) as [[j y]|] eqn:Hf; [|done].
  intros [= <-]. by apply list_find_Some in Hf as (Hj & -> & _).
Qed.

Lemma findIndex_None k (l : list Key) : findIndex k l = None ↔ k ∉ l.
Proof.
  unfold findIndex. rewrite fmap_None, list_find_None, Forall_forall.
  split; [intros H Hk; by apply (H k)|intros H x Hx ->; done].
Qed.

Lemma findIndex_head k (l : list Key) : findIndex k (k :: l) = Some 0%nat.
Proof. unfold findIndex. simpl. by rewrite decide_True. Qed.

Lemma scanRows_Some n rows k r c :
  scanRows n rows k = Some (r, c) →
  ∃ R, (n ≤ r)%nat ∧ rows !! (r - n)%nat = Some R ∧ keys R !! c = Some k.
Proof.
  revert n. induction rows as [|R rows IH]; intros n; [done|]. simpl.
  destruct (findIndex k (keys R)) as [j|] eqn:Hf.
  - intros [= <- <-]. exists R. rewrite Nat.sub_diag.
    split_and!; [lia|done|by apply findIndex_Some].
  - intros H. apply IH in H as (R' & Hn & HR' & Hk). exists R'.
    split_and!; [lia| |done].
    by replace (r - n)%nat with (S (r - S n)) by lia.
Qed.

Lemma scanRows_None n rows k : scanRows n rows k = None ↔ k ∉ allKeys rows.
Proof.
  revert n. induction rows as [|R rows IH]; intros n; simpl.
  - split; [intros _; apply not_elem_of_nil|done].
  - unfold allKeys. rewrite fmap_cons. simpl. rewrite not_elem_of_app.
    destruct (findIndex k (keys R)) as [j|] eqn:Hf.
    + split; [done|]. intros [Hk _]. apply findIndex_None in Hk. congruence.
    + rewrite IH. apply findIndex_None in Hf. unfold allKeys. tauto.
Qed.

Lemma scanRows_front rows R k l :
  rows !! 0%nat = Some R → keys R = k :: l → scanRows 0 rows k = Some (0, 0)%nat.
Proof.
  destruct rows as [|R' rows]; [done|]. intros [= ->] Hk. simpl.
  by rewrite Hk, findIndex_head.
Qed.

Lemma getKeyPos_found rows t k pos :
  scanRows 0 rows k = Some pos →
  getKeyPos k (mkMachine rows t) = (Normal (Some pos), mkMachine rows t).
Proof. intros H. unfold getKeyPos. cbn. by rewrite H. Qed.

Lemma getKeyPos_missing rows t k :
  scanRows 0 rows k = None →
  getKeyPos k (mkMachine rows t)
  = (Normal None, mkMachine rows (t ++ [ConsoleError k])).
Proof. intros H. unfold getKeyPos. cbn. by rewrite H. Qed.

(** *** The animation step *)

Lemma animateFlexItems_ok (old new : list Element) (m : Machine B) :
  new ⊆ old → animateFlexItems old new m = (Normal tt, m).
Proof.
  induction new as [|e new IH]; intros Hsub; [done|]. simpl.
  destruct (list_find (λ e0, e0 = e) old) as [p|] eqn:Hf.
  - apply IH. intros x Hx. apply Hsub. by right.
  - apply list_find_None in Hf. rewrite Forall_forall in Hf.
    exfalso. apply (Hf e); [|done]. apply Hsub. by left.
Qed.

Lemma animate_after rows rows' t :
  mirrored rows → mirrored rows' → allKeys rows' ≡ₚ allKeys rows →
  animateFlexItems (concat (rowEl <$> rows)) (concat (rowEl <$> rows'))
    (mkMachine rows' t)
  = (Normal tt, mkMachine rows' t).
Proof.
  intros Hm Hm' Hp. apply animateFlexItems_ok.
  rewrite !mirrored_elements by done. intros e. by rewrite Hp.
Qed.

(** *** Shedding the last key of a row *)

Lemma last_lookup_length {A} (l : list A) (x : A) :
  last l = Some x → l !! (length l - 1)%nat = Some x.
Proof. rewrite last_lookup. by replace (pred (length l)) with (length l - 1)%nat by lia. Qed.

Lemma shedLast_spec rows t i R :
  wellFormed rows →
  rows !! i = Some R → keys R ≠ [] → (S i < length rows)%nat →
  shedLast (Z.of_nat i) (mkMachine rows t)
  = (Normal tt, mkMachine (shedPure i rows) (t ++ shedCall i rows)).
Proof.
  intros Hwf HR Hne Hi. unfold shedLast, shedPure, shedCall.
  mrun (by apply getRow_run). rewrite HR.
  destruct (last (keys R)) as [x|] eqn:Hlast;
    [|by apply last_None in Hlast].
  pose proof (last_lookup_length _ _ Hlast) as Hx.
  assert (0 < length (keys R))%nat by (destruct (keys R); simpl; [done|lia]).
  replace (Z.of_nat (length (keys R)) - 1)
    with (Z.of_nat (length (keys R) - 1)) by lia.
  replace (Z.of_nat i + 1) with (Z.of_nat (S i)) by lia.
  rewrite lookupZ_of_nat, Hx. by eapply moveKey_front.
Qed.

Lemma shedPure_props rows i R :
  wellFormed rows →
  rows !! i = Some R → keys R ≠ [] → (S i < length rows)%nat →
  wellFormed (shedPure i rows)
  ∧ allKeys (shedPure i rows) ≡ₚ allKeys rows
  ∧ length (shedPure i rows) = length rows
  ∧ defaultRowWidth <$> shedPure i rows = defaultRowWidth <$> rows
  ∧ (∀ j, j ≠ i → j ≠ S i → shedPure i rows !! j = rows !! j)
  ∧ ∃ x ks T,
      keys R = ks ++ [x] ∧ rows !! S i = Some T
      ∧ shedPure i rows !! i = Some (mkRow (keyEl <$> ks) ks (defaultRowWidth R))
      ∧ shedPure i rows !! S i = Some (withFront x T).
Proof.
  intros Hwf HR Hne Hi. unfold shedPure. rewrite HR.
  destruct (last (keys R)) as [x|] eqn:Hlast;
    [|by apply last_None in Hlast].
  pose proof (last_lookup_length _ _ Hlast) as Hx.
  split_and!.
  - by eapply moved_wellFormed.
  - by eapply moved_allKeys.
  - apply moved_length.
  - apply moved_budgets.
  - intros j ??. by apply moved_lookup_other.
  - apply last_Some in Hlast as [ks Hks].
    destruct (lookup_lt_is_Some_2 rows (S i) Hi) as [T HT].
    exists x, ks, T. split_and!; [done..| |].
    + rewrite moved_lookup_from, HR by lia. simpl. f_equal. unfold without.
      destruct (wellFormed_row _ _ _ Hwf HR) as [-> _].
      rewrite <- list_fmap_delete. rewrite Hks, length_app. simpl.
      replace (length ks + 1 - 1)%nat with (length ks) by lia.
      assert (delete (length ks) (ks ++ [x]) = ks) as ->; [|done].
      rewrite delete_take_drop, take_app_length.
      rewrite drop_ge by (rewrite length_app; simpl; lia). by rewrite app_nil_r.
    + by rewrite moved_lookup_to, HT by lia.
Qed.

(** *** The loop of the row-count reflow *)

Lemma shedPure_length rows i : length (shedPure i rows) = length rows.
Proof.
  unfold shedPure. destruct (rows !! i) as [R|]; [|done].
  destruct (last (keys R)); [apply moved_length|done].
Qed.

Lemma forLoop_shed n : ∀ i rows t,
  wellFormed rows →
  (i + n < length rows)%nat →
  (∃ R, rows !! i = Some R ∧ keys R ≠ []) →
  forLoop n (Z.of_nat i) shedLast (mkMachine rows t)
  = (Normal tt, mkMachine (shiftDown n i rows) (t ++ shiftCalls n i rows))
  ∧ wellFormed (shiftDown n i rows)
  ∧ allKeys (shiftDown n i rows) ≡ₚ allKeys rows
  ∧ length (shiftDown n i rows) = length rows
  ∧ defaultRowWidth <$> shiftDown n i rows = defaultRowWidth <$> rows
  ∧ (∀ j, (j < i)%nat → shiftDown n i rows !! j = rows !! j)
  ∧ (∀ j, (i + n < j)%nat → shiftDown n i rows !! j = rows !! j)
  ∧ (∃ R, shiftDown n i rows !! (i + n)%nat = Some R ∧ keys R ≠ []).
Proof.
  induction n as [|n IH]; intros i rows t Hwf Hlen Hne.
  { simpl. rewrite app_nil_r, Nat.add_0_r. by split_and!. }
  destruct Hne as (R & HR & Hne).
  destruct (shedPure_props rows i R Hwf HR Hne ltac:(lia))
    as (Hwf1 & Hp1 & Hl1 & Hb1 & Ho1 & x & ks & T & Hks & HT & Hi1 & HSi1).
  destruct (IH (S i) (shedPure i rows) (t ++ shedCall i rows) Hwf1)
    as (Hrun & Hwf2 & Hp2 & Hl2 & Hb2 & Hlo2 & Hhi2 & Hnext).
  { rewrite Hl1. lia. }
  { eexists. split; [exact HSi1|done]. }
  cbn [forLoop shiftDown shiftCalls]. split_and!; [|done| | | | | |].
  - mrun (by eapply shedLast_spec; [..|lia]).
    replace (Z.of_nat i + 1) with (Z.of_nat (S i)) by lia.
    by rewrite Hrun, <- app_assoc.
  - by rewrite Hp2.
  - by rewrite Hl2.
  - by rewrite Hb2.
  - intros j Hj. rewrite Hlo2 by lia. apply Ho1; lia.
  - intros j Hj. rewrite Hhi2 by lia. apply Ho1; lia.
  - by replace (i + S n)%nat with (S i + n)%nat by lia.
Qed.

Lemma shiftCalls_length n : ∀ i rows,
  (i + n ≤ length rows)%nat → length (shiftCalls n i rows) = n.
Proof.
  induction n as [|n IH]; intros i rows Hlen; [done|]. cbn [shiftCalls].
  rewrite length_app, IH by (rewrite shedPure_length; lia).
  unfold shedCall.
  destruct (lookup_lt_is_Some_2 rows i ltac:(lia)) as [R ->]. done.
Qed.

(** The [j]-th shed is the one made on the layout that [j] sheds leave. *)
Lemma shiftCalls_lookup n : ∀ i rows j,
  (i + n ≤ length rows)%nat → (j < n)%nat →
  shiftCalls n i rows !! j = shedCall (i + j) (shiftDown j i rows) !! 0%nat.
Proof.
  induction n as [|n IH]; intros i rows j Hlen Hj; [lia|]. cbn [shiftCalls].
  destruct (lookup_lt_is_Some_2 rows i ltac:(lia)) as [R HR].
  assert (Hone : length (shedCall i rows) = 1%nat)
    by (unfold shedCall; by rewrite HR).
  destruct j as [|j].
  - rewrite lookup_app_l by lia. by rewrite Nat.add_0_r.
  - rewrite lookup_app_r by lia. rewrite Hone. simpl. rewrite Nat.sub_0_r.
    rewrite IH by (rewrite ?shedPure_length; lia).
    by replace (i + S j)%nat with (S i + j)%nat by lia.
Qed.

Lemma moved_front k fr fc rows :
  (0 < length rows)%nat →
  ∃ T, moved k fr fc 0 rows !! 0%nat = Some (withFront k T).
Proof.
  intros Hlen. unfold moved. rewrite list_lookup_alter_eq.
  destruct (lookup_lt_is_Some_2 (alter (without fc) fr rows) 0) as [T HT].
  { by rewrite length_alter. }
  exists T. by rewrite HT.
Qed.

(** The key in the top-left slot survives the shifts when it is not alone
    in its row. *)
Lemma shiftDown_head n rows R k l :
  wellFormed rows →
  (n < length rows)%nat →
  rows !! 0%nat = Some R → keys R = k :: l → (n = 0%nat ∨ l ≠ []) →
  ∃ R' l', shiftDown n 0 rows !! 0%nat = Some R' ∧ keys R' = k :: l'.
Proof.
  intros Hwf Hlen HR Hk Hl. destruct n as [|n]; [simpl; eauto|].
  destruct Hl as [|Hl]; [done|]. simpl.
  destruct (shedPure_props rows 0 R Hwf HR ltac:(by rewrite Hk) ltac:(lia))
    as (Hwf1 & Hp1 & Hl1 & Hb1 & Ho1 & x & ks & T & Hks & HT & Hi1 & HSi1).
  destruct (forLoop_shed n 1 (shedPure 0 rows) [] Hwf1)
    as (_ & _ & _ & _ & _ & Hlo & _).
  { rewrite Hl1. lia. }
  { eexists. split; [exact HSi1|done]. }
  rewrite Hlo, Hi1 by lia. eexists _, (removelast l). split; [done|]. simpl.
  rewrite Hk in Hks. destruct ks as [|k' ks].
  - simpl in Hks. injection Hks as -> ->. done.
  - simpl in Hks. injection Hks as -> ->. f_equal.
    by rewrite removelast_last.
Qed.

(** *** [getKey] and slots *)

Lemma getKey_JKey rows (row col : Z) k :
  getKey rows row col = JKey k ↔
  0 ≤ row ∧ 0 ≤ col
  ∧ ∃ R, rows !! Z.to_nat row = Some R ∧ keys R !! Z.to_nat col = Some k.
Proof.
  unfold getKey, KeyboardRow_length, js_ge, lookupZ.
  rewrite orb_false_r. split.
  - intros H. repeat case_bool_decide; simpl in H; try done;
      destruct (rows !! Z.to_nat row) as [R|] eqn:HR; try done;
      destruct (keys R !! Z.to_nat col) as [k'|] eqn:Hk; try done.
    injection H as ->. split_and!; [lia..|eauto].
  - intros (Hr & Hc & R & HR & Hk).
    assert (Z.to_nat row < length rows)%nat by (by eapply lookup_lt_Some).
    rewrite !bool_decide_eq_false_2 by lia. simpl. by rewrite HR, Hk.
Qed.

Lemma slot_unique rows : ∀ r c r' c' R R' k,
  NoDup (allKeys rows) →
  rows !! r = Some R → keys R !! c = Some k →
  rows !! r' = Some R' → keys R' !! c' = Some k →
  r = r' ∧ c = c'.
Proof.
  induction rows as [|R0 rows IH]; intros r c r' c' R R' k Hnd; [done|].
  unfold allKeys in Hnd. rewrite fmap_cons in Hnd. simpl in Hnd.
  apply NoDup_app in Hnd as (Hnd0 & Hdisj & Hnd').
  destruct r as [|r], r' as [|r']; simpl; intros HR Hk HR' Hk'.
  - simplify_eq. split; [done|]. exact (NoDup_lookup _ _ _ _ Hnd0 Hk Hk').
  - simplify_eq. exfalso. apply (Hdisj k); [by eapply list_elem_of_lookup_2|].
    apply elem_of_allKeys. exists r', R'. split; [done|].
    by eapply list_elem_of_lookup_2.
  - simplify_eq. exfalso. apply (Hdisj k); [by eapply list_elem_of_lookup_2|].
    apply elem_of_allKeys. exists r, R. split; [done|].
    by eapply list_elem_of_lookup_2.
  - destruct (IH r c r' c' R R' k Hnd' HR Hk HR' Hk') as [-> ->]. done.
Qed.

Lemma distinct_NoDup rows : distinct rows → NoDup (allKeys rows).
Proof. unfold distinct. apply NoDup_fmap_1. Qed.

Lemma wellFormed_partitioned rows0 rows :
  wellFormed rows → allKeys rows ≡ₚ allKeys rows0 → partitioned rows0 rows.
Proof.
  intros [_ Hd] Hp. pose proof (distinct_NoDup _ Hd) as Hnd.
  split_and!; [done..|]. intros k r c r' c' H1 H2.
  apply getKey_JKey in H1 as (? & ? & R & HR & Hk).
  apply getKey_JKey in H2 as (? & ? & R' & HR' & Hk').
  destruct (slot_unique rows _ _ _ _ R R' k Hnd HR Hk HR' Hk'). lia.
Qed.

(** Taking the top-left key out and putting it back changes nothing. *)
Lemma moved_top_left rows R k :
  mirrored rows → rows !! 0%nat = Some R → keys R !! 0%nat = Some k →
  moved k 0 0 0 rows = rows.
Proof.
  intros Hm HR Hk. unfold moved. rewrite list_alter_alter_eq.
  rewrite <- (insert_as_alter _ _ _ _ HR). apply list_insert_id.
  rewrite HR. f_equal. unfold mirrored in Hm. rewrite Forall_lookup in Hm.
  pose proof (Hm _ _ HR) as Hmir. destruct R as [els ks b]. simpl in *.
  destruct ks as [|k' ks]; simplify_eq/=. done.
Qed.

End EngineFacts.

(** ** [autosort.js]: what a press does *)

Section AutosortFacts.
Context {B : Type}.
Implicit Types (rows : list (KeyboardRow B)) (R T : KeyboardRow B).
Implicit Types (k x : Key) (t : list Event).

Lemma autosort_run rows t k oldRow oldCol :
  wellFormed rows →
  scanRows 0 rows k = Some (oldRow, oldCol) →
  let rows1 := moved k oldRow oldCol 0 rows in
  Autosort.sortKeys k (mkMachine rows t)
  = (Normal tt,
     mkMachine (shiftDown oldRow 0 rows1)
       (t ++ MoveKeyCall (Some k) (Z.of_nat oldRow) (Z.of_nat oldCol) 0 0
          :: shiftCalls oldRow 0 rows1))
  ∧ wellFormed (shiftDown oldRow 0 rows1)
  ∧ allKeys (shiftDown oldRow 0 rows1) ≡ₚ allKeys rows
  ∧ length (shiftDown oldRow 0 rows1) = length rows
  ∧ defaultRowWidth <$> shiftDown oldRow 0 rows1 = defaultRowWidth <$> rows.
Proof.
  intros Hwf Hscan rows1.
  destruct (scanRows_Some _ _ _ _ _ Hscan) as (R & _ & HR & Hk).
  rewrite Nat.sub_0_r in HR.
  assert (HlenR : (oldRow < length rows)%nat) by (by eapply lookup_lt_Some).
  assert (Hwf1 : wellFormed rows1) by (eapply moved_wellFormed; [done..|lia]).
  assert (Hp1 : allKeys rows1 ≡ₚ allKeys rows)
    by (eapply moved_allKeys; [done..|lia]).
  destruct (moved_front k oldRow oldCol rows ltac:(lia)) as [T HT].
  destruct (forLoop_shed oldRow 0 rows1
              (t ++ [MoveKeyCall (Some k) (Z.of_nat oldRow) (Z.of_nat oldCol) 0 0])
              Hwf1)
    as (Hrun & Hwf2 & Hp2 & Hl2 & Hb2 & _).
  { unfold rows1. rewrite moved_length. lia. }
  { eexists. split; [exact HT|done]. }
  cbn [Z.of_nat] in Hrun. subst rows1.
  split_and!; [|done|by rewrite Hp2| |].
  - unfold Autosort.sortKeys.
    mrun (by apply getKeyPos_found).
    mrun reflexivity.
    mrun (apply (moveKey_front rows t k oldRow oldCol 0%nat R); [done..|lia]).
    mrun (exact Hrun).
    mrun reflexivity. rewrite <- app_assoc. simpl.
    apply animate_after; [apply Hwf|apply Hwf2|by rewrite Hp2].
  - by rewrite Hl2, moved_length.
  - by rewrite Hb2, moved_budgets.
Qed.

(** An absent key: the lookup fails, the destructuring throws, nothing
    moves. *)
Lemma autosort_missing rows t k :
  k ∉ allKeys rows →
  Autosort.sortKeys k (mkMachine rows t)
  = (Throw TypeError, mkMachine rows (t ++ [ConsoleError k])).
Proof.
  intros Hk. apply (scanRows_None 0) in Hk. unfold Autosort.sortKeys.
  by mrun (by apply getKeyPos_missing).
Qed.

Lemma autosort_top_left rows t k oldRow oldCol R0 :
  wellFormed rows →
  scanRows 0 rows k = Some (oldRow, oldCol) →
  rows !! 0%nat = Some R0 → keys R0 ≠ [] →
  ∃ rows' t',
    Autosort.sortKeys k (mkMachine rows t) = (Normal tt, mkMachine rows' t')
    ∧ scanRows 0 rows' k = Some (0, 0)%nat.
Proof.
  intros Hwf Hscan HR0 Hne.
  destruct (autosort_run rows t k oldRow oldCol Hwf Hscan) as (Hrun & _).
  eexists _, _. split; [exact Hrun|].
  destruct (scanRows_Some _ _ _ _ _ Hscan) as (R & _ & HR & Hk).
  rewrite Nat.sub_0_r in HR.
  assert (HlenR : (oldRow < length rows)%nat) by (by eapply lookup_lt_Some).
  assert (∃ R1 l, moved k oldRow oldCol 0 rows !! 0%nat = Some R1
                  ∧ keys R1 = k :: l ∧ (oldRow = 0%nat ∨ l ≠ []))
    as (R1 & l & HR1 & Hk1 & Hl).
  { destruct (decide (oldRow = 0%nat)) as [->|Hne0].
    - rewrite moved_lookup_same, HR. simpl. eexists _, _. by split_and!; [..|left].
    - rewrite moved_lookup_to, HR0 by done. simpl.
      eexists _, _. by split_and!; [..|right]. }
  destruct (shiftDown_head oldRow (moved k oldRow oldCol 0 rows) R1 k l)
    as (R' & l' & HR' & Hk');
    [eapply moved_wellFormed; [done..|lia]|by rewrite moved_length| | | |].
  - done.
  - done.
  - destruct Hl; [by left|by right].
  - by eapply scanRows_front.
Qed.

(** Pressing the key that already sits top-left. *)
Lemma autosort_repress rows t k :
  wellFormed rows → getKey rows 0 0 = JKey k →
  Autosort.sortKeys k (mkMachine rows t)
  = (Normal tt, mkMachine rows (t ++ [MoveKeyCall (Some k) 0 0 0 0])).
Proof.
  intros Hwf Hk. apply getKey_JKey in Hk as (_ & _ & R & HR & Hk).
  simpl in HR, Hk.
  assert (Hscan : scanRows 0 rows k = Some (0, 0)%nat).
  { destruct (keys R) as [|k' l] eqn:HkR; simplify_eq/=.
    by eapply scanRows_front. }
  destruct (autosort_run rows t k 0 0 Hwf Hscan) as (Hrun & _).
  rewrite Hrun. cbn [shiftDown shiftCalls Z.of_nat].
  by rewrite (moved_top_left rows R k) by (done || apply Hwf).
Qed.

(** The calls of [moveKey] that one press makes. *)
Lemma autosort_calls rows t k oldRow oldCol :
  wellFormed rows →
  scanRows 0 rows k = Some (oldRow, oldCol) →
  ∃ rows' calls,
    Autosort.sortKeys k (mkMachine rows t)
    = (Normal tt,
       mkMachine rows'
         (t ++ MoveKeyCall (Some k) (Z.of_nat oldRow) (Z.of_nat oldCol) 0 0
            :: calls))
    ∧ length calls = oldRow
    ∧ ∀ i, (i < oldRow)%nat →
        ∃ rowsi ti R x,
          (moveKey (Some k) (Z.of_nat oldRow) (Z.of_nat oldCol) 0 0 >>
           forLoop i 0 shedLast) (mkMachine rows t)
          = (Normal tt, mkMachine rowsi ti)
          ∧ rowsi !! i = Some R
          ∧ last (keys R) = Some x
          ∧ calls !! i
            = Some (MoveKeyCall (Some x) (Z.of_nat i)
                      (Z.of_nat (length (keys R)) - 1) (Z.of_nat i + 1) 0).
Proof.
  intros Hwf Hscan.
  destruct (autosort_run rows t k oldRow oldCol Hwf Hscan) as (Hrun & _).
  destruct (scanRows_Some _ _ _ _ _ Hscan) as (R & _ & HR & Hk).
  rewrite Nat.sub_0_r in HR.
  assert (HlenR : (oldRow < length rows)%nat) by (by eapply lookup_lt_Some).
  set (rows1 := moved k oldRow oldCol 0 rows) in *.
  assert (Hwf1 : wellFormed rows1) by (eapply moved_wellFormed; [done..|lia]).
  assert (Hl1 : length rows1 = length rows) by apply moved_length.
  destruct (moved_front k oldRow oldCol rows ltac:(lia)) as [T HT].
  fold rows1 in HT.
  eexists _, _. split_and!; [exact Hrun|apply shiftCalls_length; lia|].
  intros i Hi.
  destruct (forLoop_shed i 0 rows1
              (t ++ [MoveKeyCall (Some k) (Z.of_nat oldRow) (Z.of_nat oldCol) 0 0])
              Hwf1)
    as (Hruni & _ & _ & _ & _ & _ & _ & Ri & HRi & Hnei).
  { lia. }
  { eexists. split; [exact HT|done]. }
  cbn [Z.of_nat] in Hruni. simpl in HRi.
  destruct (last (keys Ri)) as [x|] eqn:Hlast; [|by apply last_None in Hlast].
  eexists _, _, Ri, x. split_and!; [|exact HRi|done|].
  - mrun (apply (moveKey_front rows t k oldRow oldCol 0%nat R); [done..|lia]).
    exact Hruni.
  - rewrite shiftCalls_lookup by lia. simpl. unfold shedCall.
    by rewrite HRi, Hlast.
Qed.

(** One more turn of a [for] loop is the loop followed by its body. *)
Lemma forLoop_snoc n : ∀ (i : Z) (body : Z → M B unit) (m : Machine B),
  forLoop (S n) i body m
  = (forLoop n i body >> body (i + Z.of_nat n)) m.
Proof.
  induction n as [|n IH]; intros i body m.
  - cbn [forLoop Z.of_nat]. rewrite Z.add_0_r. unfold bind, ret.
    by destruct (body i m) as [[[]|e|] m'].
  - change (forLoop (S (S n)) i body m)
      with ((body i >> forLoop (S n) (i + 1) body) m).
    change (forLoop (S n) i body) with (body i >> forLoop n (i + 1) body).
    unfold bind at 1 2 3. destruct (body i m) as [[[]|e|] m1]; [|done..].
    rewrite IH. unfold bind.
    by replace (i + 1 + Z.of_nat n) with (i + Z.of_nat (S n)) by lia.
Qed.

(** What the [i]-th shed of a press does to the layout: the last key of row
    [i] leaves that row and becomes the first key of row [i + 1]; no other
    row changes. *)
Lemma autosort_sheds rows t k oldRow oldCol i :
  wellFormed rows →
  scanRows 0 rows k = Some (oldRow, oldCol) →
  (i < oldRow)%nat →
  ∃ rowsi ti R T ks x,
    (moveKey (Some k) (Z.of_nat oldRow) (Z.of_nat oldCol) 0 0 >>
     forLoop i 0 shedLast) (mkMachine rows t)
    = (Normal tt, mkMachine rowsi ti)
    ∧ rowsi !! i = Some R ∧ keys R = ks ++ [x] ∧ rowsi !! S i = Some T
    ∧ (moveKey (Some k) (Z.of_nat oldRow) (Z.of_nat oldCol) 0 0 >>
       forLoop (S i) 0 shedLast) (mkMachine rows t)
      = (Normal tt, mkMachine (shedPure i rowsi) (ti ++ shedCall i rowsi))
    ∧ shedPure i rowsi !! i
      = Some (mkRow (keyEl <$> ks) ks (defaultRowWidth R))
    ∧ shedPure i rowsi !! S i = Some (withFront x T)
    ∧ (∀ j, j ≠ i → j ≠ S i → shedPure i rowsi !! j = rowsi !! j)
    ∧ wellFormed rowsi ∧ wellFormed (shedPure i rowsi).
Proof.
  intros Hwf Hscan Hi.
  destruct (scanRows_Some _ _ _ _ _ Hscan) as (R & _ & HR & Hk).
  rewrite Nat.sub_0_r in HR.
  assert (HlenR : (oldRow < length rows)%nat) by (by eapply lookup_lt_Some).
  set (rows1 := moved k oldRow oldCol 0 rows) in *.
  assert (Hwf1 : wellFormed rows1) by (eapply moved_wellFormed; [done..|lia]).
  assert (Hl1 : length rows1 = length rows) by apply moved_length.
  destruct (moved_front k oldRow oldCol rows ltac:(lia)) as [T0 HT0].
  fold rows1 in HT0.
  destruct (forLoop_shed i 0 rows1
              (t ++ [MoveKeyCall (Some k) (Z.of_nat oldRow) (Z.of_nat oldCol) 0 0])
              Hwf1)
    as (Hruni & Hwfi & _ & Hli & _ & _ & _ & Ri & HRi & Hnei).
  { lia. }
  { eexists. split; [exact HT0|done]. }
  cbn [Z.of_nat] in Hruni. simpl in HRi.
  destruct (shedPure_props (shiftDown i 0 rows1) i Ri Hwfi HRi Hnei)
    as (Hwf' & _ & _ & _ & Ho & x & ks & T & Hks & HT & Hi1 & HSi1); [lia|].
  assert (Hfirst : (moveKey (Some k) (Z.of_nat oldRow) (Z.of_nat oldCol) 0 0 >>
                    forLoop i 0 shedLast) (mkMachine rows t)
                   = (Normal tt,
                      mkMachine (shiftDown i 0 rows1)
                        ((t ++ [MoveKeyCall (Some k) (Z.of_nat oldRow)
                                  (Z.of_nat oldCol) 0 0])
                         ++ shiftCalls i 0 rows1))).
  { mrun (apply (moveKey_front rows t k oldRow oldCol 0%nat R); [done..|lia]).
    exact Hruni. }
  eexists _, _, Ri, T, ks, x.
  split_and!; [exact Hfirst|done|done|done| |done|done|done|done|done].
  mrun (apply (moveKey_front rows t k oldRow oldCol 0%nat R); [done..|lia]).
  fold rows1. rewrite forLoop_snoc.
  mrun (exact Hruni). rewrite Z.add_0_l.
  apply (shedLast_spec _ _ i Ri); [done..|lia].
Qed.

End AutosortFacts.

(** ** The four-row file: what a press does *)

Lemma foldl_width (acc : Z) (l : list Key) :
  foldl (λ prev cur, prev + width cur) acc l = acc + Budget.keysWidth l.
Proof.
  unfold Budget.keysWidth. revert acc.
  induction l as [|k l IH]; intros acc; simpl; [lia|].
  rewrite (IH (acc + width k)), (IH (0 + width k)). lia.
Qed.

Lemma keysWidth_cons (k : Key) (l : list Key) :
  Budget.keysWidth (k :: l) = width k + Budget.keysWidth l.
Proof. unfold Budget.keysWidth at 1. simpl. by rewrite foldl_width. Qed.

Lemma keysWidth_app (l1 l2 : list Key) :
  Budget.keysWidth (l1 ++ l2) = Budget.keysWidth l1 + Budget.keysWidth l2.
Proof.
  induction l1 as [|k l1 IH]; [done|].
  rewrite <- app_comm_cons, !keysWidth_cons, IH. lia.
Qed.

Lemma keysWidth_delete (l : list Key) (c : nat) (k : Key) :
  l !! c = Some k → Budget.keysWidth l = width k + Budget.keysWidth (delete c l).
Proof.
  revert c. induction l as [|y l IH]; intros [|c] Hc; simplify_eq/=.
  - by rewrite keysWidth_cons.
  - rewrite !keysWidth_cons, (IH c Hc). lia.
Qed.

Section BudgetFacts.
Implicit Types (rows : list (KeyboardRow Z)) (R T : KeyboardRow Z).
Implicit Types (k x : Key) (t : list Event).

(** A row that is too wide for a non-negative budget holds a key. *)
Lemma tooWide_nonempty R :
  0 ≤ defaultRowWidth R → Budget.rowWidth R > defaultRowWidth R → keys R ≠ [].
Proof.
  unfold Budget.rowWidth. intros Hb Hw Hnil. rewrite Hnil in Hw.
  unfold Budget.keysWidth in Hw. simpl in Hw. lia.
Qed.

Lemma whileTooWide_spec i fuel : ∀ rows t R,
  wellFormed rows →
  rows !! i = Some R → (S i < length rows)%nat →
  0 ≤ defaultRowWidth R →
  (length (keys R) < fuel)%nat →
  ∃ rows' t',
    Budget.whileTooWide fuel (Z.of_nat i) (mkMachine rows t)
    = (Normal tt, mkMachine rows' t')
    ∧ wellFormed rows'
    ∧ allKeys rows' ≡ₚ allKeys rows
    ∧ defaultRowWidth <$> rows' = defaultRowWidth <$> rows
    ∧ (∀ j, (j < i)%nat → rows' !! j = rows !! j)
    ∧ ∃ R', rows' !! i = Some R'
            ∧ Budget.rowWidth R' ≤ defaultRowWidth R'
            ∧ (∀ k l, keys R = k :: l → width k ≤ defaultRowWidth R →
                      ∃ l', keys R' = k :: l').
Proof.
  induction fuel as [|fuel IH]; intros rows t R Hwf HR Hi Hb Hfuel; [lia|].
  cbn [Budget.whileTooWide].
  destruct (decide (Budget.rowWidth R > defaultRowWidth R)) as [Hw|Hw].
  - pose proof (tooWide_nonempty R Hb Hw) as Hne.
    destruct (shedPure_props rows i R Hwf HR Hne Hi)
      as (Hwf1 & Hp1 & Hl1 & Hb1 & Ho1 & x & ks & T & Hks & HT & Hi1 & HSi1).
    destruct (IH (shedPure i rows) (t ++ shedCall i rows) _ Hwf1 Hi1)
      as (rows' & t' & Hrun & Hwf2 & Hp2 & Hb2 & Hlo2 & R' & HR' & Hw' & Hhd);
      [by rewrite Hl1|done| |].
    { simpl. rewrite Hks, length_app in Hfuel. simpl in Hfuel. lia. }
    exists rows', t'. split_and!; [|done|by rewrite Hp2|by rewrite Hb2| |].
    + mrun (by apply getRow_run). rewrite bool_decide_eq_true_2 by done.
      mrun (by eapply shedLast_spec). exact Hrun.
    + intros j Hj. rewrite Hlo2 by done. apply Ho1; lia.
    + exists R'. split_and!; [done..|]. intros k l Hk Hfit.
      apply (Hhd k (removelast l)); [|done]. simpl.
      rewrite Hk in Hks. destruct ks as [|k' ks]; simplify_eq/=.
      * unfold Budget.rowWidth in Hw. rewrite Hk, keysWidth_cons in Hw.
        unfold Budget.keysWidth in Hw. simpl in Hw. lia.
      * by rewrite removelast_last.
  - exists rows, t. split_and!; [|done..|].
    + mrun (by apply getRow_run). by rewrite bool_decide_eq_false_2.
    + exists R. split_and!; [done|lia|eauto].
Qed.

Lemma reflowRow_spec i rows t R :
  wellFormed rows →
  rows !! i = Some R → (S i < length rows)%nat →
  0 ≤ defaultRowWidth R →
  ∃ rows' t',
    Budget.reflowRow (Z.of_nat i) (mkMachine rows t)
    = (Normal tt, mkMachine rows' t')
    ∧ wellFormed rows'
    ∧ allKeys rows' ≡ₚ allKeys rows
    ∧ defaultRowWidth <$> rows' = defaultRowWidth <$> rows
    ∧ (∀ j, (j < i)%nat → rows' !! j = rows !! j)
    ∧ ∃ R', rows' !! i = Some R'
            ∧ Budget.rowWidth R' ≤ defaultRowWidth R'
            ∧ (∀ k l, keys R = k :: l → width k ≤ defaultRowWidth R →
                      ∃ l', keys R' = k :: l').
Proof.
  intros Hwf HR Hi Hb.
  destruct (whileTooWide_spec i (S (length (keys R))) rows t R)
    as (rows' & t' & Hrun & H); [done..|lia|].
  exists rows', t'. split; [|done]. unfold Budget.reflowRow.
  by mrun (by apply getRow_run).
Qed.

Lemma budget_lookup rows rows' j R R' :
  defaultRowWidth <$> rows' = defaultRowWidth <$> rows →
  rows !! j = Some R → rows' !! j = Some R' →
  defaultRowWidth R' = defaultRowWidth R.
Proof.
  intros Hb HR HR'.
  assert (Heq : (defaultRowWidth <$> rows') !! j = (defaultRowWidth <$> rows) !! j)
    by (by rewrite Hb).
  rewrite !list_lookup_fmap, HR, HR' in Heq. by simplify_eq/=.
Qed.

Lemma budgetsNonneg_lookup rows j R :
  budgetsNonneg rows → rows !! j = Some R → 0 ≤ defaultRowWidth R.
Proof.
  unfold budgetsNonneg. rewrite Forall_fmap, Forall_lookup. intros H HR.
  by apply (H j R).
Qed.

Lemma forLoop_reflow n : ∀ i rows t,
  wellFormed rows → budgetsNonneg rows →
  (i + n < length rows)%nat →
  ∃ rows' t',
    forLoop n (Z.of_nat i) Budget.reflowRow (mkMachine rows t)
    = (Normal tt, mkMachine rows' t')
    ∧ wellFormed rows'
    ∧ allKeys rows' ≡ₚ allKeys rows
    ∧ defaultRowWidth <$> rows' = defaultRowWidth <$> rows
    ∧ (∀ j, (j < i)%nat → rows' !! j = rows !! j)
    ∧ (∀ j R', (i ≤ j < i + n)%nat → rows' !! j = Some R' →
               Budget.rowWidth R' ≤ defaultRowWidth R')
    ∧ (∀ R k l, rows !! i = Some R → keys R = k :: l →
                width k ≤ defaultRowWidth R →
                ∃ R' l', rows' !! i = Some R' ∧ keys R' = k :: l').
Proof.
  induction n as [|n IH]; intros i rows t Hwf Hnn Hlen.
  { exists rows, t. split_and!; [done..|intros; lia|eauto]. }
  destruct (lookup_lt_is_Some_2 rows i ltac:(lia)) as [R HR].
  destruct (reflowRow_spec i rows t R Hwf HR ltac:(lia))
    as (rows1 & t1 & Hrun1 & Hwf1 & Hp1 & Hb1 & Hlo1 & R1 & HR1 & Hw1 & Hhd1).
  { by eapply budgetsNonneg_lookup. }
  assert (Hlen1 : length rows1 = length rows).
  { by rewrite <- (length_fmap defaultRowWidth rows1), Hb1, length_fmap. }
  destruct (IH (S i) rows1 t1 Hwf1) as
    (rows' & t' & Hrun & Hwf2 & Hp2 & Hb2 & Hlo2 & Hin2 & _).
  { unfold budgetsNonneg. by rewrite Hb1. }
  { lia. }
  exists rows', t'. split_and!; [|done|by rewrite Hp2|by rewrite Hb2| | |].
  - cbn [forLoop]. mrun (exact Hrun1).
    by replace (Z.of_nat i + 1) with (Z.of_nat (S i)) by lia.
  - intros j Hj. rewrite Hlo2 by lia. by apply Hlo1.
  - intros j R' Hj HR'. destruct (decide (j = i)) as [->|Hne].
    + rewrite Hlo2, HR1 in HR' by lia. by simplify_eq.
    + apply (Hin2 j); [lia|done].
  - intros R0 k l HR0 Hk Hfit. simplify_eq.
    destruct (Hhd1 k l Hk Hfit) as [l' Hl']. exists R1, l'.
    split; [|done]. by rewrite Hlo2 by lia.
Qed.

(** Rows that are within budget are left alone. *)
Lemma forLoop_reflow_idle n : ∀ i rows t,
  (i + n < length rows)%nat →
  (∀ j R, (i ≤ j < i + n)%nat → rows !! j = Some R →
          Budget.rowWidth R ≤ defaultRowWidth R) →
  forLoop n (Z.of_nat i) Budget.reflowRow (mkMachine rows t)
  = (Normal tt, mkMachine rows t).
Proof.
  induction n as [|n IH]; intros i rows t Hlen Hin; [done|].
  destruct (lookup_lt_is_Some_2 rows i ltac:(lia)) as [R HR].
  cbn [forLoop]. unfold Budget.reflowRow at 1.
  assert (Budget.rowWidth R ≤ defaultRowWidth R) by (apply (Hin i); [lia|done]).
  erewrite bind_Normal; cycle 1.
  { mrun (by apply getRow_run). cbn [Budget.whileTooWide].
    mrun (by apply getRow_run). by rewrite bool_decide_eq_false_2 by lia. }
  replace (Z.of_nat i + 1) with (Z.of_nat (S i)) by lia.
  apply IH; [lia|]. intros j R' Hj. apply Hin. lia.
Qed.

Lemma budget_missing rows t k :
  k ∉ allKeys rows →
  Budget.sortKeys k (mkMachine rows t)
  = (Throw TypeError, mkMachine rows (t ++ [ConsoleError k])).
Proof.
  intros Hk. apply (scanRows_None 0) in Hk. unfold Budget.sortKeys.
  by mrun (by apply getKeyPos_missing).
Qed.

Lemma budget_run rows t k oldRow oldCol :
  wellFormed rows → budgetsNonneg rows →
  scanRows 0 rows k = Some (oldRow, oldCol) →
  ∃ rows' t',
    Budget.sortKeys k (mkMachine rows t) = (Normal tt, mkMachine rows' t')
    ∧ wellFormed rows'
    ∧ allKeys rows' ≡ₚ allKeys rows
    ∧ defaultRowWidth <$> rows' = defaultRowWidth <$> rows
    ∧ withinBudget rows'
    ∧ (∀ R0, rows !! 0%nat = Some R0 → width k ≤ defaultRowWidth R0 →
             scanRows 0 rows' k = Some (0, 0)%nat).
Proof.
  intros Hwf Hnn Hscan.
  destruct (scanRows_Some _ _ _ _ _ Hscan) as (R & _ & HR & Hk).
  rewrite Nat.sub_0_r in HR.
  assert (HlenR : (oldRow < length rows)%nat) by (by eapply lookup_lt_Some).
  set (rows1 := moved k oldRow oldCol 0 rows).
  assert (Hwf1 : wellFormed rows1) by (eapply moved_wellFormed; [done..|lia]).
  assert (Hp1 : allKeys rows1 ≡ₚ allKeys rows)
    by (eapply moved_allKeys; [done..|lia]).
  assert (Hb1 : defaultRowWidth <$> rows1 = defaultRowWidth <$> rows)
    by apply moved_budgets.
  assert (Hl1 : length rows1 = length rows) by apply moved_length.
  destruct (moved_front k oldRow oldCol rows ltac:(lia)) as [T HT].
  fold rows1 in HT.
  destruct (forLoop_reflow (length rows1 - 1) 0 rows1
              (t ++ [MoveKeyCall (Some k) (Z.of_nat oldRow) (Z.of_nat oldCol) 0 0])
              Hwf1)
    as (rows' & t' & Hrun & Hwf2 & Hp2 & Hb2 & _ & Hin2 & Hhd2).
  { unfold budgetsNonneg. by rewrite Hb1. }
  { lia. }
  cbn [Z.of_nat] in Hrun.
  assert (Hl2 : length rows' = length rows1).
  { by rewrite <- (length_fmap defaultRowWidth rows'), Hb2, length_fmap. }
  exists rows', t'. split_and!; [|done|by rewrite Hp2|by rewrite Hb2| |].
  - unfold Budget.sortKeys.
    mrun (by apply getKeyPos_found).
    mrun reflexivity.
    mrun (apply (moveKey_front rows t k oldRow oldCol 0%nat R); [done..|lia]).
    mrun (exact Hrun).
    mrun reflexivity.
    apply animate_after; [apply Hwf|apply Hwf2|by rewrite Hp2].
  - intros j R' Hj HR'. apply (Hin2 j); [lia|done].
  - intros R0 HR0 Hfit.
    destruct (Hhd2 (withFront k T) k (keys T) HT eq_refl) as (R' & l' & HR' & Hk').
    { pose proof (budget_lookup rows rows1 0%nat R0 (withFront k T) Hb1 HR0 HT)
        as Heq.
      lia. }
    by eapply scanRows_front.
Qed.

(** Pressing the key that already sits top-left of a layout within
    budget. *)
Lemma budget_repress rows t k :
  wellFormed rows → withinBudget rows → getKey rows 0 0 = JKey k →
  Budget.sortKeys k (mkMachine rows t)
  = (Normal tt, mkMachine rows (t ++ [MoveKeyCall (Some k) 0 0 0 0])).
Proof.
  intros Hwf Hin Hk. apply getKey_JKey in Hk as (_ & _ & R & HR & Hk).
  simpl in HR, Hk.
  assert (Hscan : scanRows 0 rows k = Some (0, 0)%nat).
  { destruct (keys R) as [|k' l] eqn:HkR; simplify_eq/=.
    by eapply scanRows_front. }
  assert (Hlen : (0 < length rows)%nat) by (by eapply lookup_lt_Some).
  unfold Budget.sortKeys.
  mrun (by apply getKeyPos_found).
  mrun reflexivity.
  mrun (apply (moveKey_front rows t k 0%nat 0%nat 0%nat R); [done..|lia]).
  rewrite (moved_top_left rows R k) by (done || apply Hwf).
  mrun (cbv beta; cbn [keyRows trace];
        apply (forLoop_reflow_idle _ 0%nat); [lia|];
        intros j R' Hj; apply Hin; lia).
  mrun reflexivity.
  by apply animate_after; [apply Hwf..|].
Qed.

End BudgetFacts.

(** ** Termination, on any state *)

Lemma bind_Normal_inv {B A C} (c : M B A) (k : A → M B C) m b m' :
  bind c k m = (Normal b, m') →
  ∃ a m1, c m = (Normal a, m1) ∧ k a m1 = (Normal b, m').
Proof.
  unfold bind. destruct (c m) as [[a|e|] m1]; [eauto|done..].
Qed.

Lemma getRow_inv {B} (i : Z) (m m1 : Machine B) R :
  getRow i m = (Normal R, m1) → lookupZ (keyRows m) i = Some R ∧ m1 = m.
Proof.
  unfold getRow. destruct (lookupZ (keyRows m) i); intros; by simplify_eq.
Qed.

Lemma terminates_bind {B A C} (c : M B A) (k : A → M B C) :
  terminates c → (∀ a, terminates (k a)) → terminates (bind c k).
Proof.
  intros Hc Hk m. unfold bind. specialize (Hc m).
  destruct (c m) as [[a|e|] m1]; [apply Hk|done..].
Qed.

Lemma terminates_getRow {B} (i : Z) : terminates (getRow (B:=B) i).
Proof. intros m. unfold getRow. by destruct (lookupZ (keyRows m) i). Qed.

Ltac term_prim :=
  let m := fresh "m" in
  intros m; unfold ret, throw, emit, setRow, getFlexItemsInfo; cbn; discriminate.

Lemma terminates_moveKey {B} key fromRow fromCol toRow toCol :
  terminates (moveKey (B:=B) key fromRow fromCol toRow toCol).
Proof.
  unfold moveKey.
  apply terminates_bind; [term_prim|]. intros _.
  apply terminates_bind; [apply terminates_getRow|]. intros fr.
  apply terminates_bind; [destruct key; term_prim|]. intros k.
  apply terminates_bind; [case_decide; term_prim|]. intros _.
  apply terminates_bind; [apply terminates_getRow|]. intros fr1.
  apply terminates_bind; [case_match; term_prim|]. intros _.
  apply terminates_bind; [apply terminates_getRow|]. intros fr2.
  apply terminates_bind; [term_prim|]. intros _.
  apply terminates_bind; [apply terminates_getRow|]. intros newRow.
  apply terminates_bind; [case_match; term_prim|]. intros _.
  apply terminates_bind; [apply terminates_getRow|]. intros tr. term_prim.
Qed.

Lemma terminates_shedLast {B} (i : Z) : terminates (shedLast (B:=B) i).
Proof.
  unfold shedLast. apply terminates_bind; [apply terminates_getRow|].
  intros R. apply terminates_moveKey.
Qed.

Lemma terminates_forLoop {B} (body : Z → M B unit) n :
  (∀ i, terminates (body i)) → ∀ i, terminates (forLoop n i body).
Proof.
  intros Hb. induction n as [|n IH]; intros i; [term_prim|].
  cbn [forLoop]. apply terminates_bind; [apply Hb|]. intros _. apply IH.
Qed.

Lemma terminates_animate {B} old new :
  terminates (animateFlexItems (B:=B) old new).
Proof.
  induction new as [|e new IH]; [term_prim|]. simpl. case_match; [done|term_prim].
Qed.

Lemma terminates_getKeyPos {B} k : terminates (getKeyPos (B:=B) k).
Proof. intros m. unfold getKeyPos. case_match; cbn; discriminate. Qed.

(** What a completed [moveKey] between two different rows did to the source
    row. *)
Lemma moveKey_inv {B} (k : Key) (fromRow fromCol toRow toCol : Z)
    (m m' : Machine B) :
  moveKey (Some k) fromRow fromCol toRow toCol m = (Normal tt, m') →
  Z.to_nat toRow ≠ Z.to_nat fromRow →
  ∃ R R', lookupZ (keyRows m) fromRow = Some R
          ∧ lookupZ (keyRows m') fromRow = Some R'
          ∧ keys R' = splice fromCol 1 [] (keys R)
          ∧ defaultRowWidth R' = defaultRowWidth R
          ∧ length (keyRows m') = length (keyRows m)
          ∧ ∀ j, j ≠ Z.to_nat fromRow → j ≠ Z.to_nat toRow →
                 keyRows m' !! j = keyRows m !! j.
Proof.
  intros H Hne. unfold moveKey in H.
  apply bind_Normal_inv in H as (? & m0 & H0 & H).
  unfold emit in H0. simplify_eq.
  apply bind_Normal_inv in H as (R & ? & HR & H).
  apply getRow_inv in HR as [HR ->]. cbn [keyRows] in HR.
  apply bind_Normal_inv in H as (k0 & m00 & Hd & H).
  unfold deref, ret in Hd. injection Hd as <- <-.
  apply bind_Normal_inv in H as (? & m1 & Ha & H).
  assert (Hrows1 : keyRows m1 = keyRows m).
  { case_decide; unfold ret, emit in Ha; by simplify_eq. }
  apply bind_Normal_inv in H as (R1 & ? & HR1 & H).
  apply getRow_inv in HR1 as [HR1 ->]. rewrite Hrows1, HR in HR1. simplify_eq.
  apply bind_Normal_inv in H as (? & m2 & Hrem & H).
  destruct (removeChild (keyEl k) (rowEl R1)) as [ch|]; [|done].
  unfold setRow in Hrem. simplify_eq. rewrite Hrows1 in H.
  apply lookupZ_Some in HR as [Hfr HR].
  assert (Hlen : (Z.to_nat fromRow < length (keyRows m))%nat)
    by (by eapply lookup_lt_Some).
  apply bind_Normal_inv in H as (R2 & ? & HR2 & H).
  apply getRow_inv in HR2 as [HR2 ->]. cbn [keyRows] in HR2.
  unfold lookupZ in HR2. rewrite bool_decide_eq_false_2 in HR2 by lia.
  rewrite list_lookup_insert_eq in HR2 by done. simplify_eq.
  apply bind_Normal_inv in H as (? & m3 & Hspl & H).
  unfold setRow in Hspl. simplify_eq.
  cbn [keyRows trace rowEl keys defaultRowWidth] in H.
  rewrite list_insert_insert_eq in H.
  apply bind_Normal_inv in H as (T & ? & HT & H).
  apply getRow_inv in HT as [HT ->]. cbn [keyRows] in HT.
  apply bind_Normal_inv in H as (? & m4 & Hins & H).
  destruct (insertBefore _ _ _) as [ch'|]; [|done].
  unfold setRow in Hins. simplify_eq.
  apply bind_Normal_inv in H as (T' & ? & HT' & H).
  apply getRow_inv in HT' as [HT' ->].
  unfold setRow in H. simplify_eq. cbn [keyRows].
  eexists R1, _. split_and!.
  - unfold lookupZ. rewrite bool_decide_eq_false_2 by lia. done.
  - unfold lookupZ. rewrite bool_decide_eq_false_2 by lia.
    rewrite !list_lookup_insert_ne by done.
    by apply list_lookup_insert_eq.
  - done.
  - done.
  - by rewrite !length_insert.
  - intros j Hj1 Hj2. by rewrite !list_lookup_insert_ne.
Qed.

Lemma shedLast_inv {B} (i : Z) (m m' : Machine B) :
  shedLast i m = (Normal tt, m') →
  ∃ R R' x, lookupZ (keyRows m) i = Some R
            ∧ lookupZ (keyRows m') i = Some R'
            ∧ keys R = keys R' ++ [x]
            ∧ defaultRowWidth R' = defaultRowWidth R
            ∧ length (keyRows m') = length (keyRows m)
            ∧ ∀ j, j ≠ Z.to_nat i → j ≠ S (Z.to_nat i) →
                   keyRows m' !! j = keyRows m !! j.
Proof.
  intros H. unfold shedLast in H.
  apply bind_Normal_inv in H as (R & ? & HR & H).
  apply getRow_inv in HR as [HR ->].
  destruct (lookupZ (keys R) (Z.of_nat (length (keys R)) - 1)) as [x|] eqn:Hx.
  - pose proof (lookupZ_Some _ _ _ HR) as [Hi _].
    apply moveKey_inv in H as (R0 & R' & HR0 & HR' & Hk & Hb & Hl & Ho); [|lia].
    rewrite HR in HR0. injection HR0 as <-.
    exists R, R', x. split_and!; [done..| |done|done|];
      [|intros j Hj1 Hj2; apply Ho; lia].
    apply lookupZ_Some in Hx as [Hlen Hx].
    destruct (keys R) as [|k0 l0 _] using rev_ind; [done|].
    rewrite Hk, splice_last. f_equal.
    rewrite length_app in Hx. simpl in Hx.
    replace (Z.to_nat (Z.of_nat (length l0 + 1) - 1)) with (length l0) in Hx by lia.
    rewrite lookup_app_r, Nat.sub_diag in Hx by lia. by simplify_eq/=.
  - unfold moveKey in H.
    apply bind_Normal_inv in H as (? & m0 & H0 & H).
    apply bind_Normal_inv in H as (? & ? & _ & H).
    by apply bind_Normal_inv in H as (? & ? & Hd & _).
Qed.

(** With more fuel than the row has keys the loop never runs dry. *)
Lemma whileTooWide_terminates (i : Z) (fuel : nat) : ∀ m : Machine Z,
  (0 < fuel)%nat →
  (∀ R, lookupZ (keyRows m) i = Some R → (length (keys R) < fuel)%nat) →
  fst (Budget.whileTooWide fuel i m) ≠ OutOfFuel.
Proof.
  induction fuel as [|fuel IH]; intros m Hpos Hfuel; [lia|].
  cbn [Budget.whileTooWide]. unfold bind at 1.
  destruct (getRow i m) as [[R| |] m0] eqn:HR; [|done|].
  - apply getRow_inv in HR as [HR ->]. case_bool_decide; [|done].
    unfold bind. destruct (shedLast i m) as [[[]| |] m1] eqn:Hs; [|done|].
    + apply shedLast_inv in Hs as (R0 & R' & x & HR0 & HR' & Hk & _).
      rewrite HR in HR0. injection HR0 as <-. specialize (Hfuel _ HR).
      rewrite Hk, length_app in Hfuel. simpl in Hfuel.
      apply IH; [lia|]. intros R1 HR1. rewrite HR' in HR1.
      injection HR1 as <-. lia.
    + pose proof (terminates_shedLast i m) as Ht. by rewrite Hs in Ht.
  - pose proof (terminates_getRow i m) as Ht. by rewrite HR in Ht.
Qed.

Lemma terminates_reflowRow (i : Z) : terminates (Budget.reflowRow i).
Proof.
  intros m. unfold Budget.reflowRow, bind.
  destruct (getRow i m) as [[R| |] m0] eqn:HR; [|done|].
  - apply getRow_inv in HR as [HR ->].
    apply whileTooWide_terminates; [lia|]. intros R' HR'.
    rewrite HR in HR'. injection HR' as <-. lia.
  - pose proof (terminates_getRow i m) as Ht. by rewrite HR in Ht.
Qed.

Lemma terminates_budget_sortKeys k : terminates (Budget.sortKeys k).
Proof.
  unfold Budget.sortKeys. apply terminates_bind; [apply terminates_getKeyPos|].
  intros [[oldRow oldCol]|]; [|term_prim].
  apply terminates_bind; [term_prim|]. intros old.
  apply terminates_bind; [apply terminates_moveKey|]. intros _.
  apply terminates_bind.
  { intros m. apply terminates_forLoop, terminates_reflowRow. }
  intros _. apply terminates_bind; [term_prim|]. intros new.
  apply terminates_animate.
Qed.

Lemma terminates_autosort_sortKeys {B} k : terminates (Autosort.sortKeys (B:=B) k).
Proof.
  unfold Autosort.sortKeys. apply terminates_bind; [apply terminates_getKeyPos|].
  intros [[oldRow oldCol]|]; [|term_prim].
  apply terminates_bind; [term_prim|]. intros old.
  apply terminates_bind; [apply terminates_moveKey|]. intros _.
  apply terminates_bind; [apply terminates_forLoop, terminates_shedLast|].
  intros _. apply terminates_bind; [term_prim|]. intros new.
  apply terminates_animate.
Qed.

(** A loop that completes leaves its row within budget, and the rows above
    it as they were. *)
Lemma whileTooWide_exit (i : Z) (fuel : nat) : ∀ m m' : Machine Z,
  Budget.whileTooWide fuel i m = (Normal tt, m') →
  (∃ R', lookupZ (keyRows m') i = Some R'
         ∧ Budget.rowWidth R' ≤ defaultRowWidth R')
  ∧ length (keyRows m') = length (keyRows m)
  ∧ ∀ j, (j < Z.to_nat i)%nat → keyRows m' !! j = keyRows m !! j.
Proof.
  induction fuel as [|fuel IH]; intros m m' H; [done|].
  cbn [Budget.whileTooWide] in H.
  apply bind_Normal_inv in H as (R & ? & HR & H).
  apply getRow_inv in HR as [HR ->]. case_bool_decide.
  - apply bind_Normal_inv in H as ([] & m1 & Hs & H).
    apply shedLast_inv in Hs as (_ & _ & _ & _ & _ & _ & _ & Hl1 & Ho1).
    destruct (IH _ _ H) as (Hin & Hl & Ho).
    split_and!; [done|by rewrite Hl|].
    intros j Hj. rewrite Ho by done. apply Ho1; lia.
  - unfold ret in H. simplify_eq. split_and!; [|done..].
    exists R. split; [done|lia].
Qed.

Lemma forLoop_reflow_exit n : ∀ (i : nat) (m m' : Machine Z),
  forLoop n (Z.of_nat i) Budget.reflowRow m = (Normal tt, m') →
  length (keyRows m') = length (keyRows m)
  ∧ (∀ j, (j < i)%nat → keyRows m' !! j = keyRows m !! j)
  ∧ (∀ j, (i ≤ j < i + n)%nat →
          ∃ R', keyRows m' !! j = Some R'
                ∧ Budget.rowWidth R' ≤ defaultRowWidth R').
Proof.
  induction n as [|n IH]; intros i m m' H.
  { unfold forLoop, ret in H. simplify_eq. split_and!; [done..|]. intros; lia. }
  cbn [forLoop] in H.
  apply bind_Normal_inv in H as ([] & m1 & H1 & H).
  unfold Budget.reflowRow in H1.
  apply bind_Normal_inv in H1 as (R & ? & HR & H1).
  apply getRow_inv in HR as [HR ->].
  apply whileTooWide_exit in H1 as ((R1 & HR1 & Hw1) & Hl1 & Ho1).
  rewrite lookupZ_of_nat in HR1. rewrite Nat2Z.id in Ho1.
  replace (Z.of_nat i + 1) with (Z.of_nat (S i)) in H by lia.
  destruct (IH _ _ _ H) as (Hl & Ho & Hin).
  split_and!; [by rewrite Hl| |].
  - intros j Hj. rewrite Ho by lia. by apply Ho1.
  - intros j Hj. destruct (decide (j = i)) as [->|Hne].
    + exists R1. by rewrite Ho by lia.
    + apply Hin. lia.
Qed.

Lemma animateFlexItems_state {B} old new (m m' : Machine B) c :
  animateFlexItems old new m = (c, m') → m' = m.
Proof.
  revert m. induction new as [|e new IH]; intros m H; simpl in H.
  - unfold ret in H. by simplify_eq.
  - case_match; [by eapply IH|]. unfold throw in H. by simplify_eq.
Qed.


(** ** Invariants of the reachable layouts *)

Lemma present_scan {B} (rows : list (KeyboardRow B)) (k : Key) :
  k ∈ allKeys rows → ∃ oldRow oldCol, scanRows 0 rows k = Some (oldRow, oldCol).
Proof.
  intros Hk. destruct (scanRows 0 rows k) as [[r c]|] eqn:Hs; [eauto|].
  by apply scanRows_None in Hs.
Qed.

Lemma scan_topRow {B} (rows : list (KeyboardRow B)) (k : Key) :
  scanRows 0 rows k = Some (0, 0)%nat → topRowNonempty rows.
Proof.
  intros Hs. apply scanRows_Some in Hs as (R & _ & HR & Hk).
  exists R. split; [done|]. intros Hnil. by rewrite Hnil in Hk.
Qed.

Lemma autosort_new_wellFormed : wellFormed (keyRows Autosort.Keyboard_new).
Proof.
  split.
  - unfold mirrored. vm_compute. repeat constructor.
  - unfold distinct. compute_done.
Qed.

Lemma autosort_invariant (m : Machine unit) :
  Autosort.reachable m →
  wellFormed (keyRows m)
  ∧ topRowNonempty (keyRows m)
  ∧ allKeys (keyRows m) ≡ₚ allKeys (keyRows Autosort.Keyboard_new).
Proof.
  induction 1 as [|m key c m' _ (Hwf & Htop & Hperm) Hkey Hrun].
  - split_and!; [apply autosort_new_wellFormed| |done].
    eexists. split; [by vm_compute|done].
  - destruct m as [rows t]. cbn [keyRows] in *.
    destruct (present_scan rows key Hkey) as (oldRow & oldCol & Hscan).
    destruct (autosort_run rows t key oldRow oldCol Hwf Hscan)
      as (Hrun' & Hwf' & Hp' & _).
    destruct Htop as (R0 & HR0 & Hne).
    destruct (autosort_top_left rows t key oldRow oldCol R0 Hwf Hscan HR0 Hne)
      as (rows' & t' & Hrun'' & Hscan').
    rewrite Hrun in Hrun', Hrun''. simplify_eq. cbn [keyRows].
    split_and!; [done|by eapply scan_topRow|by rewrite Hp'].
Qed.

Lemma budget_new_wellFormed : wellFormed (keyRows Budget.Keyboard_new).
Proof.
  split.
  - unfold mirrored. vm_compute. repeat constructor.
  - unfold distinct. compute_done.
Qed.

Lemma budget_new_within : withinBudget (keyRows Budget.Keyboard_new).
Proof.
  intros j R Hj HR. change (length (keyRows Budget.Keyboard_new)) with 4%nat in Hj.
  do 3 (destruct j as [|j]; [vm_compute in HR; simplify_eq; by vm_compute|]).
  lia.
Qed.

Lemma budget_invariant (m : Machine Z) :
  Budget.reachable m →
  wellFormed (keyRows m)
  ∧ defaultRowWidth <$> keyRows m = [600; 550; 350; 200]
  ∧ allKeys (keyRows m) ≡ₚ allKeys (keyRows Budget.Keyboard_new)
  ∧ withinBudget (keyRows m).
Proof.
  induction 1 as [|m key c m' _ (Hwf & Hb & Hperm & Hin) Hkey Hrun].
  - split_and!; [apply budget_new_wellFormed|done|done|apply budget_new_within].
  - destruct m as [rows t]. cbn [keyRows] in *.
    destruct (present_scan rows key Hkey) as (oldRow & oldCol & Hscan).
    destruct (budget_run rows t key oldRow oldCol Hwf) as
      (rows' & t' & Hrun' & Hwf' & Hp' & Hb' & Hin' & _); [|done|].
    { unfold budgetsNonneg. rewrite Hb. repeat constructor; lia. }
    rewrite Hrun in Hrun'. simplify_eq. cbn [keyRows].
    split_and!; [done|by rewrite Hb'|by rewrite Hp'|done].
Qed.

Lemma budget_widths_fit (m : Machine Z) (k : Key) :
  Budget.reachable m → k ∈ allKeys (keyRows m) → width k ≤ 600.
Proof.
  intros Hr Hk. destruct (budget_invariant m Hr) as (_ & _ & Hperm & _).
  rewrite Hperm in Hk.
  assert (Hall : Forall (λ x, width x ≤ 600) (allKeys (keyRows Budget.Keyboard_new))).
  { compute_done. }
  rewrite Forall_forall in Hall. by apply Hall.
Qed.

(** ** Equal widths: the width-budget reflow is the row-count reflow *)

Section EqualWidths.
Variable w : Z.
Hypothesis w_pos : 0 < w.
Implicit Types (rows : list (KeyboardRow Z)) (R T : KeyboardRow Z).
Implicit Types (k x : Key) (t : list Event).

Lemma uniformWidth_row rows j R x :
  uniformWidth w rows → rows !! j = Some R → x ∈ keys R → width x = w.
Proof.
  unfold uniformWidth. rewrite Forall_forall. intros Hu HR Hx. apply Hu.
  apply elem_of_allKeys. eauto.
Qed.

(** A row that is one key over budget gives up exactly one key. *)
Lemma reflowRow_one_shed rows t i R :
  wellFormed rows → uniformWidth w rows →
  rows !! i = Some R → (S i < length rows)%nat →
  0 ≤ defaultRowWidth R →
  Budget.rowWidth R = defaultRowWidth R + w →
  Budget.reflowRow (Z.of_nat i) (mkMachine rows t)
  = shedLast (Z.of_nat i) (mkMachine rows t).
Proof.
  intros Hwf Hu HR Hi Hb Hw.
  assert (Hne : keys R ≠ []) by (apply tooWide_nonempty; lia).
  destruct (shedPure_props rows i R Hwf HR Hne Hi)
    as (_ & _ & _ & _ & _ & x & ks & T & Hks & HT & Hi1 & _).
  rewrite (shedLast_spec rows t i R) by done.
  unfold Budget.reflowRow. mrun (by apply getRow_run).
  rewrite Hks at 1. rewrite length_app. simpl.
  cbn [Budget.whileTooWide].
  mrun (by apply getRow_run). rewrite bool_decide_eq_true_2 by lia.
  mrun (by eapply shedLast_spec).
  replace (length ks + 1)%nat with (S (length ks)) by lia.
  cbn [Budget.whileTooWide].
  mrun (by apply getRow_run).
  rewrite bool_decide_eq_false_2; [done|].
  unfold Budget.rowWidth in *. simpl.
  rewrite Hks, keysWidth_app, keysWidth_cons in Hw.
  unfold Budget.keysWidth at 2 in Hw. simpl in Hw.
  assert (width x = w); [|lia].
  apply (uniformWidth_row rows i R x Hu HR). rewrite Hks.
  apply elem_of_app. right. by left.
Qed.

Lemma reflow_is_shift oldRow d : ∀ i rows t,
  wellFormed rows → uniformWidth w rows → budgetsNonneg rows →
  (i + d)%nat = oldRow → (oldRow < length rows)%nat →
  (∀ j R, rows !! j = Some R →
          Budget.rowWidth R = defaultRowWidth R + offset w oldRow i j) →
  forLoop (length rows - 1 - i) (Z.of_nat i) Budget.reflowRow (mkMachine rows t)
  = forLoop d (Z.of_nat i) shedLast (mkMachine rows t)
  ∧ atBudget (shiftDown d i rows).
Proof.
  induction d as [|d IH]; intros i rows t Hwf Hu Hnn Hid Hlen Hoff.
  - split.
    + cbn [forLoop]. apply forLoop_reflow_idle; [lia|].
      intros j R _ HR. rewrite (Hoff j R HR). unfold offset.
      repeat case_decide; lia.
    + simpl. unfold atBudget. apply Forall_lookup. intros j R HR.
      rewrite (Hoff j R HR). unfold offset. repeat case_decide; lia.
  - destruct (lookup_lt_is_Some_2 rows i ltac:(lia)) as [R HR].
    pose proof (Hoff i R HR) as Hw. unfold offset in Hw.
    rewrite decide_True, decide_False in Hw by lia.
    pose proof (budgetsNonneg_lookup rows i R Hnn HR) as Hb.
    assert (Hne : keys R ≠ []) by (apply tooWide_nonempty; lia).
    destruct (shedPure_props rows i R Hwf HR Hne ltac:(lia))
      as (Hwf1 & Hp1 & Hl1 & Hb1 & Ho1 & x & ks & T & Hks & HT & Hi1 & HSi1).
    assert (Hx : width x = w).
    { apply (uniformWidth_row rows i R x Hu HR). rewrite Hks.
      apply elem_of_app. right. by left. }
    destruct (IH (S i) (shedPure i rows) (t ++ shedCall i rows) Hwf1)
      as [Hrun Hat].
    { unfold uniformWidth. by rewrite Hp1. }
    { unfold budgetsNonneg. by rewrite Hb1. }
    { lia. }
    { by rewrite Hl1. }
    { intros j R' HR'. destruct (decide (j = i)) as [->|Hji];
        [|destruct (decide (j = S i)) as [->|HjSi]].
      - rewrite Hi1 in HR'. injection HR' as <-.
        unfold Budget.rowWidth in *. simpl.
        rewrite Hks, keysWidth_app, keysWidth_cons in Hw.
        unfold Budget.keysWidth at 2 in Hw. simpl in Hw.
        unfold offset. repeat case_decide; lia.
      - rewrite HSi1 in HR'. injection HR' as <-.
        pose proof (Hoff (S i) T HT) as HwT.
        unfold Budget.rowWidth in *. simpl. rewrite keysWidth_cons.
        unfold offset in *. repeat case_decide; lia.
      - rewrite Ho1 in HR' by done. rewrite (Hoff j R' HR').
        unfold offset. repeat case_decide; lia. }
    rewrite Hl1 in Hrun. split; [|exact Hat].
    replace (length rows - 1 - i)%nat with (S (length rows - 1 - S i)) by lia.
    cbn [forLoop].
    rewrite (bind_Normal _ _ _ tt (mkMachine (shedPure i rows) (t ++ shedCall i rows))).
    2:{ rewrite (reflowRow_one_shed rows t i R) by (done || lia).
        apply (shedLast_spec rows t i R); [done..|lia]. }
    rewrite (bind_Normal (shedLast (Z.of_nat i)) _ _ tt
               (mkMachine (shedPure i rows) (t ++ shedCall i rows)))
      by (apply (shedLast_spec rows t i R); [done..|lia]).
    replace (Z.of_nat i + 1) with (Z.of_nat (S i)) by lia. exact Hrun.
Qed.

(** The layout right after the promotion. *)
Lemma promoted_offset rows k oldRow oldCol R :
  uniformWidth w rows → atBudget rows →
  rows !! oldRow = Some R → keys R !! oldCol = Some k →
  ∀ j R', moved k oldRow oldCol 0 rows !! j = Some R' →
          Budget.rowWidth R' = defaultRowWidth R' + offset w oldRow 0 j.
Proof.
  intros Hu Hat HR Hk j R' HR'.
  assert (Hkw : width k = w).
  { apply (uniformWidth_row rows oldRow R k Hu HR).
    by eapply list_elem_of_lookup_2. }
  unfold atBudget in Hat. rewrite Forall_lookup in Hat.
  pose proof (Hat _ _ HR) as HwR. unfold Budget.rowWidth in HwR.
  rewrite (keysWidth_delete _ _ _ Hk) in HwR.
  destruct (decide (oldRow = 0%nat)) as [->|Hne].
  - destruct (decide (j = 0%nat)) as [->|Hj].
    + rewrite moved_lookup_same, HR in HR'. injection HR' as <-.
      unfold Budget.rowWidth. simpl. rewrite keysWidth_cons.
      unfold offset. repeat case_decide; lia.
    + rewrite moved_lookup_other in HR' by done.
      rewrite (Hat _ _ HR'). unfold offset. repeat case_decide; lia.
  - destruct (decide (j = 0%nat)) as [->|Hj];
      [|destruct (decide (j = oldRow)) as [->|Hjo]].
    + rewrite moved_lookup_to in HR' by done.
      destruct (rows !! 0%nat) as [R0|] eqn:HR0; [|done].
      injection HR' as <-. pose proof (Hat _ _ HR0) as Hw0.
      unfold Budget.rowWidth in *. simpl. rewrite keysWidth_cons.
      unfold offset. repeat case_decide; lia.
    + rewrite moved_lookup_from, HR in HR' by done. injection HR' as <-.
      unfold Budget.rowWidth. simpl.
      unfold offset. repeat case_decide; lia.
    + rewrite moved_lookup_other in HR' by done.
      rewrite (Hat _ _ HR'). unfold offset. repeat case_decide; lia.
Qed.

Lemma atBudget_nonneg rows :
  uniformWidth w rows → atBudget rows → budgetsNonneg rows.
Proof.
  intros Hu Hat. unfold budgetsNonneg. rewrite Forall_fmap.
  apply Forall_lookup. intros j R HR.
  unfold atBudget in Hat. rewrite Forall_lookup in Hat.
  simpl. rewrite <- (Hat _ _ HR). unfold Budget.rowWidth.
  assert (Hall : ∀ x, x ∈ keys R → width x = w)
    by (intros x Hx; by eapply uniformWidth_row).
  induction (keys R) as [|x l IHl]; [done|]. rewrite keysWidth_cons.
  assert (width x = w) by (apply Hall; by left).
  assert (0 ≤ Budget.keysWidth l); [|lia].
  apply IHl. intros y Hy. apply Hall. by right.
Qed.

Lemma equal_widths_same_press rows t k :
  wellFormed rows → uniformWidth w rows → atBudget rows →
  Budget.sortKeys k (mkMachine rows t) = Autosort.sortKeys k (mkMachine rows t)
  ∧ ∀ c m', Autosort.sortKeys k (mkMachine rows t) = (c, m') →
            wellFormed (keyRows m')
            ∧ uniformWidth w (keyRows m')
            ∧ atBudget (keyRows m').
Proof.
  intros Hwf Hu Hat.
  destruct (scanRows 0 rows k) as [[oldRow oldCol]|] eqn:Hscan.
  - destruct (autosort_run rows t k oldRow oldCol Hwf Hscan)
      as (HrunA & Hwf' & Hp' & _).
    destruct (scanRows_Some _ _ _ _ _ Hscan) as (R & _ & HR & Hk).
    rewrite Nat.sub_0_r in HR.
    assert (HlenR : (oldRow < length rows)%nat) by (by eapply lookup_lt_Some).
    set (rows1 := moved k oldRow oldCol 0 rows) in *.
    set (t1 := t ++ [MoveKeyCall (Some k) (Z.of_nat oldRow) (Z.of_nat oldCol) 0 0]).
    assert (Hwf1 : wellFormed rows1) by (eapply moved_wellFormed; [done..|lia]).
    assert (Hp1 : allKeys rows1 ≡ₚ allKeys rows)
      by (eapply moved_allKeys; [done..|lia]).
    assert (Hl1 : length rows1 = length rows) by apply moved_length.
    destruct (moved_front k oldRow oldCol rows ltac:(lia)) as [T HT].
    fold rows1 in HT.
    destruct (reflow_is_shift oldRow oldRow 0 rows1 t1 Hwf1) as [Heq Hat'].
    { unfold uniformWidth. by rewrite Hp1. }
    { pose proof (atBudget_nonneg rows Hu Hat) as Hnn.
      unfold budgetsNonneg in *. unfold rows1. by rewrite moved_budgets. }
    { done. }
    { lia. }
    { by eapply promoted_offset. }
    destruct (forLoop_shed oldRow 0 rows1 t1 Hwf1) as (HrunS & _).
    { lia. }
    { eexists. split; [exact HT|done]. }
    change (Z.of_nat 0) with 0 in Heq, HrunS. rewrite Nat.sub_0_r in Heq.
    split.
    + rewrite HrunA. unfold Budget.sortKeys.
      mrun (by apply getKeyPos_found).
      mrun reflexivity.
      mrun (apply (moveKey_front rows t k oldRow oldCol 0%nat R); [done..|lia]).
      change (Z.of_nat 0) with 0. fold rows1 t1.
      mrun (cbv beta; cbn [keyRows]; rewrite Heq; exact HrunS).
      mrun reflexivity. unfold t1. rewrite <- app_assoc. simpl.
      apply animate_after; [apply Hwf|apply Hwf'|done].
    + intros c m' Hrun. rewrite HrunA in Hrun. injection Hrun as <- <-.
      cbn [keyRows]. split_and!; [done| |done].
      unfold uniformWidth. by rewrite Hp'.
  - apply scanRows_None in Hscan.
    rewrite budget_missing, autosort_missing by done. split; [done|].
    intros c m' [= <- <-]. by cbn [keyRows].
Qed.

End EqualWidths.

(** ** The keyboard as shipped *)

Lemma prefix_snoc_inv {A} (p l : list A) (x : A) :
  p `prefix_of` l ++ [x] → p = l ++ [x] ∨ p `prefix_of` l.
Proof.
  intros [l2 Hl2]. destruct l2 as [|y l2 _] using rev_ind.
  - left. by rewrite app_nil_r in Hl2.
  - right. rewrite (assoc_L (++)) in Hl2.
    apply app_inj_tail in Hl2 as [-> _]. by eexists.
Qed.

Lemma whileTooWide_prefix (i : nat) (fuel : nat) : ∀ rows t m' R,
  wellFormed rows → budgetsNonneg rows → (S i < length rows)%nat →
  rows !! i = Some R →
  Budget.whileTooWide fuel (Z.of_nat i) (mkMachine rows t) = (Normal tt, m') →
  ∃ R', keyRows m' !! i = Some R'
        ∧ keys R' `prefix_of` keys R
        ∧ Budget.rowWidth R' ≤ defaultRowWidth R'
        ∧ defaultRowWidth R' = defaultRowWidth R
        ∧ ∀ p, p `prefix_of` keys R →
               Budget.keysWidth p ≤ defaultRowWidth R →
               p `prefix_of` keys R'.
Proof.
  induction fuel as [|fuel IH]; intros rows t m' R Hwf Hnn Hi HR H; [done|].
  cbn [Budget.whileTooWide] in H.
  apply bind_Normal_inv in H as (R1 & ? & HR1 & H).
  apply getRow_inv in HR1 as [HR1 ->]. cbn [keyRows] in HR1.
  rewrite lookupZ_of_nat, HR in HR1. injection HR1 as <-.
  case_bool_decide as Hw.
  - apply bind_Normal_inv in H as ([] & m1 & Hs & H).
    pose proof (budgetsNonneg_lookup rows i R Hnn HR) as Hb.
    pose proof (tooWide_nonempty R Hb Hw) as Hne.
    rewrite (shedLast_spec rows t i R Hwf HR Hne Hi) in Hs.
    injection Hs as <-.
    destruct (shedPure_props rows i R Hwf HR Hne Hi)
      as (Hwf1 & _ & Hl1 & Hb1 & _ & x & ks & T & Hks & _ & Hi1 & _).
    apply (IH _ _ _ _ Hwf1) with (3 := Hi1) in H
        as (R' & HR' & Hpre & Hw' & Hb' & Hmax);
      [|unfold budgetsNonneg; by rewrite Hb1|by rewrite Hl1].
    cbn [keys defaultRowWidth] in Hpre, Hb', Hmax.
    exists R'. split_and!; [done| |done|done|].
    + rewrite Hks. by apply prefix_app_r.
    + intros p Hp Hfit. apply Hmax; [|done]. rewrite Hks in Hp.
      apply prefix_snoc_inv in Hp as [->|Hp]; [|done].
      unfold Budget.rowWidth in Hw. rewrite Hks in Hw. lia.
  - unfold ret in H. simplify_eq. exists R. split_and!; [done|done|lia|done|done].
Qed.




(** * The claims *)

(** C1 (top-left promotion): in both files, whatever key of a reachable
    layout is pressed, [sortKeys] completes and [getKeyPos] then finds the
    key at row 0, column 0. *)
Theorem top_left_promotion :
  (∀ (m : Machine unit) (k : Key),
     Autosort.reachable m → k ∈ allKeys (keyRows m) →
     ∃ m', Autosort.sortKeys k m = (Normal tt, m')
           ∧ getKeyPos k m' = (Normal (Some (0, 0)%nat), m'))
  ∧ (∀ (m : Machine Z) (k : Key),
       Budget.reachable m → k ∈ allKeys (keyRows m) →
       ∃ m', Budget.sortKeys k m = (Normal tt, m')
             ∧ getKeyPos k m' = (Normal (Some (0, 0)%nat), m')).
Proof.
  split.
  - intros [rows t] k Hr Hk. cbn [keyRows] in Hk.
    destruct (autosort_invariant _ Hr) as (Hwf & (R0 & HR0 & Hne) & _).
    destruct (present_scan rows k Hk) as (oldRow & oldCol & Hscan).
    destruct (autosort_top_left rows t k oldRow oldCol R0 Hwf Hscan HR0 Hne)
      as (rows' & t' & Hrun & Hscan').
    eexists. split; [exact Hrun|]. by apply getKeyPos_found.
  - intros [rows t] k Hr Hk. cbn [keyRows] in Hk.
    destruct (budget_invariant _ Hr) as (Hwf & Hb & _).
    pose proof (budget_widths_fit _ k Hr Hk) as Hfit.
    destruct (present_scan rows k Hk) as (oldRow & oldCol & Hscan).
    cbn [keyRows] in *.
    destruct (budget_run rows t k oldRow oldCol Hwf) as
      (rows' & t' & Hrun & _ & _ & _ & _ & Hhd); [|done|].
    { unfold budgetsNonneg. rewrite Hb. repeat constructor; lia. }
    eexists. split; [exact Hrun|]. apply getKeyPos_found.
    destruct rows as [|R0 rows]; [done|]. apply (Hhd R0); [done|].
    injection Hb as -> _. done.
Qed.

Lemma top_left_promotion_witness :
  ∃ m', Autosort.sortKeys key_m Autosort.Keyboard_new = (Normal tt, m')
        ∧ getKeyPos key_m m' = (Normal (Some (0, 0)%nat), m').
Proof.
  apply (proj1 top_left_promotion); [constructor|compute_done].
Defined.

(** C2 (partition invariant): [moveKey] called on the slot that holds the
    key keeps the keys of the layout, without duplicates; every reachable
    layout of either file holds exactly the keys of the fresh keyboard, each
    in one slot only, and a press on any of them completes and keeps the
    keys. *)
Theorem partition_invariant :
  (∀ (B : Type) (rows : list (KeyboardRow B)) (t : list Event) (k : Key)
     (fromRow fromCol toRow : nat) (toCol : Z),
     wellFormed rows →
     getKey rows (Z.of_nat fromRow) (Z.of_nat fromCol) = JKey k →
     (toRow < length rows)%nat →
     ∃ m', moveKey (Some k) (Z.of_nat fromRow) (Z.of_nat fromCol)
             (Z.of_nat toRow) toCol (mkMachine rows t) = (Normal tt, m')
           ∧ allKeys (keyRows m') ≡ₚ allKeys rows
           ∧ NoDup (allKeys (keyRows m')))
  ∧ (∀ (m : Machine unit),
       Autosort.reachable m →
       partitioned (keyRows Autosort.Keyboard_new) (keyRows m)
       ∧ ∀ k, k ∈ allKeys (keyRows m) →
           ∃ m', Autosort.sortKeys k m = (Normal tt, m')
                 ∧ allKeys (keyRows m') ≡ₚ allKeys (keyRows m))
  ∧ (∀ (m : Machine Z),
       Budget.reachable m →
       partitioned (keyRows Budget.Keyboard_new) (keyRows m)
       ∧ ∀ k, k ∈ allKeys (keyRows m) →
           ∃ m', Budget.sortKeys k m = (Normal tt, m')
                 ∧ allKeys (keyRows m') ≡ₚ allKeys (keyRows m)).
Proof.
  split_and!.
  - intros B rows t k fr fc tr tc Hwf Hk Htr.
    apply getKey_JKey in Hk as (_ & _ & R & HR & Hk). rewrite !Nat2Z.id in *.
    destruct (moveKey_anywhere rows t k fr fc tr tc R Hwf HR Hk Htr)
      as (rows' & Hrun & Hp & _).
    eexists. split_and!; [exact Hrun|done|]. cbn [keyRows]. rewrite Hp.
    apply distinct_NoDup, Hwf.
  - intros [rows t] Hr.
    destruct (autosort_invariant _ Hr) as (Hwf & _ & Hp). cbn [keyRows] in *.
    split; [by apply wellFormed_partitioned|]. intros k Hk.
    destruct (present_scan rows k Hk) as (oldRow & oldCol & Hscan).
    destruct (autosort_run rows t k oldRow oldCol Hwf Hscan) as (Hrun & _ & Hp' & _).
    eexists. split; [exact Hrun|done].
  - intros [rows t] Hr.
    destruct (budget_invariant _ Hr) as (Hwf & Hb & Hp & _). cbn [keyRows] in *.
    split; [by apply wellFormed_partitioned|]. intros k Hk.
    destruct (present_scan rows k Hk) as (oldRow & oldCol & Hscan).
    destruct (budget_run rows t k oldRow oldCol Hwf) as
      (rows' & t' & Hrun & _ & Hp' & _); [|done|].
    { unfold budgetsNonneg. rewrite Hb. repeat constructor; lia. }
    eexists. split; [exact Hrun|done].
Qed.

Lemma partition_invariant_witness :
  (∃ m', moveKey (Some key_m) 2 6 0 0 Autosort.Keyboard_new = (Normal tt, m')
         ∧ allKeys (keyRows m') ≡ₚ allKeys (keyRows Autosort.Keyboard_new)
         ∧ NoDup (allKeys (keyRows m')))
  ∧ partitioned (keyRows Budget.Keyboard_new) (keyRows Budget.Keyboard_new).
Proof.
  split.
  - apply (proj1 partition_invariant unit (keyRows Autosort.Keyboard_new) []
             key_m 2%nat 6%nat 0%nat 0).
    + apply autosort_new_wellFormed.
    + reflexivity.
    + vm_compute. lia.
  - apply (proj2 (proj2 partition_invariant) Budget.Keyboard_new). constructor.
Defined.



(** C4, counterexample: on the fresh [autosort.js] keyboard a press on "m"
    does not bring "p" to row 1, column 0. *)
Lemma scenario_p_not_shed :
  ¬ ∃ m', Autosort.sortKeys key_m Autosort.Keyboard_new = (Normal tt, m')
          ∧ getKeyPos key_m m' = (Normal (Some (0, 0)%nat), m')
          ∧ getKeyPos key_p m' = (Normal (Some (1, 0)%nat), m').
Proof.
  intros (m' & Hrun & _ & Hp). vm_compute in Hrun. injection Hrun as <-.
  vm_compute in Hp. discriminate.
Qed.

(** C4, amended (scenario): "m" sits at row 2, column 6 of the fresh
    [autosort.js] keyboard; pressing it moves it to (0, 0), sheds the last key
    of the top row, the backspace key, to (1, 0) and the last key of the
    middle row, the enter key, to (2, 0); "p" ends at (0, 10) and all other
    keys keep their order. *)
Theorem scenario_press_m :
  getKey (keyRows Autosort.Keyboard_new) 2 6 = JKey key_m
  ∧ ∃ m', Autosort.sortKeys key_m Autosort.Keyboard_new = (Normal tt, m')
          ∧ labels (keyRows m')
            = [["m"; "q"; "w"; "e"; "r"; "t"; "y"; "u"; "i"; "o"; "p"];
               ["←"; "a"; "s"; "d"; "f"; "g"; "h"; "j"; "k"; "l"];
               ["↵"; "z"; "x"; "c"; "v"; "b"; "n"]]
          ∧ getKeyPos key_m m' = (Normal (Some (0, 0)%nat), m')
          ∧ getKeyPos key_p m' = (Normal (Some (0, 10)%nat), m')
          ∧ getKeyPos key_backspace m' = (Normal (Some (1, 0)%nat), m')
          ∧ getKeyPos key_enter m' = (Normal (Some (2, 0)%nat), m').
Proof.
  split; [reflexivity|]. eexists. split; [by vm_compute|].
  split_and!; by vm_compute.
Qed.

(** C5 (idempotence of re-press): in every reachable layout of either file,
    pressing the key that sits at row 0, column 0 completes and leaves every
    row as it was; [getKeyPos] still finds the key at (0, 0). *)
Theorem repress_is_noop :
  (∀ (m : Machine unit) (k : Key),
     Autosort.reachable m → getKey (keyRows m) 0 0 = JKey k →
     ∃ m', Autosort.sortKeys k m = (Normal tt, m')
           ∧ keyRows m' = keyRows m
           ∧ getKeyPos k m' = (Normal (Some (0, 0)%nat), m'))
  ∧ (∀ (m : Machine Z) (k : Key),
       Budget.reachable m → getKey (keyRows m) 0 0 = JKey k →
       ∃ m', Budget.sortKeys k m = (Normal tt, m')
             ∧ keyRows m' = keyRows m
             ∧ getKeyPos k m' = (Normal (Some (0, 0)%nat), m')).
Proof.
  assert (Hscan : ∀ B (rows : list (KeyboardRow B)) k,
             getKey rows 0 0 = JKey k → scanRows 0 rows k = Some (0, 0)%nat).
  { intros B rows k Hk. apply getKey_JKey in Hk as (_ & _ & R & HR & Hk).
    simpl in HR, Hk. destruct (keys R) as [|k' l] eqn:HkR; simplify_eq/=.
    by eapply scanRows_front. }
  split.
  - intros [rows t] k Hr Hk. cbn [keyRows] in Hk.
    destruct (autosort_invariant _ Hr) as (Hwf & _). cbn [keyRows] in Hwf.
    eexists. split_and!; [by apply autosort_repress|done|].
    apply getKeyPos_found. by apply Hscan.
  - intros [rows t] k Hr Hk. cbn [keyRows] in Hk.
    destruct (budget_invariant _ Hr) as (Hwf & _ & _ & Hin).
    cbn [keyRows] in Hwf, Hin.
    eexists. split_and!; [by apply budget_repress|done|].
    apply getKeyPos_found. by apply Hscan.
Qed.

Lemma repress_is_noop_witness :
  ∃ m', Budget.sortKeys (Budget.Key_new "q" None 0%nat) Budget.Keyboard_new
        = (Normal tt, m')
        ∧ keyRows m' = keyRows Budget.Keyboard_new
        ∧ getKeyPos (Budget.Key_new "q" None 0%nat) m'
          = (Normal (Some (0, 0)%nat), m').
Proof.
  apply (proj2 repress_is_noop); [constructor|reflexivity].
Defined.

(** C6 (row-count policy): in a reachable layout of [autosort.js], a press on
    the key found at [(oldRow, oldCol)] first promotes the key, which is then
    at (0, 0) in the keys and in the DOM, and then makes exactly [oldRow] further calls of [moveKey],
    one for each row [i < oldRow] in increasing order.  The [i]-th of them
    takes the key that is last in row [i] when its turn comes, out of the
    keys and the DOM children of that row, and puts it at column 0 of row
    [i + 1], in front of that row's keys and children; no other row changes.
    The layout after these [oldRow] sheds is the layout the press leaves, with
    the pressed key still at (0, 0). *)
Theorem row_count_moves (m : Machine unit) (k : Key) (oldRow oldCol : nat) :
  Autosort.reachable m →
  getKeyPos k m = (Normal (Some (oldRow, oldCol)), m) →
  ∃ m0 m' calls,
    moveKey (Some k) (Z.of_nat oldRow) (Z.of_nat oldCol) 0 0 m = (Normal tt, m0)
    ∧ getKey (keyRows m0) 0 0 = JKey k
    ∧ mirrored (keyRows m0)
    ∧ Autosort.sortKeys k m = (Normal tt, m')
    ∧ mirrored (keyRows m')
    ∧ trace m'
      = trace m ++ MoveKeyCall (Some k) (Z.of_nat oldRow) (Z.of_nat oldCol) 0 0
                   :: calls
    ∧ length calls = oldRow
    ∧ (moveKey (Some k) (Z.of_nat oldRow) (Z.of_nat oldCol) 0 0 >>
       forLoop oldRow 0 shedLast) m = (Normal tt, m')
    ∧ getKey (keyRows m') 0 0 = JKey k
    ∧ ∀ i, (i < oldRow)%nat →
        ∃ mi mi' R R' T T' x,
          (moveKey (Some k) (Z.of_nat oldRow) (Z.of_nat oldCol) 0 0 >>
           forLoop i 0 shedLast) m = (Normal tt, mi)
          ∧ keyRows mi !! i = Some R
          ∧ last (keys R) = Some x
          ∧ calls !! i
            = Some (MoveKeyCall (Some x) (Z.of_nat i)
                      (Z.of_nat (length (keys R)) - 1) (Z.of_nat i + 1) 0)
          ∧ (moveKey (Some k) (Z.of_nat oldRow) (Z.of_nat oldCol) 0 0 >>
             forLoop (S i) 0 shedLast) m = (Normal tt, mi')
          ∧ keyRows mi' !! i = Some R'
          ∧ keys R = keys R' ++ [x]
          ∧ rowEl R = rowEl R' ++ [keyEl x]
          ∧ getKey (keyRows mi') (Z.of_nat i + 1) 0 = JKey x
          ∧ keyRows mi !! S i = Some T
          ∧ keyRows mi' !! S i = Some T'
          ∧ keys T' = x :: keys T
          ∧ rowEl T' = keyEl x :: rowEl T
          ∧ ∀ j, j ≠ i → j ≠ S i → keyRows mi' !! j = keyRows mi !! j.
Proof.
  intros Hr Hpos.
  destruct (autosort_invariant _ Hr) as (Hwf & (R0 & HR0 & Hne0) & _).
  destruct m as [rows t]. cbn [keyRows trace] in *.
  assert (Hscan : scanRows 0 rows k = Some (oldRow, oldCol)).
  { unfold getKeyPos in Hpos. cbn [keyRows] in Hpos.
    destruct (scanRows 0 rows k) as [pos|].
    - unfold ret in Hpos. by simplify_eq.
    - unfold bind, emit, ret in Hpos. by simplify_eq/=. }
  destruct (scanRows_Some _ _ _ _ _ Hscan) as (Rk & _ & HRk & Hk).
  rewrite Nat.sub_0_r in HRk.
  assert (HlenR : (oldRow < length rows)%nat) by (by eapply lookup_lt_Some).
  destruct (autosort_calls rows t k oldRow oldCol Hwf Hscan)
    as (rows' & calls & Hrun & Hlen & Hcalls).
  destruct (autosort_top_left rows t k oldRow oldCol R0 Hwf Hscan HR0 Hne0)
    as (rows'' & t'' & Hrun' & Hscan').
  rewrite Hrun in Hrun'. injection Hrun' as <- _.
  destruct (moved_front k oldRow oldCol rows ltac:(lia)) as [T0 HT0].
  assert (Hwf1 : wellFormed (moved k oldRow oldCol 0 rows))
    by (eapply moved_wellFormed; [done..|lia]).
  pose proof (moveKey_front rows t k oldRow oldCol 0%nat Rk Hwf HRk Hk
                ltac:(lia)) as Hmove.
  change (Z.of_nat 0) with 0 in Hmove.
  eexists _, _, calls.
  split_and!; [exact Hmove| |apply Hwf1|exact Hrun| |done|done| | |].
  - apply getKey_JKey. split_and!; [done..|]. by exists (withFront k T0).
  - destruct (autosort_run rows t k oldRow oldCol Hwf Hscan)
      as (Hrun2 & Hwf2 & _).
    rewrite Hrun in Hrun2. injection Hrun2 as -> _. apply Hwf2.
  - destruct (forLoop_shed oldRow 0 (moved k oldRow oldCol 0 rows)
                (t ++ [MoveKeyCall (Some k) (Z.of_nat oldRow) (Z.of_nat oldCol)
                         0 0]) Hwf1)
      as (Hloop & _); [rewrite moved_length; lia|by exists (withFront k T0)|].
    change (Z.of_nat 0) with 0 in Hloop. mrun (exact Hmove). rewrite Hloop.
    destruct (autosort_run rows t k oldRow oldCol Hwf Hscan) as (Hrun2 & _).
    rewrite Hrun in Hrun2. injection Hrun2 as -> Ht.
    by rewrite Ht, <- (assoc_L (++)).
  - apply scanRows_Some in Hscan' as (R1 & _ & HR1 & Hk1).
    apply getKey_JKey. split_and!; [done..|]. by exists R1.
  - intros i Hi.
    destruct (Hcalls i Hi) as (rowsi & ti & R & x & H1 & H2 & H3 & H4).
    destruct (autosort_sheds rows t k oldRow oldCol i Hwf Hscan Hi)
      as (rowsi' & ti' & R' & T & ks & x' & G1 & G2 & G3 & G4 & G5 & G6 & G7
          & G8 & G9 & G10).
    rewrite H1 in G1. injection G1 as <- <-.
    rewrite H2 in G2. injection G2 as <-.
    rewrite G3, last_snoc in H3. injection H3 as ->.
    destruct (wellFormed_row _ _ _ G9 H2) as [HmR _].
    eexists _, _, R, _, T, _, x.
    split_and!; [exact H1|exact H2|by rewrite G3, last_snoc|exact H4|exact G5
                |exact G6|exact G3| | |exact G4|exact G7|done|done|exact G8].
    + rewrite HmR, G3, fmap_app. done.
    + apply getKey_JKey. split_and!; [lia|done|].
      exists (withFront x T). cbn [keyRows].
      replace (Z.to_nat (Z.of_nat i + 1)) with (S i) by lia. by split.
Qed.

Lemma row_count_moves_witness :
  ∃ m0 m' calls,
    moveKey (Some key_m) 2 6 0 0 Autosort.Keyboard_new = (Normal tt, m0)
    ∧ getKey (keyRows m0) 0 0 = JKey key_m
    ∧ mirrored (keyRows m0)
    ∧ Autosort.sortKeys key_m Autosort.Keyboard_new = (Normal tt, m')
    ∧ mirrored (keyRows m')
    ∧ trace m' = [] ++ MoveKeyCall (Some key_m) 2 6 0 0 :: calls
    ∧ length calls = 2%nat
    ∧ (moveKey (Some key_m) 2 6 0 0 >> forLoop 2 0 shedLast)
        Autosort.Keyboard_new = (Normal tt, m')
    ∧ getKey (keyRows m') 0 0 = JKey key_m
    ∧ ∀ i, (i < 2)%nat →
        ∃ mi mi' R R' T T' x,
          (moveKey (Some key_m) 2 6 0 0 >> forLoop i 0 shedLast)
            Autosort.Keyboard_new = (Normal tt, mi)
          ∧ keyRows mi !! i = Some R
          ∧ last (keys R) = Some x
          ∧ calls !! i
            = Some (MoveKeyCall (Some x) (Z.of_nat i)
                      (Z.of_nat (length (keys R)) - 1) (Z.of_nat i + 1) 0)
          ∧ (moveKey (Some key_m) 2 6 0 0 >> forLoop (S i) 0 shedLast)
              Autosort.Keyboard_new = (Normal tt, mi')
          ∧ keyRows mi' !! i = Some R'
          ∧ keys R = keys R' ++ [x]
          ∧ rowEl R = rowEl R' ++ [keyEl x]
          ∧ getKey (keyRows mi') (Z.of_nat i + 1) 0 = JKey x
          ∧ keyRows mi !! S i = Some T
          ∧ keyRows mi' !! S i = Some T'
          ∧ keys T' = x :: keys T
          ∧ rowEl T' = keyEl x :: rowEl T
          ∧ ∀ j, j ≠ i → j ≠ S i → keyRows mi' !! j = keyRows mi !! j.
Proof.
  apply (row_count_moves Autosort.Keyboard_new key_m 2 6);
    [constructor|reflexivity].
Defined.

(** C8 (lookup failure): for a key that is in no row, [getKeyPos] logs an
    error and returns [undefined] instead of a position; [sortKeys] then
    throws before any call of [moveKey], and every row is as it was. *)
Theorem missing_key_aborts (k : Key) :
  (∀ m : Machine unit,
     k ∉ allKeys (keyRows m) →
     getKeyPos k m
     = (Normal None, mkMachine (keyRows m) (trace m ++ [ConsoleError k]))
     ∧ ∃ m', Autosort.sortKeys k m = (Throw TypeError, m')
             ∧ keyRows m' = keyRows m
             ∧ trace m' = trace m ++ [ConsoleError k])
  ∧ (∀ m : Machine Z,
       k ∉ allKeys (keyRows m) →
       getKeyPos k m
       = (Normal None, mkMachine (keyRows m) (trace m ++ [ConsoleError k]))
       ∧ ∃ m', Budget.sortKeys k m = (Throw TypeError, m')
               ∧ keyRows m' = keyRows m
               ∧ trace m' = trace m ++ [ConsoleError k]).
Proof.
  split; intros [rows t] Hk; cbn [keyRows trace] in *.
  - split; [by apply getKeyPos_missing, scanRows_None|].
    eexists. by split_and!; [by apply autosort_missing|..].
  - split; [by apply getKeyPos_missing, scanRows_None|].
    eexists. by split_and!; [by apply budget_missing|..].
Qed.

Lemma missing_key_aborts_witness :
  ∃ m', Budget.sortKeys key_stray Budget.Keyboard_new = (Throw TypeError, m')
        ∧ keyRows m' = keyRows Budget.Keyboard_new
        ∧ trace m' = trace Budget.Keyboard_new ++ [ConsoleError key_stray].
Proof.
  apply (proj2 (missing_key_aborts key_stray) Budget.Keyboard_new).
  compute_done.
Defined.

(** C10 (the code against its own comment): asked for a column past the end
    of row 0 of the fresh keyboard, which holds 11 keys, [getKey] returns
    [undefined], not [null], in both files; a row or a negative column out
    of bounds gives [null]. *)
Theorem getKey_past_row_end :
  getKey (keyRows Autosort.Keyboard_new) 0 11 = JUndefined
  ∧ getKey (keyRows Budget.Keyboard_new) 0 11 = JUndefined
  ∧ getKey (keyRows Autosort.Keyboard_new) 0 (-1) = JNull
  ∧ getKey (keyRows Autosort.Keyboard_new) 3 0 = JNull.
Proof. by split_and!. Qed.

(** C7 (termination): [sortKeys] always returns, in both files, on any
    state: the [while] loop of the width-budget reflow never needs more tests
    than the row has keys, plus one.  Each shed removes the last key of the
    row, so with positive widths the row gets narrower by the width of that
    key; this is stated for rows whose total width is at most [2 ^ 53], the
    range in which the sum that [rowWidth()] computes on integer widths is
    the exact sum of this embedding.  A loop that completes leaves its row
    within budget; and the row-count reflow of a reachable layout makes
    exactly [oldRow] moves after the promotion. *)
Theorem reflow_terminates :
  (∀ (m : Machine Z) (k : Key), fst (Budget.sortKeys k m) ≠ OutOfFuel)
  ∧ (∀ (m : Machine unit) (k : Key), fst (Autosort.sortKeys k m) ≠ OutOfFuel)
  ∧ (∀ (m : Machine Z) (i : Z) (fuel : nat) (R : KeyboardRow Z),
       lookupZ (keyRows m) i = Some R → (length (keys R) < fuel)%nat →
       fst (Budget.whileTooWide fuel i m) ≠ OutOfFuel)
  ∧ (∀ (m m' : Machine Z) (i : Z) (R : KeyboardRow Z),
       positiveWidths (keyRows m) →
       lookupZ (keyRows m) i = Some R →
       Budget.rowWidth R ≤ 2 ^ 53 →
       shedLast i m = (Normal tt, m') →
       ∃ R' x, lookupZ (keyRows m') i = Some R'
               ∧ keys R = keys R' ++ [x]
               ∧ 0 < width x
               ∧ Budget.rowWidth R' = Budget.rowWidth R - width x
               ∧ Budget.rowWidth R' < Budget.rowWidth R)
  ∧ (∀ (m m' : Machine Z) (i : Z),
       Budget.reflowRow i m = (Normal tt, m') →
       ∃ R', lookupZ (keyRows m') i = Some R'
             ∧ Budget.rowWidth R' ≤ defaultRowWidth R')
  ∧ (∀ (m : Machine unit) (k : Key) (oldRow oldCol : nat),
       Autosort.reachable m →
       getKeyPos k m = (Normal (Some (oldRow, oldCol)), m) →
       ∃ m' calls,
         Autosort.sortKeys k m = (Normal tt, m')
         ∧ trace m'
           = trace m
             ++ MoveKeyCall (Some k) (Z.of_nat oldRow) (Z.of_nat oldCol) 0 0
                :: calls
         ∧ length calls = oldRow).
Proof.
  split_and!.
  - intros m k. apply terminates_budget_sortKeys.
  - intros m k. apply terminates_autosort_sortKeys.
  - intros m i fuel R HR Hfuel. apply whileTooWide_terminates; [lia|].
    intros R' HR'. rewrite HR in HR'. by injection HR' as <-.
  - intros m m' i R Hpos HR _ Hs.
    apply shedLast_inv in Hs as (R0 & R' & x & HR0 & HR' & Hk & _).
    rewrite HR in HR0. injection HR0 as <-.
    assert (0 < width x).
    { unfold positiveWidths in Hpos. rewrite Forall_forall in Hpos. apply Hpos.
      apply lookupZ_Some in HR as [_ HR]. apply elem_of_allKeys.
      exists (Z.to_nat i), R. split; [done|]. rewrite Hk.
      apply elem_of_app. right. by left. }
    assert (Budget.rowWidth R' = Budget.rowWidth R - width x).
    { unfold Budget.rowWidth. rewrite Hk, keysWidth_app, keysWidth_cons.
      unfold Budget.keysWidth at 3. simpl. lia. }
    exists R', x. split_and!; [done..|lia].
  - intros m m' i H. unfold Budget.reflowRow in H.
    apply bind_Normal_inv in H as (R & ? & HR & H).
    by apply whileTooWide_exit in H as [H _].
  - intros [rows t] k oldRow oldCol Hr Hpos.
    destruct (autosort_invariant _ Hr) as (Hwf & _). cbn [keyRows trace] in *.
    assert (Hscan : scanRows 0 rows k = Some (oldRow, oldCol)).
    { unfold getKeyPos in Hpos. cbn [keyRows] in Hpos.
      destruct (scanRows 0 rows k) as [pos|].
      - unfold ret in Hpos. by simplify_eq.
      - unfold bind, emit, ret in Hpos. by simplify_eq/=. }
    destruct (autosort_calls rows t k oldRow oldCol Hwf Hscan)
      as (rows' & calls & Hrun & Hlen & _).
    by eexists _, calls.
Qed.

(** The press on the space bar of the fresh four-row keyboard, once the key
    has been promoted: the top row is 800 wide against a budget of 600. *)
Lemma reflow_terminates_witness :
  (∃ R' x,
     lookupZ
       (keyRows (snd (shedLast 0
                        (snd (moveKey (Some key_space) 3 0 0 0
                                Budget.Keyboard_new))))) 0 = Some R'
     ∧ keys (default (mkRow [] [] 0)
               (keyRows (snd (moveKey (Some key_space) 3 0 0 0
                                Budget.Keyboard_new)) !! 0%nat))
       = keys R' ++ [x]
     ∧ 0 < width x
     ∧ Budget.rowWidth R' = 800 - width x
     ∧ Budget.rowWidth R' < 800)
  ∧ (∃ R', lookupZ
             (keyRows (snd (Budget.reflowRow 0
                              (snd (moveKey (Some key_space) 3 0 0 0
                                      Budget.Keyboard_new))))) 0 = Some R'
           ∧ Budget.rowWidth R' ≤ defaultRowWidth R'
           ∧ length (keys R') = 9%nat).
Proof.
  split.
  - destruct (proj1 (proj2 (proj2 (proj2 reflow_terminates)))
                (snd (moveKey (Some key_space) 3 0 0 0 Budget.Keyboard_new))
                (snd (shedLast 0
                        (snd (moveKey (Some key_space) 3 0 0 0
                                Budget.Keyboard_new))))
                0
                (default (mkRow [] [] 0)
                   (keyRows (snd (moveKey (Some key_space) 3 0 0 0
                                    Budget.Keyboard_new)) !! 0%nat)))
      as (R' & x & HR' & Hk & Hx & Heq & Hlt).
    + unfold positiveWidths. compute_done.
    + reflexivity.
    + vm_compute. discriminate.
    + reflexivity.
    + exists R', x. split_and!; [exact HR'|exact Hk|exact Hx|exact Heq|exact Hlt].
  - destruct (proj1 (proj2 (proj2 (proj2 (proj2 reflow_terminates))))
                (snd (moveKey (Some key_space) 3 0 0 0 Budget.Keyboard_new))
                (snd (Budget.reflowRow 0
                        (snd (moveKey (Some key_space) 3 0 0 0
                                Budget.Keyboard_new))))
                0) as (R' & HR' & Hw).
    + reflexivity.
    + exists R'. split_and!; [exact HR'|exact Hw|].
      vm_compute in HR'. injection HR' as <-. reflexivity.
Defined.


(** C9 (equal widths): on a layout whose keys all have one positive width
    [w] and whose rows are exactly as wide as their budgets, the width-budget
    press and the row-count press are the same computation: same completion,
    same final layout, same calls of [moveKey].  The layout they leave meets
    the same conditions again, so this holds for every further press. *)
Theorem equal_widths_policies_agree (w : Z) (m : Machine Z) (k : Key) :
  0 < w →
  wellFormed (keyRows m) → uniformWidth w (keyRows m) → atBudget (keyRows m) →
  Budget.sortKeys k m = Autosort.sortKeys k m
  ∧ ∀ c m', Autosort.sortKeys k m = (c, m') →
            wellFormed (keyRows m')
            ∧ uniformWidth w (keyRows m')
            ∧ atBudget (keyRows m').
Proof.
  destruct m as [rows t]. cbn [keyRows]. intros Hw Hwf Hu Hat.
  by apply (equal_widths_same_press w Hw rows t k).
Qed.

Lemma equal_widths_policies_agree_witness :
  Budget.sortKeys (Budget.Key_new "z" None 5%nat) lettersOnly
  = Autosort.sortKeys (Budget.Key_new "z" None 5%nat) lettersOnly
  ∧ ∀ c m',
      Autosort.sortKeys (Budget.Key_new "z" None 5%nat) lettersOnly = (c, m') →
      wellFormed (keyRows m')
      ∧ uniformWidth 50 (keyRows m')
      ∧ atBudget (keyRows m').
Proof.
  apply (equal_widths_policies_agree 50 lettersOnly).
  - lia.
  - split; [unfold mirrored; vm_compute; repeat constructor|].
    unfold distinct. compute_done.
  - unfold uniformWidth. compute_done.
  - unfold atBudget. compute_done.
Defined.


(** * Further properties of the code *)

(** ** [getKey] and [getKeyPos] *)

(** X1 ([getKey], bounds): [getKey] returns [null] exactly for a row out of
    range or a negative column, [undefined] exactly for a column at or past
    the end of a valid row, and otherwise the key stored in the slot. *)
Theorem getKey_cases {B} (rows : list (KeyboardRow B)) (row col : Z) :
  (getKey rows row col = JNull
   ↔ row < 0 ∨ Z.of_nat (length rows) ≤ row ∨ col < 0)
  ∧ (getKey rows row col = JUndefined
     ↔ 0 ≤ row ∧ ∃ R, rows !! Z.to_nat row = Some R
                      ∧ Z.of_nat (length (keys R)) ≤ col)
  ∧ (∀ k, getKey rows row col = JKey k
          ↔ 0 ≤ row ∧ 0 ≤ col
            ∧ ∃ R, rows !! Z.to_nat row = Some R
                   ∧ keys R !! Z.to_nat col = Some k).
Proof.
  split_and!; [| |intros k; apply getKey_JKey].
  - unfold getKey, KeyboardRow_length, js_ge, lookupZ. rewrite orb_false_r.
    split.
    + intros H. repeat case_bool_decide; simpl in H; try lia.
      destruct (rows !! Z.to_nat row) as [R|] eqn:HR.
      * destruct (keys R !! Z.to_nat col); discriminate.
      * apply lookup_ge_None in HR. lia.
    + intros H. repeat case_bool_decide; simpl; try done; try lia;
        by destruct (rows !! Z.to_nat row).
  - unfold getKey, KeyboardRow_length, js_ge, lookupZ. rewrite orb_false_r.
    split.
    + intros H. repeat case_bool_decide; simpl in H; try done;
        destruct (rows !! Z.to_nat row) as [R|] eqn:HR; try done;
        destruct (keys R !! Z.to_nat col) eqn:Hk; try done.
      apply lookup_ge_None in Hk. split; [lia|]. exists R. split; [done|lia].
    + intros (Hr & R & HR & Hc).
      assert (Z.to_nat row < length rows)%nat by (by eapply lookup_lt_Some).
      rewrite !bool_decide_eq_false_2 by lia. simpl. rewrite HR.
      rewrite lookup_ge_None_2 by lia. done.
Qed.

Lemma scanRows_first {B} (rows : list (KeyboardRow B)) (k : Key) : ∀ n r c,
  scanRows n rows k = Some (r, c) →
  ∀ r' c' R', rows !! r' = Some R' → keys R' !! c' = Some k →
              (r - n < r')%nat ∨ ((r - n)%nat = r' ∧ (c ≤ c')%nat).
Proof.
  induction rows as [|R rows IH]; intros n r c Hs r' c' R' HR' Hk'; [done|].
  simpl in Hs. destruct (findIndex k (keys R)) as [j|] eqn:Hf.
  - injection Hs as Hn Hj. subst r c. rewrite Nat.sub_diag.
    destruct r' as [|r']; [|left; lia]. right. split; [done|].
    simpl in HR'. injection HR' as HRR. subst R'.
    unfold findIndex in Hf.
    destruct (list_find _ (keys R)) as [[i y]|] eqn:Hl; [|done].
    injection Hf as Hi. subst i. apply list_find_Some in Hl as (_ & _ & Hmin).
    destruct (decide (j ≤ c')%nat); [done|].
    exfalso. apply (Hmin c' k); [done|lia|done].
  - apply findIndex_None in Hf. destruct r' as [|r'].
    + simpl in HR'. injection HR' as HRR. subst R'. exfalso. apply Hf.
      by eapply list_elem_of_lookup_2.
    + pose proof (scanRows_Some _ _ _ _ _ Hs) as (_ & Hge & _).
      destruct (IH _ _ _ Hs r' c' R' HR' Hk') as [Hlt|[Heq Hle]].
      * left. lia.
      * right. split; [lia|done].
Qed.

(** X2 ([getKeyPos] against [getKey]): the position that [getKeyPos] returns
    holds the key and is the first such slot in reading order; a key is
    found exactly when it is in some row; and where no key occurs twice,
    [getKeyPos] gives back the slot that [getKey] was read from. *)
Theorem getKeyPos_getKey {B} (m : Machine B) (k : Key) :
  (∀ r c m', getKeyPos k m = (Normal (Some (r, c)), m') →
     m' = m
     ∧ getKey (keyRows m) (Z.of_nat r) (Z.of_nat c) = JKey k
     ∧ ∀ r' c', getKey (keyRows m) r' c' = JKey k →
                Z.of_nat r < r' ∨ (Z.of_nat r = r' ∧ Z.of_nat c ≤ c'))
  ∧ (k ∈ allKeys (keyRows m)
     ↔ ∃ r c, getKeyPos k m = (Normal (Some (r, c)), m))
  ∧ (NoDup (allKeys (keyRows m)) →
     ∀ r c, getKey (keyRows m) r c = JKey k →
            getKeyPos k m = (Normal (Some (Z.to_nat r, Z.to_nat c)), m)).
Proof.
  destruct m as [rows t]. cbn [keyRows].
  assert (Hinv : ∀ r c m', getKeyPos k (mkMachine rows t)
                           = (Normal (Some (r, c)), m') →
                           scanRows 0 rows k = Some (r, c)
                           ∧ m' = mkMachine rows t).
  { intros r c m' H. unfold getKeyPos in H. cbn [keyRows] in H.
    destruct (scanRows 0 rows k) as [pos|].
    - unfold ret in H. by simplify_eq.
    - unfold bind, emit, ret in H. by simplify_eq/=. }
  split_and!.
  - intros r c m' H. apply Hinv in H as [Hs ->]. split; [done|].
    pose proof (scanRows_Some _ _ _ _ _ Hs) as (R & _ & HR & Hk).
    rewrite Nat.sub_0_r in HR. split.
    + apply getKey_JKey. rewrite !Nat2Z.id. split_and!; [lia..|eauto].
    + intros r' c' H'. apply getKey_JKey in H' as (? & ? & R' & HR' & Hk').
      destruct (scanRows_first rows k 0 r c Hs _ _ _ HR' Hk') as [?|[? ?]]; lia.
  - split.
    + intros Hk. destruct (present_scan rows k Hk) as (r & c & Hs).
      exists r, c. by apply getKeyPos_found.
    + intros (r & c & H). apply Hinv in H as [Hs _].
      destruct (scanRows 0 rows k) eqn:Hs'; [|done].
      destruct (decide (k ∈ allKeys rows)) as [|Hn]; [done|].
      apply (scanRows_None 0) in Hn. congruence.
  - intros Hnd r c H. apply getKey_JKey in H as (? & ? & R & HR & Hk).
    assert (Hin : k ∈ allKeys rows).
    { apply elem_of_allKeys. exists (Z.to_nat r), R. split; [done|].
      by eapply list_elem_of_lookup_2. }
    destruct (present_scan rows k Hin) as (r0 & c0 & Hs).
    pose proof (scanRows_Some _ _ _ _ _ Hs) as (R0 & _ & HR0 & Hk0).
    rewrite Nat.sub_0_r in HR0.
    destruct (slot_unique rows _ _ _ _ R0 R k Hnd HR0 Hk0 HR Hk) as [-> ->].
    by apply getKeyPos_found.
Qed.

Lemma getKeyPos_getKey_witness :
  getKeyPos key_m Autosort.Keyboard_new
  = (Normal (Some (Z.to_nat 2, Z.to_nat 6)), Autosort.Keyboard_new).
Proof.
  apply (proj2 (proj2 (getKeyPos_getKey Autosort.Keyboard_new key_m))).
  - apply distinct_NoDup, autosort_new_wellFormed.
  - reflexivity.
Defined.

(** ** [moveKey] outside its precondition *)

(** X3 ([moveKey], bad arguments): called with an [undefined] key or with a
    source row that does not exist, [moveKey] throws a [TypeError] in its
    assertion, before it touched any row. *)
Theorem moveKey_bad_arguments {B} (m : Machine B) (key : option Key)
    (fromRow fromCol toRow toCol : Z) :
  key = None ∨ lookupZ (keyRows m) fromRow = None →
  ∃ m', moveKey key fromRow fromCol toRow toCol m = (Throw TypeError, m')
        ∧ keyRows m' = keyRows m.
Proof.
  intros H. unfold moveKey, bind, emit, getRow, deref, throw. cbn [keyRows trace].
  destruct (lookupZ (keyRows m) fromRow) as [R|] eqn:HR.
  - destruct H as [->|?]; [|done]. by eexists.
  - by eexists.
Qed.

Lemma moveKey_bad_arguments_witness :
  ∃ m', moveKey None 0 11 1 0 Autosort.Keyboard_new = (Throw TypeError, m')
        ∧ keyRows m' = keyRows Autosort.Keyboard_new.
Proof. apply moveKey_bad_arguments. by left. Defined.

(** X4 ([moveKey], key of another row): when the key's element is not a
    child of the source row's element, the assertion fails on the console,
    [removeChild] throws [NotFoundError], and no row has changed. *)
Theorem moveKey_foreign_key {B} (m : Machine B) (k : Key)
    (fromRow fromCol toRow toCol : Z) (R : KeyboardRow B) :
  lookupZ (keyRows m) fromRow = Some R →
  keyEl k ∉ rowEl R →
  moveKey (Some k) fromRow fromCol toRow toCol m
  = (Throw NotFoundError,
     mkMachine (keyRows m)
       (trace m ++ [MoveKeyCall (Some k) fromRow fromCol toRow toCol;
                    ConsoleAssert (children_item (rowEl R) fromCol) (keyEl k)])).
Proof.
  intros HR Hk. unfold moveKey, bind, emit, getRow, deref, throw, ret.
  cbn [keyRows trace]. rewrite HR.
  rewrite decide_False.
  2:{ intros Hc. apply Hk. apply lookupZ_Some in Hc as [_ Hc].
      by eapply list_elem_of_lookup_2. }
  cbn [keyRows trace]. rewrite HR.
  unfold removeChild.
  destruct (list_find (λ e, e = keyEl k) (rowEl R)) as [[i y]|] eqn:Hf.
  - apply list_find_Some in Hf as (Hi & -> & _). exfalso. apply Hk.
    by eapply list_elem_of_lookup_2.
  - by rewrite <- app_assoc.
Qed.

Lemma moveKey_foreign_key_witness :
  ∃ R, lookupZ (keyRows Autosort.Keyboard_new) 0 = Some R
       ∧ moveKey (Some key_m) 0 6 1 0 Autosort.Keyboard_new
         = (Throw NotFoundError,
            mkMachine (keyRows Autosort.Keyboard_new)
              (trace Autosort.Keyboard_new
               ++ [MoveKeyCall (Some key_m) 0 6 1 0;
                   ConsoleAssert (children_item (rowEl R) 6) (keyEl key_m)])).
Proof.
  eexists. split; [reflexivity|].
  apply moveKey_foreign_key; [reflexivity|]. compute_done.
Defined.

(** The run of [moveKey] when the key's element sits at column [c] of the
    source row's element and the caller says [fc]. *)
Lemma moveKey_at {B} (rows : list (KeyboardRow B)) t k (fr c fc : nat)
    (toRow toCol : Z) R :
  rows !! fr = Some R →
  NoDup (rowEl R) →
  rowEl R !! c = Some (keyEl k) →
  (fc < length (keys R))%nat →
  let says :=
    if decide (rowEl R !! fc = Some (keyEl k)) then []
    else [ConsoleAssert (rowEl R !! fc) (keyEl k)] in
  let rows1 :=
    <[fr := mkRow (delete c (rowEl R)) (delete fc (keys R)) (defaultRowWidth R)]>
      rows in
  let t1 :=
    t ++ MoveKeyCall (Some k) (Z.of_nat fr) (Z.of_nat fc) toRow toCol :: says in
  match lookupZ rows1 toRow with
  | None =>
      moveKey (Some k) (Z.of_nat fr) (Z.of_nat fc) toRow toCol (mkMachine rows t)
      = (Throw TypeError, mkMachine rows1 t1)
  | Some T =>
      ∃ ch,
        moveKey (Some k) (Z.of_nat fr) (Z.of_nat fc) toRow toCol
          (mkMachine rows t)
        = (Normal tt,
           mkMachine
             (<[Z.to_nat toRow :=
                  mkRow ch (splice toCol 0 [k] (keys T)) (defaultRowWidth T)]>
                rows1) t1)
        ∧ (toCol = 0 → ch = keyEl k :: rowEl T)
  end.
Proof.
  intros HR Hnd Hel Hfc says rows1 t1.
  assert (Hfr : (fr < length rows)%nat) by (by eapply lookup_lt_Some).
  assert (Hprefix :
    ∀ (rest : M B unit),
      moveKey (Some k) (Z.of_nat fr) (Z.of_nat fc) toRow toCol (mkMachine rows t)
      = bind (getRow toRow) (λ newRow,
          match insertBefore (keyEl k) (children_item (rowEl newRow) toCol)
                  (rowEl newRow) with
          | Some ch =>
              setRow toRow (mkRow ch (keys newRow) (defaultRowWidth newRow))
          | None => throw NotFoundError
          end >>
          let* tr := getRow toRow in
          setRow toRow
            (mkRow (rowEl tr) (splice toCol 0 [k] (keys tr)) (defaultRowWidth tr)))
          (mkMachine rows1 t1)).
  { intros _. unfold moveKey, children_item.
    mrun reflexivity.
    mrun (by apply getRow_run).
    mrun reflexivity.
    rewrite lookupZ_of_nat.
    erewrite (bind_Normal _ _ _ tt (mkMachine rows (t ++ MoveKeyCall (Some k)
                (Z.of_nat fr) (Z.of_nat fc) toRow toCol :: says))).
    2:{ subst says. case_decide.
        - reflexivity.
        - unfold emit. cbn [keyRows trace]. by rewrite <- app_assoc. }
    mrun (by apply getRow_run).
    rewrite (removeChild_at _ c) by done.
    mrun reflexivity. rewrite Nat2Z.id.
    mrun (apply getRow_run; by apply list_lookup_insert_eq).
    mrun reflexivity. rewrite Nat2Z.id, list_insert_insert_eq.
    by rewrite splice_delete by done. }
  rewrite (Hprefix (ret tt)). clear Hprefix.
  destruct (lookupZ rows1 toRow) as [T|] eqn:HT.
  - destruct (insertBefore_item (rowEl T) (keyEl k) toCol) as (ch & Hch & Hch0).
    exists ch. split; [|done].
    pose proof (lookupZ_Some _ _ _ HT) as [Hto HT'].
    mrun (unfold getRow; cbn [keyRows]; by rewrite HT).
    rewrite Hch.
    mrun reflexivity.
    mrun (unfold getRow; cbn [keyRows]; unfold lookupZ;
          rewrite bool_decide_eq_false_2 by lia;
          rewrite list_lookup_insert_eq by (by eapply lookup_lt_Some);
          reflexivity).
    unfold setRow. cbn [keyRows trace rowEl keys defaultRowWidth].
    by rewrite list_insert_insert_eq.
  - unfold bind, getRow. cbn [keyRows]. by rewrite HT.
Qed.

(** X5 ([moveKey], missing target row): the key is taken out of its row
    before the target row is read, so a target row that does not exist makes
    [moveKey] throw with the key already gone from the layout; all other
    keys are still there. *)
Theorem moveKey_missing_target {B} (rows : list (KeyboardRow B))
    (t : list Event) (k : Key) (fromRow fromCol : nat) (toRow toCol : Z)
    (R : KeyboardRow B) :
  wellFormed rows →
  rows !! fromRow = Some R → keys R !! fromCol = Some k →
  toRow < 0 ∨ Z.of_nat (length rows) ≤ toRow →
  ∃ m', moveKey (Some k) (Z.of_nat fromRow) (Z.of_nat fromCol) toRow toCol
          (mkMachine rows t) = (Throw TypeError, m')
        ∧ keyRows m' = <[fromRow := without fromCol R]> rows
        ∧ (k ∉ allKeys (keyRows m'))
        ∧ (allKeys rows ≡ₚ k :: allKeys (keyRows m')).
Proof.
  intros Hwf HR Hk Hto.
  destruct (wellFormed_row _ _ _ Hwf HR) as [Hmir Hnd].
  assert (Hel : rowEl R !! fromCol = Some (keyEl k)).
  { rewrite Hmir, list_lookup_fmap, Hk. done. }
  pose proof (moveKey_at rows t k fromRow fromCol fromCol toRow toCol R
                HR Hnd Hel ltac:(by eapply lookup_lt_Some)) as Hrun.
  cbv zeta in Hrun.
  assert (Hnone : lookupZ (<[fromRow := without fromCol R]> rows) toRow = None).
  { unfold lookupZ. case_bool_decide; [done|].
    apply lookup_ge_None. rewrite length_insert. lia. }
  unfold without in Hnone. rewrite Hnone in Hrun.
  eexists. split; [exact Hrun|]. cbn [keyRows]. fold (without fromCol R).
  assert (Hperm : allKeys rows ≡ₚ k :: allKeys (<[fromRow := without fromCol R]> rows)).
  { apply (allKeys_insert_less _ _ R); [done|]. simpl.
    by apply delete_Permutation. }
  split_and!; [done| |done].
  intros Hin. destruct Hwf as [_ Hd]. apply distinct_NoDup in Hd.
  rewrite Hperm in Hd. by apply NoDup_cons in Hd as [? _].
Qed.

Lemma moveKey_missing_target_witness :
  ∃ R m', keyRows Autosort.Keyboard_new !! 2%nat = Some R
          ∧ moveKey (Some key_m) (Z.of_nat 2) (Z.of_nat 6) 3 0
              (mkMachine (keyRows Autosort.Keyboard_new) [])
            = (Throw TypeError, m')
          ∧ keyRows m' = <[2%nat := without 6 R]> (keyRows Autosort.Keyboard_new)
          ∧ (key_m ∉ allKeys (keyRows m'))
          ∧ (allKeys (keyRows Autosort.Keyboard_new)
             ≡ₚ key_m :: allKeys (keyRows m')).
Proof.
  eexists.
  destruct (moveKey_missing_target (keyRows Autosort.Keyboard_new) [] key_m
              2 6 3 0 _ autosort_new_wellFormed eq_refl eq_refl)
    as (m' & H).
  { right. vm_compute. discriminate. }
  exists m'. split; [reflexivity|exact H].
Defined.

Lemma delete_other_elem {A} (l : list A) (i j : nat) (x : A) :
  l !! j = Some x → i ≠ j → x ∈ delete i l.
Proof.
  intros Hj Hne. destruct (decide (j < i)%nat).
  - apply list_elem_of_lookup. exists j. by rewrite list_lookup_delete_lt.
  - apply list_elem_of_lookup. exists (j - 1)%nat.
    rewrite list_lookup_delete_ge by lia.
    by replace (S (j - 1)) with j by lia.
Qed.

Lemma delete_own_elem {A} (l : list A) (i : nat) (x : A) :
  NoDup l → l !! i = Some x → x ∉ delete i l.
Proof.
  intros Hnd Hi Hin. rewrite (delete_Permutation l i x Hi) in Hnd.
  by apply NoDup_cons in Hnd as [? _].
Qed.

(** X6 ([moveKey], wrong column): called with the right row but the column of
    another key [y], [moveKey] reports the failed assertion and still
    completes: the DOM loses the element of [k] from the source row, the
    model loses [y] instead.  Afterwards [y] is in no row, [k] is in two
    slots, and the DOM no longer mirrors the model. *)
Theorem moveKey_wrong_column {B} (rows : list (KeyboardRow B))
    (t : list Event) (k y : Key) (fromRow c fromCol toRow : nat)
    (R : KeyboardRow B) :
  wellFormed rows →
  rows !! fromRow = Some R →
  keys R !! c = Some k → keys R !! fromCol = Some y → fromCol ≠ c →
  (toRow < length rows)%nat →
  ∃ m', moveKey (Some k) (Z.of_nat fromRow) (Z.of_nat fromCol)
          (Z.of_nat toRow) 0 (mkMachine rows t) = (Normal tt, m')
        ∧ trace m'
          = t ++ [MoveKeyCall (Some k) (Z.of_nat fromRow) (Z.of_nat fromCol)
                    (Z.of_nat toRow) 0;
                  ConsoleAssert (Some (keyEl y)) (keyEl k)]
        ∧ (y ∉ allKeys (keyRows m'))
        ∧ ¬ NoDup (allKeys (keyRows m'))
        ∧ ¬ mirrored (keyRows m').
Proof.
  intros Hwf HR Hk Hy Hne Hto.
  destruct (wellFormed_row _ _ _ Hwf HR) as [Hmir Hnd].
  pose proof Hwf as [Hm Hd]. apply distinct_NoDup in Hd.
  assert (Hel : rowEl R !! c = Some (keyEl k))
    by (by rewrite Hmir, list_lookup_fmap, Hk).
  assert (Hely : rowEl R !! fromCol = Some (keyEl y))
    by (by rewrite Hmir, list_lookup_fmap, Hy).
  assert (Hyk : keyEl y ≠ keyEl k).
  { intros Heq. rewrite <- Heq in Hel.
    by pose proof (NoDup_lookup _ _ _ _ Hnd Hel Hely). }
  pose proof (moveKey_at rows t k fromRow c fromCol (Z.of_nat toRow) 0 R
                HR Hnd Hel ltac:(by eapply lookup_lt_Some)) as Hrun.
  cbv zeta in Hrun. rewrite lookupZ_of_nat, Nat2Z.id in Hrun.
  set (R1 := mkRow (delete c (rowEl R)) (delete fromCol (keys R))
               (defaultRowWidth R)) in *.
  destruct (lookup_lt_is_Some_2 (<[fromRow := R1]> rows) toRow) as [T HT].
  { by rewrite length_insert. }
  rewrite HT in Hrun. destruct Hrun as (ch & Hrun & Hch).
  rewrite (Hch eq_refl), splice_push_front in Hrun.
  rewrite Hely, decide_False in Hrun by congruence.
  assert (Hp1 : allKeys rows ≡ₚ y :: allKeys (<[fromRow := R1]> rows)).
  { apply (allKeys_insert_less _ _ R); [done|]. simpl.
    by apply delete_Permutation. }
  set (rows2 := <[toRow := mkRow (keyEl k :: rowEl T) (k :: keys T)
                             (defaultRowWidth T)]> (<[fromRow := R1]> rows)) in *.
  assert (Hp2 : allKeys rows2 ≡ₚ k :: allKeys (<[fromRow := R1]> rows)).
  { by apply (allKeys_insert_more _ _ T). }
  assert (Hky : k ≠ y) by congruence.
  assert (Hk1 : k ∈ allKeys (<[fromRow := R1]> rows)).
  { assert (Hin : k ∈ allKeys rows).
    { apply elem_of_allKeys. exists fromRow, R. split; [done|].
      by eapply list_elem_of_lookup_2. }
    rewrite Hp1 in Hin. apply elem_of_cons in Hin as [?|?]; done. }
  eexists. split_and!; [exact Hrun|done| | |]; cbn [keyRows].
  - rewrite Hp2. rewrite Hp1 in Hd. apply NoDup_cons in Hd as [Hy1 _].
    intros Hin. apply elem_of_cons in Hin as [?|?]; done.
  - rewrite Hp2. intros Hnd2. by apply NoDup_cons in Hnd2 as [? _].
  - unfold mirrored. rewrite Forall_lookup. intros Hmir2.
    assert (Hbad : delete c (rowEl R) ≠ keyEl <$> delete fromCol (keys R)).
    { rewrite list_fmap_delete, <- Hmir. intros Heq.
      apply (delete_own_elem (rowEl R) fromCol (keyEl y) Hnd Hely).
      rewrite <- Heq. by apply (delete_other_elem _ _ fromCol). }
    destruct (decide (toRow = fromRow)) as [->|Hft].
    + rewrite list_lookup_insert_eq in HT by (by eapply lookup_lt_Some).
      injection HT as <-.
      pose proof (Hmir2 fromRow _ ltac:(subst rows2; apply list_lookup_insert_eq;
                    rewrite length_insert; by eapply lookup_lt_Some)) as Heq.
      simpl in Heq. by injection Heq.
    + apply Hbad.
      apply (Hmir2 fromRow R1). subst rows2.
      rewrite list_lookup_insert_ne by done.
      apply list_lookup_insert_eq. by eapply lookup_lt_Some.
Qed.

Lemma moveKey_wrong_column_witness :
  ∃ R m', keyRows Autosort.Keyboard_new !! 2%nat = Some R
          ∧ moveKey (Some key_m) (Z.of_nat 2) (Z.of_nat 0) (Z.of_nat 0) 0
              (mkMachine (keyRows Autosort.Keyboard_new) []) = (Normal tt, m')
          ∧ ¬ NoDup (allKeys (keyRows m')).
Proof.
  eexists.
  destruct (moveKey_wrong_column (keyRows Autosort.Keyboard_new) [] key_m
              (Autosort.Key_new "z" None 19%nat) 2 6 0 0 _
              autosort_new_wellFormed eq_refl eq_refl eq_refl)
    as (m' & Hrun & _ & _ & Hdup & _).
  { lia. }
  { vm_compute. lia. }
  exists m'. split; [reflexivity|]. split; [exact Hrun|exact Hdup].
Defined.


(** ** What no call ever changes: budgets and the number of rows *)

Lemma triple_bind {B A C} (P : Machine B → Prop) (c : M B A) (k : A → M B C)
    (Q : A → Machine B → Prop) (Q' : C → Machine B → Prop) E :
  triple P c Q E → (∀ a, triple (Q a) (k a) Q' E) → triple P (bind c k) Q' E.
Proof.
  intros Hc Hk m r m' HP Hrun. unfold bind in Hrun.
  destruct (c m) as [[a|e|] m1] eqn:Hcm.
  - apply (Hk a m1 r m'); [|done]. by apply (Hc m (Normal a) m1).
  - injection Hrun as <- <-. by apply (Hc m (Throw e) m1).
  - injection Hrun as <- <-. by apply (Hc m OutOfFuel m1).
Qed.

Section Budgets.
Context {B : Type}.
Variable bs : list B.

Lemma budgets_getRow (i : Z) :
  triple (hasBudgets bs) (getRow i)
    (λ R m, hasBudgets bs m ∧ lookupZ (keyRows m) i = Some R) (hasBudgets bs).
Proof.
  intros m r m' Hm Hrun. unfold getRow in Hrun.
  destruct (lookupZ (keyRows m) i) eqn:HR; by simplify_eq.
Qed.

Lemma budgets_getRow_any (i : Z) :
  triple (hasBudgets bs) (getRow i) (λ _, hasBudgets bs) (hasBudgets bs).
Proof.
  intros m r m' Hm Hrun. unfold getRow in Hrun.
  destruct (lookupZ (keyRows m) i) eqn:HR; by simplify_eq.
Qed.

Lemma budgets_setRow (i : Z) (R r : KeyboardRow B) :
  defaultRowWidth r = defaultRowWidth R →
  triple (λ m, hasBudgets bs m ∧ lookupZ (keyRows m) i = Some R) (setRow i r)
    (λ _, hasBudgets bs) (hasBudgets bs).
Proof.
  intros Hb m c m' [Hm HR] Hrun. unfold setRow in Hrun. simplify_eq.
  unfold hasBudgets, budgetsOf in *. cbn [keyRows].
  apply lookupZ_Some in HR as [_ HR].
  rewrite list_fmap_insert, Hb. rewrite list_insert_id; [done|].
  by rewrite list_lookup_fmap, HR.
Qed.

Lemma budgets_emit (ev : Event) :
  triple (hasBudgets bs) (emit ev) (λ _, hasBudgets bs) (hasBudgets bs).
Proof. intros m r m' Hm Hrun. unfold emit in Hrun. by simplify_eq. Qed.

Lemma budgets_ret {A} (a : A) :
  triple (hasBudgets bs) (ret a) (λ _, hasBudgets bs) (hasBudgets bs).
Proof. intros m r m' Hm Hrun. unfold ret in Hrun. by simplify_eq. Qed.

Lemma budgets_throw {A} (P : Machine B → Prop) (e : Error)
    (Q : A → Machine B → Prop) :
  (∀ m, P m → hasBudgets bs m) → triple P (throw e) Q (hasBudgets bs).
Proof. intros HP m r m' Hm Hrun. unfold throw in Hrun. simplify_eq. by apply HP. Qed.

Lemma budgets_moveKey key fromRow fromCol toRow toCol :
  triple (hasBudgets bs) (moveKey key fromRow fromCol toRow toCol)
    (λ _, hasBudgets bs) (hasBudgets bs).
Proof.
  unfold moveKey.
  eapply triple_bind; [apply budgets_emit|]. intros ?; cbv beta.
  eapply triple_bind; [apply budgets_getRow_any|]. intros fr.
  eapply triple_bind;
    [destruct key; [apply budgets_ret|by apply budgets_throw]|]. intros k.
  eapply triple_bind; [case_decide; [apply budgets_ret|apply budgets_emit]|].
  intros ?; cbv beta.
  eapply triple_bind; [apply budgets_getRow|]. intros fr1.
  eapply triple_bind;
    [case_match; [by apply budgets_setRow|apply budgets_throw; by intros ? [? _]]|].
  intros ?; cbv beta.
  eapply triple_bind; [apply budgets_getRow|]. intros fr2.
  eapply triple_bind; [by apply budgets_setRow|]. intros ?; cbv beta.
  eapply triple_bind; [apply budgets_getRow|]. intros newRow.
  eapply triple_bind;
    [case_match; [by apply budgets_setRow|apply budgets_throw; by intros ? [? _]]|].
  intros ?; cbv beta.
  eapply triple_bind; [apply budgets_getRow|]. intros tr.
  by apply budgets_setRow.
Qed.

Lemma budgets_shedLast (i : Z) :
  triple (hasBudgets bs) (shedLast i) (λ _, hasBudgets bs) (hasBudgets bs).
Proof.
  unfold shedLast. eapply triple_bind; [apply budgets_getRow_any|].
  intros R. apply budgets_moveKey.
Qed.

Lemma budgets_forLoop (body : Z → M B unit) n :
  (∀ i, triple (hasBudgets bs) (body i) (λ _, hasBudgets bs) (hasBudgets bs)) →
  ∀ i, triple (hasBudgets bs) (forLoop n i body) (λ _, hasBudgets bs)
         (hasBudgets bs).
Proof.
  intros Hb. induction n as [|n IH]; intros i; [apply budgets_ret|].
  cbn [forLoop]. eapply triple_bind; [apply Hb|]. intros ?; cbv beta. apply IH.
Qed.

Lemma budgets_getKeyPos k :
  triple (hasBudgets bs) (getKeyPos k) (λ _, hasBudgets bs) (hasBudgets bs).
Proof.
  intros m r m' Hm Hrun. unfold getKeyPos in Hrun.
  destruct (scanRows 0 (keyRows m) k).
  - unfold ret in Hrun. by simplify_eq.
  - unfold bind, emit, ret in Hrun. by simplify_eq/=.
Qed.

Lemma budgets_getFlexItemsInfo :
  triple (hasBudgets bs) getFlexItemsInfo (λ _, hasBudgets bs) (hasBudgets bs).
Proof. intros m r m' Hm Hrun. unfold getFlexItemsInfo in Hrun. by simplify_eq. Qed.

Lemma budgets_animate old new :
  triple (hasBudgets bs) (animateFlexItems old new) (λ _, hasBudgets bs)
    (hasBudgets bs).
Proof.
  intros m r m' Hm Hrun. apply animateFlexItems_state in Hrun as ->.
  by destruct r.
Qed.

Lemma budgets_autosort k :
  triple (hasBudgets bs) (Autosort.sortKeys k) (λ _, hasBudgets bs)
    (hasBudgets bs).
Proof.
  unfold Autosort.sortKeys.
  eapply triple_bind; [apply budgets_getKeyPos|].
  intros [[oldRow oldCol]|]; [|by apply budgets_throw].
  eapply triple_bind; [apply budgets_getFlexItemsInfo|]. intros old.
  eapply triple_bind; [apply budgets_moveKey|]. intros ?; cbv beta.
  eapply triple_bind; [apply budgets_forLoop, budgets_shedLast|]. intros ?; cbv beta.
  eapply triple_bind; [apply budgets_getFlexItemsInfo|]. intros new.
  apply budgets_animate.
Qed.

End Budgets.

Lemma budgets_whileTooWide (bs : list Z) (i : Z) (fuel : nat) :
  triple (hasBudgets bs) (Budget.whileTooWide fuel i) (λ _, hasBudgets bs)
    (hasBudgets bs).
Proof.
  induction fuel as [|fuel IH].
  - intros m r m' Hm Hrun. simpl in Hrun. unfold outOfFuel in Hrun.
    by simplify_eq.
  - cbn [Budget.whileTooWide].
    eapply triple_bind; [apply budgets_getRow_any|]. intros R.
    case_bool_decide; [|apply budgets_ret].
    eapply triple_bind; [apply budgets_shedLast|]. intros ?; cbv beta. apply IH.
Qed.

Lemma budgets_budget (bs : list Z) k :
  triple (hasBudgets bs) (Budget.sortKeys k) (λ _, hasBudgets bs)
    (hasBudgets bs).
Proof.
  unfold Budget.sortKeys.
  eapply triple_bind; [apply budgets_getKeyPos|].
  intros [[oldRow oldCol]|]; [|by apply budgets_throw].
  eapply triple_bind; [apply budgets_getFlexItemsInfo|]. intros old.
  eapply triple_bind; [apply budgets_moveKey|]. intros ?; cbv beta.
  eapply triple_bind.
  { intros m r m' Hm Hrun.
    eapply (budgets_forLoop bs Budget.reflowRow); [|exact Hm|exact Hrun].
    intros i. unfold Budget.reflowRow.
    eapply triple_bind; [apply budgets_getRow_any|]. intros R.
    apply budgets_whileTooWide. }
  intros ?; cbv beta.
  eapply triple_bind; [apply budgets_getFlexItemsInfo|]. intros new.
  apply budgets_animate.
Qed.

(** X7 (budgets are fixed): on any state and however the call ends,
    [moveKey] and the [sortKeys] of either file leave every row's
    [defaultRowWidth], and so the number of rows, as they were. *)
Theorem budgets_never_change :
  (∀ (B : Type) (m : Machine B) key fromRow fromCol toRow toCol r m',
     moveKey key fromRow fromCol toRow toCol m = (r, m') →
     budgetsOf m' = budgetsOf m ∧ length (keyRows m') = length (keyRows m))
  ∧ (∀ (B : Type) (m : Machine B) k r m',
       Autosort.sortKeys k m = (r, m') →
       budgetsOf m' = budgetsOf m ∧ length (keyRows m') = length (keyRows m))
  ∧ (∀ (m : Machine Z) k r m',
       Budget.sortKeys k m = (r, m') →
       budgetsOf m' = budgetsOf m ∧ length (keyRows m') = length (keyRows m)).
Proof.
  assert (Hlen : ∀ B (m m' : Machine B),
             budgetsOf m' = budgetsOf m →
             budgetsOf m' = budgetsOf m
             ∧ length (keyRows m') = length (keyRows m)).
  { intros B m m' H. split; [done|]. unfold budgetsOf in H.
    by rewrite <- (length_fmap defaultRowWidth (keyRows m')), H, length_fmap. }
  split_and!.
  - intros B m key fr fc tr tc r m' Hrun. apply Hlen.
    pose proof (budgets_moveKey (budgetsOf m) key fr fc tr tc m r m' eq_refl Hrun).
    by destruct r.
  - intros B m k r m' Hrun. apply Hlen.
    pose proof (budgets_autosort (budgetsOf m) k m r m' eq_refl Hrun).
    by destruct r.
  - intros m k r m' Hrun. apply Hlen.
    pose proof (budgets_budget (budgetsOf m) k m r m' eq_refl Hrun).
    by destruct r.
Qed.

Lemma budgets_never_change_witness :
  budgetsOf (snd (Budget.sortKeys key_space Budget.Keyboard_new))
  = budgetsOf Budget.Keyboard_new
  ∧ length (keyRows (snd (Budget.sortKeys key_space Budget.Keyboard_new)))
    = length (keyRows Budget.Keyboard_new).
Proof.
  apply (proj2 (proj2 budgets_never_change) Budget.Keyboard_new key_space
           (fst (Budget.sortKeys key_space Budget.Keyboard_new))).
  apply surjective_pairing.
Defined.

(** ** The reading order of the keys *)

Lemma allKeys_two {B} (rows rows' : list (KeyboardRow B)) i R T R' T' :
  length rows' = length rows →
  rows !! i = Some R → rows !! S i = Some T →
  rows' !! i = Some R' → rows' !! S i = Some T' →
  (∀ j, j ≠ i → j ≠ S i → rows' !! j = rows !! j) →
  keys R' ++ keys T' = keys R ++ keys T →
  allKeys rows' = allKeys rows.
Proof.
  intros Hl HR HT HR' HT' Ho Hk.
  assert (Htake : take i rows' = take i rows).
  { apply list_eq. intros j. destruct (decide (j < i)%nat).
    - rewrite !lookup_take_lt by done. apply Ho; lia.
    - rewrite !lookup_take_ge by lia. done. }
  assert (Hdrop : drop (S (S i)) rows' = drop (S (S i)) rows).
  { apply list_eq. intros j. rewrite !lookup_drop. apply Ho; lia. }
  rewrite (allKeys_split rows' i R' HR'), (allKeys_split rows i R HR).
  rewrite (allKeys_split (drop (S i) rows') 0 T'),
    (allKeys_split (drop (S i) rows) 0 T);
    [|by rewrite lookup_drop, Nat.add_0_r..].
  rewrite !drop_drop, !take_0. replace (S i + 1)%nat with (S (S i)) by lia.
  rewrite Htake, Hdrop. cbn [allKeys fmap list_fmap concat app].
  change (concat (keys <$> ?l)) with (allKeys l).
  by rewrite !(assoc_L (++) (keys _) (keys _)), Hk.
Qed.

Lemma shedPure_order {B} (rows : list (KeyboardRow B)) i R :
  wellFormed rows →
  rows !! i = Some R → keys R ≠ [] → (S i < length rows)%nat →
  allKeys (shedPure i rows) = allKeys rows.
Proof.
  intros Hwf HR Hne Hi.
  destruct (shedPure_props rows i R Hwf HR Hne Hi)
    as (_ & _ & Hl & _ & Ho & x & ks & T & Hks & HT & Hi1 & HSi1).
  eapply (allKeys_two rows (shedPure i rows) i); [done..|].
  cbn [keys withFront]. rewrite Hks. by rewrite <- (assoc_L (++)).
Qed.

Lemma shiftDown_order {B} n : ∀ i (rows : list (KeyboardRow B)),
  wellFormed rows →
  (i + n < length rows)%nat →
  (∃ R, rows !! i = Some R ∧ keys R ≠ []) →
  allKeys (shiftDown n i rows) = allKeys rows.
Proof.
  induction n as [|n IH]; intros i rows Hwf Hlen (R & HR & Hne); [done|].
  cbn [shiftDown].
  destruct (shedPure_props rows i R Hwf HR Hne ltac:(lia))
    as (Hwf1 & _ & Hl & _ & _ & x & ks & T & _ & _ & _ & HSi1).
  rewrite IH; [by eapply shedPure_order; [..|lia]|done|rewrite Hl; lia|].
  exists (withFront x T). by split.
Qed.

Lemma moved_order {B} (rows : list (KeyboardRow B)) k fr fc R :
  rows !! fr = Some R → keys R !! fc = Some k →
  ∃ l1 l2, allKeys rows = l1 ++ k :: l2
           ∧ allKeys (moved k fr fc 0 rows) = k :: l1 ++ l2.
Proof.
  intros HR Hk. unfold moved.
  pose proof (take_drop_middle _ _ _ Hk) as Hmid.
  destruct rows as [|R0 rest]; [done|]. destruct fr as [|fr].
  - simpl in HR. injection HR as ->.
    exists (take fc (keys R)), (drop (S fc) (keys R) ++ allKeys rest).
    cbn. change (concat (keys <$> rest)) with (allKeys rest).
    rewrite delete_take_drop, <- (assoc_L (++)).
    split; [|done]. by rewrite <- Hmid at 1; rewrite <- (assoc_L (++)).
  - simpl in HR.
    exists (keys R0 ++ allKeys (take fr rest) ++ take fc (keys R)),
      (drop (S fc) (keys R) ++ allKeys (drop (S fr) rest)).
    cbn. change (concat (keys <$> ?l)) with (allKeys l).
    rewrite <- (insert_as_alter _ _ _ _ HR).
    rewrite allKeys_insert by (by eapply lookup_lt_Some).
    rewrite (allKeys_split rest fr R HR). cbn [keys without].
    rewrite delete_take_drop. rewrite <- Hmid at 1.
    by rewrite <- !(assoc_L (++)).
Qed.

(** X8 (most recently used first, autosort.js): pressing a key of a
    well-formed layout completes and moves that key to the front of the
    reading order (rows top to bottom, each left to right), every other key
    keeping its place relative to the others. *)
Theorem autosort_reading_order (rows : list (KeyboardRow unit)) t k :
  wellFormed rows → k ∈ allKeys rows →
  ∃ rows' t' l1 l2,
    Autosort.sortKeys k (mkMachine rows t) = (Normal tt, mkMachine rows' t')
    ∧ allKeys rows = l1 ++ k :: l2
    ∧ allKeys rows' = k :: l1 ++ l2.
Proof.
  intros Hwf Hk. destruct (present_scan rows k Hk) as (oldRow & oldCol & Hscan).
  destruct (autosort_run rows t k oldRow oldCol Hwf Hscan)
    as (Hrun & _).
  destruct (scanRows_Some _ _ _ _ _ Hscan) as (R & _ & HR & HkR).
  rewrite Nat.sub_0_r in HR.
  assert (HlenR : (oldRow < length rows)%nat) by (by eapply lookup_lt_Some).
  destruct (moved_order rows k oldRow oldCol R HR HkR) as (l1 & l2 & H1 & H2).
  eexists _, _, l1, l2. split_and!; [exact Hrun|done|].
  rewrite <- H2. apply shiftDown_order.
  - eapply moved_wellFormed; [done..|lia].
  - rewrite moved_length. lia.
  - destruct (moved_front k oldRow oldCol rows ltac:(lia)) as [T HT].
    exists (withFront k T). by split.
Qed.

Lemma autosort_reading_order_witness :
  ∃ rows' t' l1 l2,
    Autosort.sortKeys key_m Autosort.Keyboard_new
    = (Normal tt, mkMachine rows' t')
    ∧ allKeys (keyRows Autosort.Keyboard_new) = l1 ++ key_m :: l2
    ∧ allKeys rows' = key_m :: l1 ++ l2.
Proof.
  apply (autosort_reading_order (keyRows Autosort.Keyboard_new) [] key_m).
  - apply autosort_new_wellFormed.
  - compute_done.
Defined.

Lemma shedCall_isCall {B} (rows : list (KeyboardRow B)) i :
  Forall isCall (shedCall i rows).
Proof. unfold shedCall. destruct (rows !! i); by repeat constructor. Qed.

Lemma shiftCalls_isCall {B} n : ∀ i (rows : list (KeyboardRow B)),
  Forall isCall (shiftCalls n i rows).
Proof.
  induction n as [|n IH]; intros i rows; [constructor|].
  cbn [shiftCalls]. apply Forall_app. split; [apply shedCall_isCall|apply IH].
Qed.

Lemma whileTooWide_order (i : nat) (fuel : nat) : ∀ rows t m',
  wellFormed rows → budgetsNonneg rows → (S i < length rows)%nat →
  Budget.whileTooWide fuel (Z.of_nat i) (mkMachine rows t) = (Normal tt, m') →
  wellFormed (keyRows m')
  ∧ allKeys (keyRows m') = allKeys rows
  ∧ defaultRowWidth <$> keyRows m' = defaultRowWidth <$> rows
  ∧ ∃ calls, trace m' = t ++ calls ∧ Forall isCall calls.
Proof.
  induction fuel as [|fuel IH]; intros rows t m' Hwf Hnn Hi H; [done|].
  cbn [Budget.whileTooWide] in H.
  apply bind_Normal_inv in H as (R & ? & HR & H).
  apply getRow_inv in HR as [HR ->]. cbn [keyRows] in HR.
  rewrite lookupZ_of_nat in HR. case_bool_decide as Hw.
  - apply bind_Normal_inv in H as ([] & m1 & Hs & H).
    pose proof (budgetsNonneg_lookup rows i R Hnn HR) as Hb.
    pose proof (tooWide_nonempty R Hb Hw) as Hne.
    rewrite (shedLast_spec rows t i R Hwf HR Hne Hi) in Hs.
    injection Hs as <-.
    destruct (shedPure_props rows i R Hwf HR Hne Hi)
      as (Hwf1 & _ & Hl1 & Hb1 & _).
    apply IH in H as (Hwf2 & Hk2 & Hb2 & calls & Ht & Hcalls);
      [|done|unfold budgetsNonneg; by rewrite Hb1|by rewrite Hl1].
    split_and!; [done| |by rewrite Hb2|].
    + rewrite Hk2. by eapply shedPure_order.
    + exists (shedCall i rows ++ calls). rewrite Ht, (assoc_L (++)).
      split; [done|]. apply Forall_app. split; [apply shedCall_isCall|done].
  - unfold ret in H. simplify_eq. cbn [keyRows trace].
    split_and!; [done..|]. exists []. by rewrite app_nil_r.
Qed.

Lemma forLoop_reflow_order n : ∀ (i : nat) rows t m',
  wellFormed rows → budgetsNonneg rows → (i + n < length rows)%nat →
  forLoop n (Z.of_nat i) Budget.reflowRow (mkMachine rows t) = (Normal tt, m') →
  allKeys (keyRows m') = allKeys rows
  ∧ ∃ calls, trace m' = t ++ calls ∧ Forall isCall calls.
Proof.
  induction n as [|n IH]; intros i rows t m' Hwf Hnn Hi H.
  { unfold forLoop, ret in H. simplify_eq. split; [done|].
    exists []. by rewrite app_nil_r. }
  cbn [forLoop] in H.
  apply bind_Normal_inv in H as ([] & [rows1 t1] & H1 & H).
  unfold Budget.reflowRow in H1.
  apply bind_Normal_inv in H1 as (R & ? & HR & H1).
  apply getRow_inv in HR as [HR ->].
  apply whileTooWide_order in H1 as (Hwf1 & Hk1 & Hb1 & c1 & Ht1 & Hc1);
    [|done|done|lia].
  cbn [keyRows trace] in Hwf1, Hk1, Hb1, Ht1.
  replace (Z.of_nat i + 1) with (Z.of_nat (S i)) in H by lia.
  apply IH in H as (Hk2 & c2 & Ht2 & Hc2);
    [|done|unfold budgetsNonneg; by rewrite Hb1|].
  - split; [by rewrite Hk2|]. exists (c1 ++ c2).
    rewrite Ht2, Ht1, (assoc_L (++)). split; [done|]. by apply Forall_app.
  - rewrite <- (length_fmap defaultRowWidth rows1), Hb1, length_fmap. lia.
Qed.

Lemma budget_press_trace (rows : list (KeyboardRow Z)) t k m' :
  wellFormed rows → budgetsNonneg rows → k ∈ allKeys rows →
  Budget.sortKeys k (mkMachine rows t) = (Normal tt, m') →
  ∃ l1 l2 calls,
    allKeys rows = l1 ++ k :: l2
    ∧ allKeys (keyRows m') = k :: l1 ++ l2
    ∧ trace m' = t ++ calls ∧ Forall isCall calls.
Proof.
  intros Hwf Hnn Hk H.
  destruct (present_scan rows k Hk) as (oldRow & oldCol & Hscan).
  destruct (scanRows_Some _ _ _ _ _ Hscan) as (R & _ & HR & HkR).
  rewrite Nat.sub_0_r in HR.
  assert (HlenR : (oldRow < length rows)%nat) by (by eapply lookup_lt_Some).
  destruct (moved_order rows k oldRow oldCol R HR HkR) as (l1 & l2 & H1 & H2).
  exists l1, l2. unfold Budget.sortKeys in H.
  apply bind_Normal_inv in H as (pos & m0 & Hpos & H).
  rewrite (getKeyPos_found rows t k _ Hscan) in Hpos.
  injection Hpos as <- <-.
  apply bind_Normal_inv in H as (old & m1 & Hold & H).
  unfold getFlexItemsInfo in Hold. injection Hold as _ <-.
  apply bind_Normal_inv in H as ([] & m2 & Hmove & H).
  change 0 with (Z.of_nat 0) in Hmove at 1.
  rewrite (moveKey_front rows t k oldRow oldCol 0%nat R) in Hmove;
    [|done..|lia].
  injection Hmove as <-.
  apply bind_Normal_inv in H as ([] & m3 & Hloop & H).
  apply bind_Normal_inv in H as (new & m4 & Hflex & H).
  unfold getFlexItemsInfo in Hflex. injection Hflex as _ <-.
  apply animateFlexItems_state in H. subst m3.
  apply (forLoop_reflow_order _ 0%nat) in Hloop as (Hk2 & calls & Ht & Hc).
  - eexists. split_and!; [done|by rewrite Hk2| |].
    + rewrite Ht, <- (assoc_L (++)). done.
    + apply Forall_app. split; [by repeat constructor|done].
  - eapply moved_wellFormed; [done..|lia].
  - unfold budgetsNonneg. by rewrite moved_budgets.
  - cbn [keyRows]. rewrite moved_length. lia.
Qed.

(** X9 (most recently used first, four-row file): with budgets that are not
    negative, pressing a key of a well-formed layout completes and moves
    that key to the front of the reading order; the reflow changes where
    the rows break, never the order of the keys. *)
Theorem budget_reading_order (rows : list (KeyboardRow Z)) t k :
  wellFormed rows → budgetsNonneg rows → k ∈ allKeys rows →
  ∃ rows' t' l1 l2,
    Budget.sortKeys k (mkMachine rows t) = (Normal tt, mkMachine rows' t')
    ∧ allKeys rows = l1 ++ k :: l2
    ∧ allKeys rows' = k :: l1 ++ l2.
Proof.
  intros Hwf Hnn Hk.
  destruct (present_scan rows k Hk) as (oldRow & oldCol & Hscan).
  destruct (budget_run rows t k oldRow oldCol Hwf Hnn Hscan)
    as (rows' & t' & Hrun & _).
  destruct (budget_press_trace rows t k _ Hwf Hnn Hk Hrun)
    as (l1 & l2 & _ & H1 & H2 & _).
  by exists rows', t', l1, l2.
Qed.

Lemma budget_reading_order_witness :
  ∃ rows' t' l1 l2,
    Budget.sortKeys key_space Budget.Keyboard_new
    = (Normal tt, mkMachine rows' t')
    ∧ allKeys (keyRows Budget.Keyboard_new) = l1 ++ key_space :: l2
    ∧ allKeys rows' = key_space :: l1 ++ l2.
Proof.
  apply (budget_reading_order (keyRows Budget.Keyboard_new) [] key_space).
  - apply budget_new_wellFormed.
  - compute_done.
  - compute_done.
Defined.

(** ** The number of keys in each row *)

Lemma rowLengths_eq {B} (rows rows' : list (KeyboardRow B)) :
  length rows' = length rows →
  (∀ j, keysInRow rows' j = keysInRow rows j) →
  rowLengths rows' = rowLengths rows.
Proof.
  intros Hl H. apply list_eq. intros j. unfold rowLengths.
  rewrite !list_lookup_fmap. specialize (H j). unfold keysInRow in H.
  destruct (rows' !! j) as [R'|] eqn:HR', (rows !! j) as [R|] eqn:HR;
    simpl in *; [by rewrite H| | |done].
  - apply lookup_lt_Some in HR'. apply lookup_ge_None in HR. lia.
  - apply lookup_lt_Some in HR. apply lookup_ge_None in HR'. lia.
Qed.

Lemma shedPure_keysInRow {B} (rows : list (KeyboardRow B)) i R :
  wellFormed rows →
  rows !! i = Some R → keys R ≠ [] → (S i < length rows)%nat →
  ∀ j, (keysInRow (shedPure i rows) j + (if decide (j = i) then 1 else 0)
        = keysInRow rows j + (if decide (j = S i) then 1 else 0))%nat.
Proof.
  intros Hwf HR Hne Hi j.
  destruct (shedPure_props rows i R Hwf HR Hne Hi)
    as (_ & _ & _ & _ & Ho & x & ks & T & Hks & HT & Hi1 & HSi1).
  unfold keysInRow. repeat case_decide; subst; try lia.
  - rewrite Hi1, HR. simpl. rewrite Hks, length_app. simpl. lia.
  - rewrite HSi1, HT. simpl. lia.
  - rewrite Ho by done. lia.
Qed.

Lemma shiftDown_keysInRow {B} n : ∀ i (rows : list (KeyboardRow B)),
  wellFormed rows →
  (i + n < length rows)%nat →
  (∃ R, rows !! i = Some R ∧ keys R ≠ []) →
  ∀ j, (keysInRow (shiftDown n i rows) j + (if decide (j = i) then 1 else 0)
        = keysInRow rows j + (if decide (j = i + n) then 1 else 0))%nat.
Proof.
  induction n as [|n IH]; intros i rows Hwf Hlen (R & HR & Hne) j.
  { cbn [shiftDown]. rewrite Nat.add_0_r. lia. }
  cbn [shiftDown].
  destruct (shedPure_props rows i R Hwf HR Hne ltac:(lia))
    as (Hwf1 & _ & Hl & _ & _ & x & ks & T & _ & _ & _ & HSi1).
  pose proof (shedPure_keysInRow rows i R Hwf HR Hne ltac:(lia) j) as H1.
  assert (Hne1 : ∃ R1, shedPure i rows !! S i = Some R1 ∧ keys R1 ≠ [])
    by (exists (withFront x T); by split).
  pose proof (IH (S i) (shedPure i rows) Hwf1 ltac:(lia) Hne1 j) as H2.
  replace (i + S n)%nat with (S i + n)%nat by lia.
  repeat case_decide; lia.
Qed.

Lemma moved_keysInRow {B} (rows : list (KeyboardRow B)) k fr fc R :
  rows !! fr = Some R → keys R !! fc = Some k →
  ∀ j, (keysInRow (moved k fr fc 0 rows) j + (if decide (j = fr) then 1 else 0)
        = keysInRow rows j + (if decide (j = 0) then 1 else 0))%nat.
Proof.
  intros HR Hk j.
  assert (Hlen : (length (delete fc (keys R)) + 1 = length (keys R))%nat).
  { apply lookup_lt_Some in Hk as Hlt. rewrite length_delete by eauto. lia. }
  assert (H0 : is_Some (rows !! 0%nat)).
  { apply lookup_lt_is_Some. apply lookup_lt_Some in HR. lia. }
  destruct H0 as [T HT]. unfold keysInRow.
  destruct (decide (fr = 0%nat)) as [->|Hfr].
  - repeat case_decide; subst; try lia.
    + rewrite moved_lookup_same, HR. simpl. lia.
    + rewrite moved_lookup_other by done. lia.
  - repeat case_decide; subst; try lia.
    + rewrite moved_lookup_from, HR by done. simpl. lia.
    + rewrite moved_lookup_to, HT by done. simpl. lia.
    + rewrite moved_lookup_other by done. lia.
Qed.

(** X10 (rows keep their size, autosort.js): however a press on a
    well-formed layout ends, every row holds as many keys afterwards as
    before; only which keys they are changes. *)
Theorem autosort_row_lengths (m m' : Machine unit) (k : Key) c :
  wellFormed (keyRows m) →
  Autosort.sortKeys k m = (c, m') →
  rowLengths (keyRows m') = rowLengths (keyRows m).
Proof.
  intros Hwf Hrun. destruct m as [rows t]. cbn [keyRows] in *.
  destruct (scanRows 0 rows k) as [[oldRow oldCol]|] eqn:Hscan.
  - destruct (autosort_run rows t k oldRow oldCol Hwf Hscan)
      as (Hrun' & _ & _ & Hl & _).
    rewrite Hrun in Hrun'. injection Hrun' as -> ->. cbn [keyRows].
    destruct (scanRows_Some _ _ _ _ _ Hscan) as (R & _ & HR & HkR).
    rewrite Nat.sub_0_r in HR.
    assert (HlenR : (oldRow < length rows)%nat) by (by eapply lookup_lt_Some).
    apply rowLengths_eq; [done|]. intros j.
    pose proof (moved_keysInRow rows k oldRow oldCol R HR HkR j) as H1.
    destruct (moved_front k oldRow oldCol rows ltac:(lia)) as [T HT].
    assert (Hne1 : ∃ R1, moved k oldRow oldCol 0 rows !! 0%nat = Some R1
                         ∧ keys R1 ≠ [])
      by (exists (withFront k T); by split).
    assert (Hwf1 : wellFormed (moved k oldRow oldCol 0 rows))
      by (eapply moved_wellFormed; [done..|lia]).
    assert (Hl1 : (0 + oldRow < length (moved k oldRow oldCol 0 rows))%nat)
      by (rewrite moved_length; lia).
    pose proof (shiftDown_keysInRow oldRow 0 _ Hwf1 Hl1 Hne1 j) as H2.
    rewrite Nat.add_0_l in H2. repeat case_decide; lia.
  - apply scanRows_None in Hscan.
    rewrite (autosort_missing rows t k Hscan) in Hrun. by simplify_eq.
Qed.

Lemma autosort_row_lengths_witness :
  rowLengths (keyRows (snd (Autosort.sortKeys key_m Autosort.Keyboard_new)))
  = rowLengths (keyRows Autosort.Keyboard_new).
Proof.
  apply (autosort_row_lengths Autosort.Keyboard_new _ key_m
           (fst (Autosort.sortKeys key_m Autosort.Keyboard_new))).
  - apply autosort_new_wellFormed.
  - apply surjective_pairing.
Defined.

(** ** The console *)

(** X11 (nothing on the console): in either file, whatever keys of the
    keyboard are pressed from the start, the assertion in [moveKey] never
    fails and [getKeyPos] never reports an error: all that the handlers
    leave in the trace are calls of [moveKey]. *)
Theorem console_stays_silent :
  (∀ m, Autosort.reachable m → Forall isCall (trace m))
  ∧ (∀ m, Budget.reachable m → Forall isCall (trace m)).
Proof.
  split.
  - intros m Hr. induction Hr as [|m key c m' Hr IH Hkey Hrun]; [constructor|].
    destruct (autosort_invariant m Hr) as (Hwf & _).
    destruct m as [rows t]. cbn [keyRows trace] in *.
    destruct (present_scan rows key Hkey) as (oldRow & oldCol & Hscan).
    destruct (autosort_run rows t key oldRow oldCol Hwf Hscan) as (Hrun' & _).
    rewrite Hrun in Hrun'. injection Hrun' as -> ->. cbn [trace].
    apply Forall_app. split; [done|].
    constructor; [done|apply shiftCalls_isCall].
  - intros m Hr. induction Hr as [|m key c m' Hr IH Hkey Hrun]; [constructor|].
    destruct (budget_invariant m Hr) as (Hwf & Hb & _).
    destruct m as [rows t]. cbn [keyRows trace] in *.
    assert (Hnn : budgetsNonneg rows).
    { unfold budgetsNonneg. rewrite Hb. repeat constructor; lia. }
    destruct (present_scan rows key Hkey) as (oldRow & oldCol & Hscan).
    destruct (budget_run rows t key oldRow oldCol Hwf Hnn Hscan)
      as (rows' & t' & Hrun' & _).
    rewrite Hrun in Hrun'. injection Hrun' as -> ->.
    destruct (budget_press_trace rows t key _ Hwf Hnn Hkey Hrun)
      as (_ & _ & calls & _ & _ & Ht & Hc).
    rewrite Ht. by apply Forall_app.
Qed.

Lemma console_stays_silent_witness :
  Forall isCall
    (trace (snd (Budget.sortKeys key_space
                   (snd (Budget.sortKeys key_m Budget.Keyboard_new))))).
Proof.
  apply (proj2 console_stays_silent).
  eapply Budget.reach_press;
    [eapply Budget.reach_press; [apply Budget.reach_new| |apply surjective_pairing]
    | |apply surjective_pairing].
  - compute_done.
  - compute_done.
Defined.

(** ** [removeElement] *)

(** X12 ([removeElement]): an element that occurs in the array is removed at
    its first occurrence and nothing else changes; an element that does not
    occur costs the array its last element, whatever that is (only the empty
    array is left as it was). *)
Theorem removeElement_cases {A} `{EqDecision A} (arr : list A) (x : A) :
  (x ∈ arr →
   ∃ l1 l2, arr = l1 ++ x :: l2 ∧ (x ∉ l1) ∧ removeElement arr x = l1 ++ l2)
  ∧ (x ∉ arr → removeElement arr x = removelast arr).
Proof.
  unfold removeElement, findIndex. split.
  - intros Hx.
    destruct (list_find (λ k, k = x) arr) as [[i y]|] eqn:Hfind.
    + apply list_find_Some in Hfind as (Hi & -> & Hbefore). simpl.
      exists (take i arr), (drop (S i) arr). split_and!.
      * by rewrite take_drop_middle.
      * intros Hin. apply list_elem_of_lookup in Hin as [j Hj].
        pose proof (lookup_lt_Some _ _ _ Hj) as Hlt.
        rewrite length_take in Hlt.
        rewrite lookup_take_lt in Hj by lia.
        by apply (Hbefore j x Hj); [lia|].
      * rewrite splice_delete by (by eapply lookup_lt_Some).
        apply delete_take_drop.
    + apply list_find_None in Hfind. rewrite Forall_forall in Hfind.
      by destruct (Hfind x Hx).
  - intros Hx.
    destruct (list_find (λ k, k = x) arr) as [[i y]|] eqn:Hfind.
    + apply list_find_Some in Hfind as (Hi & -> & _).
      destruct Hx. by eapply list_elem_of_lookup_2.
    + simpl. destruct arr as [|a arr] using rev_ind; [done|].
      rewrite removelast_last.
      unfold splice. rewrite bool_decide_eq_true_2 by lia.
      rewrite length_app. simpl.
      replace (Z.to_nat _) with (length arr) by lia.
      rewrite take_app_length, drop_ge by (rewrite length_app; simpl; lia).
      by rewrite app_nil_r.
Qed.

Lemma removeElement_cases_witness :
  removeElement [1; 2; 3]%nat 5%nat = removelast [1; 2; 3]%nat.
Proof.
  apply (proj2 (removeElement_cases [1; 2; 3]%nat 5%nat)).
  by compute_done.
Defined.

(** ** The text box *)

Lemma substring_app_length (v w : string) :
  String.substring 0 (String.length v) (v +:+ w) = v.
Proof.
  induction v as [|c v IH]; simpl; [by destruct w|by rewrite IH].
Qed.

Lemma length_app_string (v w : string) :
  String.length (v +:+ w) = (String.length v + String.length w)%nat.
Proof. induction v as [|c v IH]; simpl; [done|by rewrite IH]. Qed.

Lemma length_substring_0 (s : string) : ∀ n,
  String.length (String.substring 0 n s) = (n `min` String.length s)%nat.
Proof.
  induction s as [|c s IH]; intros [|n]; simpl; [done..|by rewrite IH].
Qed.

Lemma backspace_app (v w : string) :
  String.length w = 1%nat → Keyboard_backspace (v +:+ w) = v.
Proof.
  intros Hw. unfold Keyboard_backspace, js_slice.
  rewrite length_app_string, Hw.
  rewrite bool_decide_eq_false_2, bool_decide_eq_true_2 by lia.
  replace (Z.to_nat (Z.min 0 _)) with 0%nat by lia.
  replace (Z.to_nat _) with (String.length v) by lia.
  apply substring_app_length.
Qed.

(** X13 (backspace): [Keyboard.backspace] takes exactly the last character
    off the text: it undoes a one-character label typed by a key, a line
    break typed by [enter] and a space typed by [spacebar], and it leaves an
    empty text box empty. *)
Theorem backspace_drops_last (value : string) :
  (∀ label, String.length label = 1%nat →
            Keyboard_backspace (value +:+ label) = value)
  ∧ Keyboard_backspace (Keyboard_enter value) = value
  ∧ Keyboard_backspace (Keyboard_spacebar value) = value
  ∧ (String.length value = 0%nat → Keyboard_backspace value = value)
  ∧ String.length (Keyboard_backspace value) = (String.length value - 1)%nat.
Proof.
  split_and!.
  - intros label Hl. by apply backspace_app.
  - by apply backspace_app.
  - by apply backspace_app.
  - by destruct value.
  - unfold Keyboard_backspace, js_slice.
    rewrite bool_decide_eq_false_2, bool_decide_eq_true_2 by lia.
    replace (Z.to_nat (Z.min 0 _)) with 0%nat by lia.
    rewrite length_substring_0. lia.
Qed.

Lemma backspace_drops_last_witness :
  Keyboard_backspace ("ab" +:+ "c") = "ab".
Proof.
  apply (proj1 (backspace_drops_last "ab") "c"). reflexivity.
Defined.

(** ** Presses: typing and sorting together *)

Lemma scan_getKey {B} (rows : list (KeyboardRow B)) (k : Key) :
  scanRows 0 rows k = Some (0, 0)%nat → getKey rows 0 0 = JKey k.
Proof.
  intros Hs. apply scanRows_Some in Hs as (R & _ & HR & Hk).
  apply getKey_JKey. split_and!; [done..|]. by exists R.
Qed.

Lemma autosort_press (m : Machine unit) (k : Key) :
  Autosort.reachable m → k ∈ allKeys (keyRows m) →
  ∃ m', Autosort.sortKeys k m = (Normal tt, m')
        ∧ Autosort.reachable m'
        ∧ getKey (keyRows m') 0 0 = JKey k
        ∧ allKeys (keyRows m') ≡ₚ allKeys (keyRows m).
Proof.
  intros Hr Hk. destruct (autosort_invariant _ Hr) as (Hwf & (R0 & HR0 & Hne) & _).
  destruct m as [rows t]. cbn [keyRows] in *.
  destruct (present_scan rows k Hk) as (oldRow & oldCol & Hscan).
  destruct (autosort_top_left rows t k oldRow oldCol R0 Hwf Hscan HR0 Hne)
    as (rows' & t' & Hrun & Hscan').
  destruct (autosort_run rows t k oldRow oldCol Hwf Hscan) as (Hrun' & _ & Hp & _).
  exists (mkMachine rows' t'). split_and!; [done| | |].
  - by eapply Autosort.reach_press.
  - by apply scan_getKey.
  - rewrite Hrun in Hrun'. by injection Hrun' as -> _.
Qed.

Lemma budget_press (m : Machine Z) (k : Key) :
  Budget.reachable m → k ∈ allKeys (keyRows m) →
  ∃ m', Budget.sortKeys k m = (Normal tt, m')
        ∧ Budget.reachable m'
        ∧ getKey (keyRows m') 0 0 = JKey k
        ∧ allKeys (keyRows m') ≡ₚ allKeys (keyRows m).
Proof.
  intros Hr Hk. destruct (budget_invariant _ Hr) as (Hwf & Hb & _).
  pose proof (budget_widths_fit _ k Hr Hk) as Hfit.
  destruct m as [rows t]. cbn [keyRows] in *.
  destruct (present_scan rows k Hk) as (oldRow & oldCol & Hscan).
  destruct (budget_run rows t k oldRow oldCol Hwf) as
    (rows' & t' & Hrun & _ & Hp & _ & _ & Hhd); [|done|].
  { unfold budgetsNonneg. rewrite Hb. repeat constructor; lia. }
  exists (mkMachine rows' t'). split_and!; [done| | |done].
  - by eapply Budget.reach_press.
  - apply scan_getKey. destruct rows as [|R0 rows]; [done|].
    apply (Hhd R0); [done|]. injection Hb as -> _. done.
Qed.

(** X14 (a letter, then backspace): on a keyboard reached by presses, in
    either file, pressing a key made without an [onPress] of its own types
    its label and completes; pressing after it a key made with
    [Keyboard.backspace] completes too, gives the text box its old value
    back when the label was one character, and leaves the backspace key top
    left. *)
Theorem letter_then_backspace (value : string) (k bk : Key) :
  String.length (displayStr k) = 1%nat →
  (∀ m : Machine unit,
     Autosort.reachable m →
     k ∈ allKeys (keyRows m) → bk ∈ allKeys (keyRows m) →
     ∃ m1 m2,
       Key_onPress Autosort.sortKeys None k (mkPage value m)
       = (Normal tt, mkPage (value +:+ displayStr k) m1)
       ∧ Key_onPress Autosort.sortKeys (Some Keyboard_backspace) bk
           (mkPage (value +:+ displayStr k) m1)
         = (Normal tt, mkPage value m2)
       ∧ getKey (keyRows m2) 0 0 = JKey bk)
  ∧ (∀ m : Machine Z,
       Budget.reachable m →
       k ∈ allKeys (keyRows m) → bk ∈ allKeys (keyRows m) →
       ∃ m1 m2,
         Key_onPress Budget.sortKeys None k (mkPage value m)
         = (Normal tt, mkPage (value +:+ displayStr k) m1)
         ∧ Key_onPress Budget.sortKeys (Some Keyboard_backspace) bk
             (mkPage (value +:+ displayStr k) m1)
           = (Normal tt, mkPage value m2)
         ∧ getKey (keyRows m2) 0 0 = JKey bk).
Proof.
  intros Hlabel. split.
  - intros m Hr Hk Hbk.
    destruct (autosort_press m k Hr Hk) as (m1 & Hrun1 & Hr1 & _ & Hp1).
    destruct (autosort_press m1 bk Hr1) as (m2 & Hrun2 & _ & Htop & _);
      [by rewrite Hp1|].
    exists m1, m2. unfold Key_onPress. cbn [textBoxEl_value keyboard].
    rewrite Hrun1, Hrun2, backspace_app by done. done.
  - intros m Hr Hk Hbk.
    destruct (budget_press m k Hr Hk) as (m1 & Hrun1 & Hr1 & _ & Hp1).
    destruct (budget_press m1 bk Hr1) as (m2 & Hrun2 & _ & Htop & _);
      [by rewrite Hp1|].
    exists m1, m2. unfold Key_onPress. cbn [textBoxEl_value keyboard].
    rewrite Hrun1, Hrun2, backspace_app by done. done.
Qed.

Lemma letter_then_backspace_witness :
  ∃ m1 m2,
    Key_onPress Autosort.sortKeys None key_m (mkPage "hi" Autosort.Keyboard_new)
    = (Normal tt, mkPage ("hi" +:+ displayStr key_m) m1)
    ∧ Key_onPress Autosort.sortKeys (Some Keyboard_backspace) key_backspace
        (mkPage ("hi" +:+ displayStr key_m) m1)
      = (Normal tt, mkPage "hi" m2)
    ∧ getKey (keyRows m2) 0 0 = JKey key_backspace.
Proof.
  apply (proj1 (letter_then_backspace "hi" key_m key_backspace eq_refl)
           Autosort.Keyboard_new).
  - apply Autosort.reach_new.
  - compute_done.
  - compute_done.
Defined.

(** ** The key press preview *)

Lemma touchmove_inv (under : option Node) (p : KeyPressPreview) :
  pressedEls p = option_list (hoveredEl p) → previewEl p = hoveredEl p →
  pressedEls (touchmove under p) = option_list (hoveredEl (touchmove under p))
  ∧ previewEl (touchmove under p) = hoveredEl (touchmove under p)
  ∧ hoveredEl (touchmove under p)
    = match _keyElFromTouchEvent under with
      | Some el => Some el
      | None => hoveredEl p
      end.
Proof.
  intros Hp Hv. unfold touchmove.
  destruct (_keyElFromTouchEvent under) as [el|]; [|done].
  case_decide as Hh; [done|]. cbn [pressedEls hoveredEl previewEl show].
  split_and!; [|done..]. rewrite Hp.
  destruct (hoveredEl p) as [h|]; cbn [option_list]; [|done].
  unfold classList_remove. change (option_list (Some h)) with [h].
  by rewrite filter_cons_False, filter_nil by (intros ?; done).
Qed.

Lemma touchmoves_inv (moves : list (option Node)) : ∀ p,
  pressedEls p = option_list (hoveredEl p) → previewEl p = hoveredEl p →
  let p' := foldl (λ p under, touchmove under p) p moves in
  pressedEls p' = option_list (hoveredEl p')
  ∧ previewEl p' = hoveredEl p'
  ∧ hoveredEl p'
    = match last (omap _keyElFromTouchEvent moves) with
      | Some el => Some el
      | None => hoveredEl p
      end.
Proof.
  induction moves as [|under moves IH]; intros p Hp Hv; [done|].
  cbn [foldl omap list_omap]. cbv zeta in IH.
  destruct (touchmove_inv under p Hp Hv) as (Hp1 & Hv1 & Hh1).
  destruct (IH (touchmove under p) Hp1 Hv1) as (H1 & H2 & H3).
  split_and!; [done..|]. rewrite H3, Hh1.
  destruct (_keyElFromTouchEvent under) as [el|]; [|done].
  rewrite last_cons. by destruct (last _).
Qed.

(** X15 (one finger on the four-row keyboard): while a finger that came
    down on a fresh preview is dragged around, the only pressed key is the
    key it touched last, and the preview shows that key; lifting the finger
    leaves nothing pressed and the preview hidden, but the handler throws a
    [TypeError] when the finger never touched a key. *)
Theorem touch_gesture (start : option Node) (moves : list (option Node)) :
  let touched := last (omap _keyElFromTouchEvent (start :: moves)) in
  hoveredEl (touching start moves) = touched
  ∧ pressedEls (touching start moves) = option_list touched
  ∧ previewEl (touching start moves) = touched
  ∧ touchend (touching start moves)
    = (match touched with
       | Some _ => Normal tt
       | None => Throw TypeError
       end, KeyPressPreview_new).
Proof.
  intros touched. unfold touching.
  destruct (touchmoves_inv moves (touchstart start KeyPressPreview_new))
    as (H1 & H2 & H3).
  { unfold touchstart. by destruct (_keyElFromTouchEvent start). }
  { unfold touchstart. by destruct (_keyElFromTouchEvent start). }
  assert (Hh : hoveredEl
                 (foldl (λ p under, touchmove under p)
                    (touchstart start KeyPressPreview_new) moves) = touched).
  { rewrite H3. unfold touched, touchstart. cbn [omap list_omap].
    destruct (_keyElFromTouchEvent start) as [el|]; cbn [hoveredEl].
    - rewrite last_cons.
      by destruct (last (omap _keyElFromTouchEvent moves)).
    - unfold KeyPressPreview_new. cbn [hoveredEl].
      by destruct (last (omap _keyElFromTouchEvent moves)). }
  clearbody touched. clear H3.
  destruct (foldl _ _ moves) as [pressed hovered preview].
  unfold touchend. cbn [pressedEls hoveredEl previewEl hide] in *. subst.
  split_and!; [done..|].
  destruct touched as [h|]; [|done]. unfold classList_remove.
  change (option_list (Some h)) with [h].
  by rewrite filter_cons_False, filter_nil by (intros ?; done).
Qed.

(** ** The animation step *)

(** X16 ([animateFlexItems]): the loop completes exactly when every element
    of the new snapshot is also in the old one; otherwise reading the
    position of the element that [find] did not find throws a [TypeError].
    Either way the layout and the trace are as before. *)
Theorem animateFlexItems_cases {B} (old new : list Element) (m : Machine B) :
  (new ⊆ old → animateFlexItems old new m = (Normal tt, m))
  ∧ (¬ new ⊆ old → animateFlexItems old new m = (Throw TypeError, m)).
Proof.
  split; [apply animateFlexItems_ok|].
  induction new as [|e new IH]; intros Hsub.
  { destruct Hsub. intros x Hx. by apply elem_of_nil in Hx. }
  simpl. destruct (list_find (λ e0, e0 = e) old) as [[i y]|] eqn:Hf; [|done].
  apply IH. intros Hnew. apply Hsub. intros x Hx.
  apply elem_of_cons in Hx as [->|Hx]; [|by apply Hnew].
  apply list_find_Some in Hf as (Hi & -> & _). by eapply list_elem_of_lookup_2.
Qed.

Lemma animateFlexItems_cases_witness :
  animateFlexItems [1; 2]%nat [2; 3]%nat Autosort.Keyboard_new
  = (Throw TypeError, Autosort.Keyboard_new).
Proof.
  apply (proj2 (animateFlexItems_cases [1; 2]%nat [2; 3]%nat
                  Autosort.Keyboard_new)).
  intros H. assert (Hn : 3%nat ∉ [1; 2]%nat) by compute_done.
  apply Hn, H. compute_done.
Defined.

(** ** [moveKey] to any column *)

Lemma insertBefore_at (children : list Element) (node : Element) (i : Z) :
  NoDup children → 0 ≤ i →
  insertBefore node (children_item children i) children
  = Some (take (Z.to_nat i) children ++ node :: drop (Z.to_nat i) children).
Proof.
  intros Hnd Hi. unfold insertBefore, children_item, lookupZ.
  rewrite bool_decide_eq_false_2 by lia.
  destruct (children !! Z.to_nat i) as [r|] eqn:Hr.
  - by rewrite (list_find_NoDup _ (Z.to_nat i)).
  - apply lookup_ge_None in Hr. by rewrite take_ge, drop_ge by lia.
Qed.

Lemma insertBefore_negative (children : list Element) (node : Element) (i : Z) :
  i < 0 →
  insertBefore node (children_item children i) children
  = Some (children ++ [node]).
Proof.
  intros Hi. unfold insertBefore, children_item, lookupZ.
  by rewrite bool_decide_eq_true_2 by lia.
Qed.

Lemma splice_insert_at {A} (l : list A) (x : A) (i : Z) :
  0 ≤ i → splice i 0 [x] l = take (Z.to_nat i) l ++ x :: drop (Z.to_nat i) l.
Proof.
  intros Hi. unfold splice. rewrite bool_decide_eq_false_2 by lia.
  rewrite Nat.add_0_r. destruct (decide (i ≤ Z.of_nat (length l))).
  - by rewrite Z.min_l by lia.
  - rewrite Z.min_r, Nat2Z.id by lia.
    by rewrite !take_ge, !drop_ge by lia.
Qed.

Lemma moveKey_run {B} (rows : list (KeyboardRow B)) t k (fr fc tr : nat)
    (tc : Z) R T ch :
  rows !! fr = Some R →
  rowEl R = keyEl <$> keys R →
  NoDup (rowEl R) →
  keys R !! fc = Some k →
  <[fr := without fc R]> rows !! tr = Some T →
  insertBefore (keyEl k) (children_item (rowEl T) tc) (rowEl T) = Some ch →
  moveKey (Some k) (Z.of_nat fr) (Z.of_nat fc) (Z.of_nat tr) tc
    (mkMachine rows t)
  = (Normal tt,
     mkMachine
       (<[tr := mkRow ch (splice tc 0 [k] (keys T)) (defaultRowWidth T)]>
          (<[fr := without fc R]> rows))
       (t ++ [MoveKeyCall (Some k) (Z.of_nat fr) (Z.of_nat fc)
                (Z.of_nat tr) tc])).
Proof.
  intros HR Hmir Hnd Hk HT Hch.
  assert (Hfr : (fr < length rows)%nat) by (by eapply lookup_lt_Some).
  assert (Hel : rowEl R !! fc = Some (keyEl k)).
  { rewrite Hmir, list_lookup_fmap, Hk. done. }
  unfold moveKey, children_item.
  mrun reflexivity.
  mrun (by apply getRow_run).
  mrun reflexivity.
  rewrite lookupZ_of_nat, Hel, decide_True by done.
  mrun reflexivity.
  mrun (by apply getRow_run).
  rewrite (removeChild_at _ fc) by done.
  mrun reflexivity. rewrite Nat2Z.id.
  mrun (apply getRow_run; by apply list_lookup_insert_eq).
  mrun reflexivity. rewrite Nat2Z.id, list_insert_insert_eq.
  rewrite splice_delete by (by eapply lookup_lt_Some). fold (without fc R).
  mrun (by apply getRow_run).
  unfold children_item in Hch. rewrite Hch.
  mrun reflexivity. rewrite Nat2Z.id.
  mrun (apply getRow_run; apply list_lookup_insert_eq;
        by eapply lookup_lt_Some).
  unfold setRow. cbn [keyRows trace rowEl keys defaultRowWidth].
  by rewrite Nat2Z.id, list_insert_insert_eq.
Qed.

(** X17 ([moveKey] to any column): on a well-formed layout, moving the key
    at [(fr, fc)] to a row that exists always completes.  With [toCol] not
    negative the key lands at that column of the target row, or at its end
    when the row is shorter, and the layout stays well formed.  With a
    negative [toCol] and a target row that holds a key, [splice] counts from
    the end of the array while the DOM appends, and the two part ways.
    [children.item] takes its index modulo [2 ^ 32]; the columns are kept to
    the range where that index is the column itself, or, for a negative
    column, lies past the last child. *)
Theorem moveKey_to_column {B} (rows : list (KeyboardRow B)) t k
    (fr fc tr : nat) (tc : Z) R T :
  wellFormed rows →
  rows !! fr = Some R → keys R !! fc = Some k →
  <[fr := without fc R]> rows !! tr = Some T →
  Z.of_nat fc < 2 ^ 32 →
  Z.of_nat (length (keys T)) - 2 ^ 32 ≤ tc < 2 ^ 32 →
  ∃ T',
    moveKey (Some k) (Z.of_nat fr) (Z.of_nat fc) (Z.of_nat tr) tc
      (mkMachine rows t)
    = (Normal tt,
       mkMachine (<[tr := T']> (<[fr := without fc R]> rows))
         (t ++ [MoveKeyCall (Some k) (Z.of_nat fr) (Z.of_nat fc)
                  (Z.of_nat tr) tc]))
    ∧ (0 ≤ tc →
       keys T' = take (Z.to_nat tc) (keys T) ++ k :: drop (Z.to_nat tc) (keys T)
       ∧ wellFormed (<[tr := T']> (<[fr := without fc R]> rows)))
    ∧ (tc < 0 → keys T ≠ [] →
       ¬ mirrored (<[tr := T']> (<[fr := without fc R]> rows))).
Proof.
  intros Hwf HR Hk HT _ _.
  destruct (wellFormed_row _ _ _ Hwf HR) as [HmR HndR].
  destruct Hwf as [Hm Hd].
  set (rows1 := <[fr := without fc R]> rows) in *.
  assert (Hp1 : allKeys rows ≡ₚ k :: allKeys rows1).
  { apply (allKeys_insert_less _ _ R); [done|]. simpl.
    by apply delete_Permutation. }
  assert (Hnd1 : NoDup (keyEl k :: (keyEl <$> allKeys rows1))).
  { unfold distinct in Hd. by rewrite Hp1 in Hd. }
  apply NoDup_cons in Hnd1 as [Hk1 Hnd1].
  assert (Hm1 : mirrored rows1).
  { unfold mirrored, rows1 in *. apply Forall_insert; [done|]. simpl.
    by rewrite HmR, list_fmap_delete. }
  destruct (wellFormed_row rows1 tr T (conj Hm1 Hnd1) HT) as [HmT HndT].
  destruct (decide (0 ≤ tc)) as [Htc|Htc].
  - eexists. split_and!.
    + apply (moveKey_run rows t k fr fc tr tc R T); [done..|].
      by apply insertBefore_at.
    + intros _. cbn [keys]. rewrite splice_insert_at by done. split; [done|].
      split.
      * unfold mirrored in *. apply Forall_insert; [done|]. cbn [rowEl keys].
        by rewrite fmap_app, fmap_cons, fmap_take, fmap_drop, HmT.
      * unfold distinct.
        rewrite (allKeys_insert_more rows1 tr T _ k); [|done|].
        { rewrite fmap_cons. by apply NoDup_cons. }
        cbn [keys]. rewrite <- Permutation_middle.
        by rewrite take_drop.
    + intros; lia.
  - eexists. split_and!.
    + apply (moveKey_run rows t k fr fc tr tc R T); [done..|].
      apply insertBefore_negative. lia.
    + intros; lia.
    + intros _ Hne Hmir. unfold mirrored in Hmir.
      rewrite Forall_lookup in Hmir.
      specialize (Hmir tr _ (list_lookup_insert_eq _ _ _
                               (lookup_lt_Some _ _ _ HT))).
      cbn [rowEl keys] in Hmir. unfold splice in Hmir.
      rewrite bool_decide_eq_true_2 in Hmir by lia.
      set (s := Z.to_nat (Z.max (Z.of_nat (length (keys T)) + tc) 0)) in *.
      assert (Hs : (s < length (keys T))%nat).
      { destruct (keys T); [done|]. simpl in *. lia. }
      destruct (lookup_lt_is_Some_2 (keys T) s Hs) as [x Hx].
      assert (Hat : (rowEl T ++ [keyEl k]) !! s = Some (keyEl k)).
      { rewrite Hmir, list_lookup_fmap.
        rewrite lookup_app_r by (rewrite length_take; lia).
        rewrite length_take, Nat.min_l by lia.
        by rewrite Nat.sub_diag. }
      rewrite lookup_app_l in Hat by (rewrite HmT, length_fmap; lia).
      rewrite HmT, list_lookup_fmap, Hx in Hat. simpl in Hat.
      injection Hat as Hat. apply Hk1. rewrite <- Hat.
      apply list_elem_of_fmap. exists x. split; [done|].
      apply elem_of_allKeys. exists tr, T. split; [done|].
      by eapply list_elem_of_lookup_2.
Qed.

Lemma moveKey_to_column_witness :
  ∃ R T T',
    keyRows lettersOnly !! 1%nat = Some R
    ∧ keyRows lettersOnly !! 0%nat = Some T
    ∧ moveKey (Some (Budget.Key_new "s" None 4%nat)) 1 1 0 (-1) lettersOnly
      = (Normal tt,
         mkMachine (<[0%nat := T']> (<[1%nat := without 1 R]> (keyRows lettersOnly)))
           [MoveKeyCall (Some (Budget.Key_new "s" None 4%nat)) 1 1 0 (-1)])
    ∧ ¬ mirrored (<[0%nat := T']> (<[1%nat := without 1 R]> (keyRows lettersOnly))).
Proof.
  assert (Hwf : wellFormed (keyRows lettersOnly)).
  { split; [unfold mirrored; vm_compute; repeat constructor
           |unfold distinct; compute_done]. }
  destruct (moveKey_to_column (keyRows lettersOnly) []
              (Budget.Key_new "s" None 4%nat) 1 1 0 (-1) _ _ Hwf
              eq_refl eq_refl eq_refl) as (T' & Hrun & _ & Hneg).
  { vm_compute. reflexivity. }
  { vm_compute. split; [discriminate|reflexivity]. }
  eexists _, _, T'. split_and!; [reflexivity|reflexivity|exact Hrun|].
  apply Hneg; [lia|]. by vm_compute.
Defined.

(** ** A key wider than the top row's budget *)

Lemma keysWidth_nonneg (l : list Key) :
  Forall (λ x, 0 ≤ width x) l → 0 ≤ Budget.keysWidth l.
Proof.
  induction 1 as [|x l Hx _ IH]; [done|]. rewrite keysWidth_cons. lia.
Qed.

(** X18 (a key too wide for the top row, four-row file): when the pressed
    key is wider than the budget of the top row, on a well-formed layout of
    two rows or more with no negative width or budget, the press completes
    but leaves the top row empty: the reflow sheds every key of the row, the
    pressed key last, and [getKey(0, 0)] gives [undefined]. *)
Theorem too_wide_key_empties_top_row (rows : list (KeyboardRow Z)) t k R0 :
  wellFormed rows → budgetsNonneg rows →
  Forall (λ x, 0 ≤ width x) (allKeys rows) →
  k ∈ allKeys rows → (2 ≤ length rows)%nat →
  rows !! 0%nat = Some R0 → defaultRowWidth R0 < width k →
  ∃ rows' t' R0',
    Budget.sortKeys k (mkMachine rows t) = (Normal tt, mkMachine rows' t')
    ∧ rows' !! 0%nat = Some R0' ∧ keys R0' = []
    ∧ getKey rows' 0 0 = JUndefined.
Proof.
  intros Hwf Hnn Hpos Hk Hlen HR0 Hwide.
  destruct (present_scan rows k Hk) as (oldRow & oldCol & Hscan).
  destruct (budget_run rows t k oldRow oldCol Hwf Hnn Hscan)
    as (rows' & t' & Hrun & _ & Hperm & _).
  destruct (scanRows_Some _ _ _ _ _ Hscan) as (R & _ & HR & HkR).
  rewrite Nat.sub_0_r in HR.
  assert (HlenR : (oldRow < length rows)%nat) by (by eapply lookup_lt_Some).
  pose proof Hrun as H. unfold Budget.sortKeys in H.
  apply bind_Normal_inv in H as (pos & m0 & Hpos0 & H).
  rewrite (getKeyPos_found rows t k _ Hscan) in Hpos0.
  injection Hpos0 as <- <-.
  apply bind_Normal_inv in H as (old & m1 & Hold & H).
  unfold getFlexItemsInfo in Hold. injection Hold as _ <-.
  apply bind_Normal_inv in H as ([] & m2 & Hmove & H).
  change 0 with (Z.of_nat 0) in Hmove at 1.
  rewrite (moveKey_front rows t k oldRow oldCol 0%nat R) in Hmove;
    [|done..|lia].
  injection Hmove as <-.
  apply bind_Normal_inv in H as ([] & m3 & Hloop & H).
  apply bind_Normal_inv in H as (new & m4 & Hflex & H).
  unfold getFlexItemsInfo in Hflex. injection Hflex as _ <-.
  apply animateFlexItems_state in H. subst m3.
  set (rows1 := moved k oldRow oldCol 0 rows) in *.
  assert (Hwf1 : wellFormed rows1) by (eapply moved_wellFormed; [done..|lia]).
  assert (Hb1 : defaultRowWidth <$> rows1 = defaultRowWidth <$> rows)
    by apply moved_budgets.
  assert (Hl1 : length rows1 = length rows) by apply moved_length.
  assert (Hnn1 : budgetsNonneg rows1) by (unfold budgetsNonneg; by rewrite Hb1).
  destruct (moved_front k oldRow oldCol rows ltac:(lia)) as [T HT].
  fold rows1 in HT. cbn [keyRows] in Hloop. rewrite Hl1 in Hloop.
  destruct (length rows) as [|[|n]] eqn:Hn; [lia..|].
  replace (S (S n) - 1)%nat with (S n) in Hloop by lia.
  cbn [forLoop] in Hloop.
  apply bind_Normal_inv in Hloop as ([] & ma & Hfirst & Hrest).
  unfold Budget.reflowRow in Hfirst.
  apply bind_Normal_inv in Hfirst as (Ra & ? & HRa & Hfirst).
  apply getRow_inv in HRa as [_ ->].
  apply (whileTooWide_prefix 0 _ rows1 _ _ (withFront k T)) in Hfirst
      as (R' & HR' & Hpre & Hw' & Hb' & _); [|done|done|lia|done].
  apply (forLoop_reflow_exit _ 1%nat) in Hrest as (_ & Hlow & _).
  rewrite <- (Hlow 0%nat) in HR' by lia. cbn [keyRows] in HR'.
  assert (HbT : defaultRowWidth (withFront k T) = defaultRowWidth R0)
    by (by eapply (budget_lookup rows rows1 0%nat)).
  assert (Hnil : keys R' = []).
  { destruct (keys R') as [|y l'] eqn:HkR'; [done|]. exfalso.
    destruct Hpre as [l2 Hl2]. cbn [keys withFront] in Hl2.
    injection Hl2 as <- Hl2.
    unfold Budget.rowWidth in Hw'. rewrite HkR', keysWidth_cons in Hw'.
    assert (0 ≤ Budget.keysWidth l'); [|lia].
    apply keysWidth_nonneg. rewrite Forall_forall in Hpos |- *.
    intros x Hx. apply Hpos.
    destruct Hwf1 as [_ Hd1].
    assert (Hin : x ∈ allKeys rows1).
    { apply elem_of_allKeys. exists 0%nat, (withFront k T). split; [done|].
      cbn [keys withFront]. rewrite Hl2. right. apply elem_of_app. by left. }
    unfold rows1 in Hin.
    by rewrite (moved_allKeys k oldRow oldCol 0 rows R) in Hin by (done || lia). }
  exists rows', t', R'. split_and!; [done..|].
  unfold getKey, KeyboardRow_length, js_ge, lookupZ.
  assert (0 < length rows')%nat by (by eapply lookup_lt_Some).
  rewrite !bool_decide_eq_false_2 by lia. simpl.
  change (Z.to_nat 0) with 0%nat. by rewrite HR', Hnil.
Qed.

Lemma too_wide_key_empties_top_row_witness :
  ∃ rows' t' R0',
    Budget.sortKeys wideKey narrowTop = (Normal tt, mkMachine rows' t')
    ∧ rows' !! 0%nat = Some R0' ∧ keys R0' = []
    ∧ getKey rows' 0 0 = JUndefined.
Proof.
  assert (Hwf : wellFormed (keyRows narrowTop)).
  { split; [unfold mirrored; vm_compute; repeat constructor
           |unfold distinct; compute_done]. }
  eapply (too_wide_key_empties_top_row (keyRows narrowTop) [] wideKey _ Hwf).
  - unfold budgetsNonneg. compute_done.
  - compute_done.
  - compute_done.
  - vm_compute. lia.
  - reflexivity.
  - vm_compute. reflexivity.
Defined.

(** ** What the reflow of one row keeps *)



(** ** The two most recent keys *)

Lemma allKeys_head {B} (rows : list (KeyboardRow B)) R0 :
  rows !! 0%nat = Some R0 → ∃ rest, allKeys rows = keys R0 ++ rest.
Proof.
  intros H. destruct rows as [|R rows]; [done|]. injection H as ->.
  by eexists.
Qed.

Lemma autosort_second (rows : list (KeyboardRow unit)) t k k0 x rest R0 :
  wellFormed rows →
  rows !! 0%nat = Some R0 → keys R0 = k0 :: x :: rest →
  k ∈ allKeys rows → k ≠ k0 →
  ∃ m', Autosort.sortKeys k (mkMachine rows t) = (Normal tt, m')
        ∧ getKey (keyRows m') 0 0 = JKey k
        ∧ getKey (keyRows m') 0 1 = JKey k0.
Proof.
  intros Hwf HR0 HkR0 Hk Hne.
  destruct (present_scan rows k Hk) as (oldRow & oldCol & Hscan).
  destruct (autosort_run rows t k oldRow oldCol Hwf Hscan)
    as (Hrun & _ & _ & Hl & _).
  destruct (scanRows_Some _ _ _ _ _ Hscan) as (R & _ & HR & HkR).
  rewrite Nat.sub_0_r in HR.
  assert (HlenR : (oldRow < length rows)%nat) by (by eapply lookup_lt_Some).
  set (rows1 := moved k oldRow oldCol 0 rows) in *.
  set (rows' := shiftDown oldRow 0 rows1) in *.
  assert (Hwf1 : wellFormed rows1) by (eapply moved_wellFormed; [done..|lia]).
  destruct (moved_front k oldRow oldCol rows ltac:(lia)) as [T HT].
  fold rows1 in HT.
  assert (Hne1 : ∃ R1, rows1 !! 0%nat = Some R1 ∧ keys R1 ≠ [])
    by (exists (withFront k T); by split).
  assert (Hl1 : (0 + oldRow < length rows1)%nat)
    by (unfold rows1; rewrite moved_length; lia).
  (* the reading order *)
  destruct (moved_order rows k oldRow oldCol R HR HkR) as (l1 & l2 & H1 & H2).
  fold rows1 in H2.
  pose proof (shiftDown_order oldRow 0 rows1 Hwf1 Hl1 Hne1) as Hord.
  fold rows' in Hord. rewrite H2 in Hord.
  destruct (allKeys_head rows R0 HR0) as [rest0 Hhead].
  rewrite HkR0, H1 in Hhead.
  destruct l1 as [|y l1]; [simpl in Hhead; by simplify_eq|].
  simpl in Hhead. injection Hhead as -> _.
  (* the length of the top row *)
  pose proof (moved_keysInRow rows k oldRow oldCol R HR HkR 0%nat) as Hc1.
  fold rows1 in Hc1.
  pose proof (shiftDown_keysInRow oldRow 0 rows1 Hwf1 Hl1 Hne1 0%nat) as Hc2.
  fold rows' in Hc2.
  assert (Hc : keysInRow rows' 0 = keysInRow rows 0).
  { rewrite Nat.add_0_l in Hc2. repeat case_decide; lia. }
  destruct (lookup_lt_is_Some_2 rows' 0) as [R0' HR0']; [lia|].
  unfold keysInRow in Hc. rewrite HR0', HR0 in Hc. simpl in Hc.
  rewrite HkR0 in Hc. simpl in Hc.
  destruct (allKeys_head rows' R0' HR0') as [rest' Hhead'].
  rewrite Hord in Hhead'.
  destruct (keys R0') as [|a [|b l]] eqn:HkR0'; simpl in Hc; [lia..|].
  simpl in Hhead'. injection Hhead' as <- <- _.
  exists (mkMachine rows' (t ++ MoveKeyCall (Some k) (Z.of_nat oldRow)
                                 (Z.of_nat oldCol) 0 0
                               :: shiftCalls oldRow 0 rows1)).
  split_and!; [exact Hrun| |].
  - apply getKey_JKey. split_and!; [done..|]. exists R0'.
    split; [done|]. by rewrite HkR0'.
  - apply getKey_JKey. split_and!; [done..|]. exists R0'.
    split; [done|]. by rewrite HkR0'.
Qed.

Lemma budget_second (rows : list (KeyboardRow Z)) t k k0 R0 :
  wellFormed rows → budgetsNonneg rows →
  rows !! 0%nat = Some R0 → keys R0 !! 0%nat = Some k0 →
  k ∈ allKeys rows → k ≠ k0 →
  width k + width k0 ≤ defaultRowWidth R0 →
  ∃ m', Budget.sortKeys k (mkMachine rows t) = (Normal tt, m')
        ∧ getKey (keyRows m') 0 0 = JKey k
        ∧ getKey (keyRows m') 0 1 = JKey k0.
Proof.
  intros Hwf Hnn HR0 Hk0 Hk Hne Hfit.
  destruct (present_scan rows k Hk) as (oldRow & oldCol & Hscan).
  destruct (budget_run rows t k oldRow oldCol Hwf Hnn Hscan)
    as (rows' & t' & Hrun & _).
  destruct (scanRows_Some _ _ _ _ _ Hscan) as (R & _ & HR & HkR).
  rewrite Nat.sub_0_r in HR.
  assert (HlenR : (oldRow < length rows)%nat) by (by eapply lookup_lt_Some).
  exists (mkMachine rows' t'). split; [done|].
  set (rows1 := moved k oldRow oldCol 0 rows).
  assert (Hwf1 : wellFormed rows1) by (eapply moved_wellFormed; [done..|lia]).
  assert (Hb1 : defaultRowWidth <$> rows1 = defaultRowWidth <$> rows)
    by apply moved_budgets.
  assert (Hl1 : length rows1 = length rows) by apply moved_length.
  assert (Hnn1 : budgetsNonneg rows1) by (unfold budgetsNonneg; by rewrite Hb1).
  (* the top row after the promotion starts with [k; k0] *)
  assert (Htop : ∃ T l, rows1 !! 0%nat = Some T ∧ keys T = k :: k0 :: l
                        ∧ defaultRowWidth T = defaultRowWidth R0).
  { destruct (decide (oldRow = 0%nat)) as [->|Hrow].
    - rewrite HR0 in HR. injection HR as <-.
      destruct oldCol as [|c]; [rewrite Hk0 in HkR; by simplify_eq|].
      destruct (keys R0) as [|y l] eqn:HkR0; [done|].
      simpl in Hk0. injection Hk0 as ->.
      eexists _, (delete c l). unfold rows1.
      rewrite moved_lookup_same, HR0. split; [done|].
      cbn [keys withFront without defaultRowWidth]. by rewrite HkR0.
    - destruct (keys R0) as [|y l] eqn:HkR0; [done|].
      simpl in Hk0. injection Hk0 as ->.
      eexists _, l. unfold rows1.
      rewrite moved_lookup_to, HR0 by done. split; [done|].
      cbn [keys withFront defaultRowWidth]. by rewrite HkR0. }
  destruct Htop as (T & l & HT & HkT & HbT).
  (* the run, part by part *)
  pose proof Hrun as H. unfold Budget.sortKeys in H.
  apply bind_Normal_inv in H as (pos & m0 & Hpos0 & H).
  rewrite (getKeyPos_found rows t k _ Hscan) in Hpos0.
  injection Hpos0 as <- <-.
  apply bind_Normal_inv in H as (old & m1 & Hold & H).
  unfold getFlexItemsInfo in Hold. injection Hold as _ <-.
  apply bind_Normal_inv in H as ([] & m2 & Hmove & H).
  change 0 with (Z.of_nat 0) in Hmove at 1.
  rewrite (moveKey_front rows t k oldRow oldCol 0%nat R) in Hmove;
    [|done..|lia].
  injection Hmove as <-.
  apply bind_Normal_inv in H as ([] & m3 & Hloop & H).
  apply bind_Normal_inv in H as (new & m4 & Hflex & H).
  unfold getFlexItemsInfo in Hflex. injection Hflex as _ <-.
  apply animateFlexItems_state in H. subst m3.
  fold rows1 in Hloop. cbn [keyRows] in Hloop |- *.
  assert (Hrow0 : ∃ R' l', rows' !! 0%nat = Some R' ∧ keys R' = k :: k0 :: l').
  { destruct (length rows1 - 1)%nat as [|n] eqn:Hn.
    - unfold forLoop, ret in Hloop. injection Hloop as <- _. eauto.
    - cbn [forLoop] in Hloop.
      apply bind_Normal_inv in Hloop as ([] & ma & Hfirst & Hrest).
      unfold Budget.reflowRow in Hfirst.
      apply bind_Normal_inv in Hfirst as (Ra & ? & HRa & Hfirst).
      apply getRow_inv in HRa as [_ ->].
      apply (whileTooWide_prefix 0 _ rows1 _ _ T) in Hfirst
          as (R' & HR' & Hpre & _ & _ & Hmax); [|done|done|lia|done].
      apply (forLoop_reflow_exit _ 1%nat) in Hrest as (_ & Hlow & _).
      rewrite <- (Hlow 0%nat) in HR' by lia. cbn [keyRows] in HR'.
      destruct (Hmax [k; k0]) as [l' Hl'].
      + rewrite HkT. by exists l.
      + rewrite !keysWidth_cons. unfold Budget.keysWidth. simpl. lia.
      + exists R', l'. by split. }
  destruct Hrow0 as (R' & l' & HR' & HkR').
  split; apply getKey_JKey; (split_and!; [done..|]); exists R';
    (split; [done|]); by rewrite HkR'.
Qed.

(** X20 (the two most recent keys): after a press on a well-formed layout,
    the pressed key is top left and the key that was top left before sits
    right next to it, at row 0, column 1.  In [autosort.js] this needs a top
    row of two keys or more; in the four-row file, budgets that are not
    negative and a top row wide enough for the two keys. *)
Theorem two_most_recent (k k0 : Key) :
  k ≠ k0 →
  (∀ (rows : list (KeyboardRow unit)) t x rest R0,
     wellFormed rows →
     rows !! 0%nat = Some R0 → keys R0 = k0 :: x :: rest →
     k ∈ allKeys rows →
     ∃ m', Autosort.sortKeys k (mkMachine rows t) = (Normal tt, m')
           ∧ getKey (keyRows m') 0 0 = JKey k
           ∧ getKey (keyRows m') 0 1 = JKey k0)
  ∧ (∀ (rows : list (KeyboardRow Z)) t R0,
       wellFormed rows → budgetsNonneg rows →
       rows !! 0%nat = Some R0 → keys R0 !! 0%nat = Some k0 →
       k ∈ allKeys rows →
       width k + width k0 ≤ defaultRowWidth R0 →
       ∃ m', Budget.sortKeys k (mkMachine rows t) = (Normal tt, m')
             ∧ getKey (keyRows m') 0 0 = JKey k
             ∧ getKey (keyRows m') 0 1 = JKey k0).
Proof.
  intros Hne. split.
  - intros rows t x rest R0 Hwf HR0 HkR0 Hk.
    by eapply autosort_second.
  - intros rows t R0 Hwf Hnn HR0 Hk0 Hk Hfit.
    by eapply budget_second.
Qed.

Lemma two_most_recent_witness :
  ∃ m', Budget.sortKeys key_space Budget.Keyboard_new = (Normal tt, m')
        ∧ getKey (keyRows m') 0 0 = JKey key_space
        ∧ getKey (keyRows m') 0 1 = JKey (Budget.Key_new "q" None 0%nat).
Proof.
  assert (Hne : key_space ≠ Budget.Key_new "q" None 0%nat) by done.
  eapply (proj2 (two_most_recent key_space (Budget.Key_new "q" None 0%nat) Hne)
            (keyRows Budget.Keyboard_new) []).
  - apply budget_new_wellFormed.
  - unfold budgetsNonneg. compute_done.
  - reflexivity.
  - reflexivity.
  - compute_done.
  - vm_compute. discriminate.
Defined.

(** ** What a press leaves alone *)

Lemma scan_slot {B} (rows : list (KeyboardRow B)) (k : Key) r c R :
  wellFormed rows → rows !! r = Some R → keys R !! c = Some k →
  scanRows 0 rows k = Some (r, c).
Proof.
  intros [_ Hd] HR Hk.
  assert (Hin : k ∈ allKeys rows).
  { apply elem_of_allKeys. exists r, R. split; [done|].
    by eapply list_elem_of_lookup_2. }
  destruct (present_scan rows k Hin) as (r0 & c0 & Hs).
  pose proof (scanRows_Some _ _ _ _ _ Hs) as (R0 & _ & HR0 & Hk0).
  rewrite Nat.sub_0_r in HR0.
  by destruct (slot_unique rows _ _ _ _ R0 R k (distinct_NoDup _ Hd)
                 HR0 Hk0 HR Hk) as [-> ->].
Qed.

Lemma moved_same_row {B} (rows : list (KeyboardRow B)) (k : Key) r c R :
  rows !! r = Some R →
  moved k r c r rows = <[r := withFront k (without c R)]> rows.
Proof.
  intros HR. unfold moved. apply list_eq. intros j.
  destruct (decide (j = r)) as [->|Hne].
  - rewrite !list_lookup_alter_eq, list_lookup_insert_eq, HR
      by (by eapply lookup_lt_Some). done.
  - by rewrite !list_lookup_alter_ne, list_lookup_insert_ne by done.
Qed.

(** X21 (what a press leaves alone): in [autosort.js], on a well-formed
    layout, the rows below the row of the pressed key are exactly as
    before.  In the four-row file, on a well-formed layout within budget, a
    press on a key of the top row makes one call of [moveKey] and changes
    the top row only, whose key comes to the front. *)
Theorem press_is_local (k : Key) :
  (∀ (rows : list (KeyboardRow unit)) t r c R,
     wellFormed rows → rows !! r = Some R → keys R !! c = Some k →
     ∃ m', Autosort.sortKeys k (mkMachine rows t) = (Normal tt, m')
           ∧ ∀ j, (r < j)%nat → keyRows m' !! j = rows !! j)
  ∧ (∀ (rows : list (KeyboardRow Z)) t c R,
       wellFormed rows → withinBudget rows →
       rows !! 0%nat = Some R → keys R !! c = Some k →
       Budget.sortKeys k (mkMachine rows t)
       = (Normal tt,
          mkMachine (<[0%nat := withFront k (without c R)]> rows)
            (t ++ [MoveKeyCall (Some k) 0 (Z.of_nat c) 0 0]))).
Proof.
  split.
  - intros rows t r c R Hwf HR Hk.
    pose proof (scan_slot rows k r c R Hwf HR Hk) as Hscan.
    destruct (autosort_run rows t k r c Hwf Hscan) as (Hrun & _).
    eexists. split; [exact Hrun|]. cbn [keyRows]. intros j Hj.
    assert (HlenR : (r < length rows)%nat) by (by eapply lookup_lt_Some).
    destruct (moved_front k r c rows ltac:(lia)) as [T HT].
    destruct (forLoop_shed r 0 (moved k r c 0 rows) t)
      as (_ & _ & _ & _ & _ & _ & Hbelow & _).
    + eapply moved_wellFormed; [done..|lia].
    + rewrite moved_length. lia.
    + exists (withFront k T). by split.
    + rewrite Hbelow by lia. apply moved_lookup_other; lia.
  - intros rows t c R Hwf Hin HR Hk.
    pose proof (scan_slot rows k 0 c R Hwf HR Hk) as Hscan.
    assert (Hlen : (0 < length rows)%nat) by (by eapply lookup_lt_Some).
    assert (Hwf1 : wellFormed (moved k 0 c 0 rows))
      by (eapply moved_wellFormed; [done..|lia]).
    assert (Hidle : ∀ t1,
               forLoop (length (moved k 0 c 0 rows) - 1) (Z.of_nat 0)
                 Budget.reflowRow (mkMachine (moved k 0 c 0 rows) t1)
               = (Normal tt, mkMachine (moved k 0 c 0 rows) t1)).
    { intros t1. apply forLoop_reflow_idle; [rewrite moved_length; lia|].
      intros j R' Hj HR'. rewrite moved_length in Hj.
      destruct (decide (j = 0%nat)) as [->|Hne].
      - rewrite moved_lookup_same, HR in HR'. simpl in HR'.
        injection HR' as <-. unfold Budget.rowWidth.
        cbn [keys withFront without defaultRowWidth].
        rewrite keysWidth_cons, <- (keysWidth_delete _ _ _ Hk).
        apply (Hin 0%nat R); [lia|done].
      - rewrite moved_lookup_other in HR' by done.
        apply (Hin j R'); [lia|done]. }
    unfold Budget.sortKeys.
    mrun (by apply getKeyPos_found).
    mrun reflexivity.
    mrun (apply (moveKey_front rows t k 0%nat c 0%nat R); [done..|lia]).
    mrun (cbv beta; cbn [keyRows trace]; apply Hidle).
    mrun reflexivity.
    rewrite <- (moved_same_row rows k 0 c R HR). cbn [Z.of_nat].
    apply animate_after; [apply Hwf|apply Hwf1|].
    by eapply moved_allKeys.
Qed.

Lemma press_is_local_witness :
  Budget.sortKeys (Budget.Key_new "e" None 2%nat) Budget.Keyboard_new
  = (Normal tt,
     mkMachine
       (<[0%nat := withFront (Budget.Key_new "e" None 2%nat)
                     (without 2
                        (default (mkRow [] [] 0)
                           (keyRows Budget.Keyboard_new !! 0%nat)))]>
          (keyRows Budget.Keyboard_new))
       [MoveKeyCall (Some (Budget.Key_new "e" None 2%nat)) 0 2 0 0]).
Proof.
  apply (proj2 (press_is_local (Budget.Key_new "e" None 2%nat))
           (keyRows Budget.Keyboard_new) [] 2%nat).
  - apply budget_new_wellFormed.
  - apply budget_new_within.
  - reflexivity.
  - reflexivity.
Defined.

(** ** The pointer on the keys *)

Lemma classList_remove_only (el : Element) : classList_remove el [el] = [].
Proof.
  unfold classList_remove.
  by rewrite filter_cons_False, filter_nil by (intros ?; done).
Qed.

Lemma drag_inv (buttons : Z) (path : list Element) : ∀ cur p,
  buttons ≠ 0 →
  pressedEls p = [cur] → previewEl p = Some cur →
  pressedEls (drag cur path buttons p).1 = [(drag cur path buttons p).2]
  ∧ previewEl (drag cur path buttons p).1 = Some (drag cur path buttons p).2
  ∧ hoveredEl (drag cur path buttons p).1 = hoveredEl p
  ∧ (drag cur path buttons p).2 = default cur (last path).
Proof.
  induction path as [|next rest IH]; intros cur p Hb Hp Hv; [done|].
  cbn [drag]. destruct (IH next (onpointerdown next buttons (onpointerout cur p)) Hb)
    as (H1 & H2 & H3 & H4).
  - unfold onpointerdown, onpointerout. rewrite bool_decide_eq_true_2 by done.
    cbn [show pressedEls]. by rewrite Hp, classList_remove_only.
  - unfold onpointerdown. by rewrite bool_decide_eq_true_2 by done.
  - split_and!; [done..| |].
    + rewrite H3. unfold onpointerdown, onpointerout.
      by rewrite bool_decide_eq_true_2 by done.
    + rewrite H4, last_cons. by destruct (last rest).
Qed.

(** X22 (the pointer on the keys, both files): when a button goes down on a
    key of a fresh preview and the pointer is dragged over other keys, the
    only pressed key is the key under the pointer and the preview shows it;
    when the button is released on that key, no key is pressed and the
    preview is hidden again. *)
Theorem pointer_drag (first : Element) (path : list Element) (buttons : Z) :
  buttons ≠ 0 →
  let during :=
    drag first path buttons (onpointerdown first buttons KeyPressPreview_new) in
  during.2 = default first (last path)
  ∧ pressedEls during.1 = [during.2]
  ∧ previewEl during.1 = Some during.2
  ∧ document_pointerup (onpointerout during.2 during.1) = KeyPressPreview_new.
Proof.
  intros Hb during.
  destruct (drag_inv buttons path first
              (onpointerdown first buttons KeyPressPreview_new) Hb)
    as (H1 & H2 & H3 & H4).
  { unfold onpointerdown. by rewrite bool_decide_eq_true_2 by done. }
  { unfold onpointerdown. by rewrite bool_decide_eq_true_2 by done. }
  fold during in H1, H2, H3, H4. split_and!; [done..|].
  unfold document_pointerup, onpointerout, hide.
  cbn [pressedEls hoveredEl previewEl].
  rewrite H1, H3, classList_remove_only.
  unfold onpointerdown. by rewrite bool_decide_eq_true_2 by done.
Qed.

Lemma pointer_drag_witness :
  document_pointerup
    (onpointerout
       (drag 3%nat [4; 5]%nat 1 (onpointerdown 3%nat 1 KeyPressPreview_new)).2
       (drag 3%nat [4; 5]%nat 1 (onpointerdown 3%nat 1 KeyPressPreview_new)).1)
  = KeyPressPreview_new.
Proof.
  apply (pointer_drag 3%nat [4; 5]%nat 1). lia.
Defined.
